(** * ShadowOS core: field, polynomial, Merkle tree and the x402 ledger

    A shallow embedding of [src/core/field.ts], [src/core/polynomial.ts],
    [src/core/merkle.ts], [src/core/validation.ts] and [src/zk/x402.ts],
    followed by the properties the specification states about them and by
    further properties of the same code.

    Conventions of the embedding:
    - a JavaScript [bigint] is a [Z]; [/] and [%] on bigints truncate
      towards zero ([Z.quot], [Z.rem]) and throw [RangeError] on a zero
      divisor;
    - a [Uint8Array] is a [list byte];
    - a JavaScript [number] used as an index or a length is a [Z];
    - a method that can throw returns a [result]; a method of the ledger,
      which mutates [this], also returns the ledger it leaves behind;
    - [sha256] comes from the package [@noble/hashes]: every definition
      takes it as a parameter (class [HashFunction]). *)

From Stdlib Require Import String.
From Stdlib.Strings Require Import Byte.
From Stdlib Require Import ZArith List Lia Bool Znumtheory Zpow_facts.
From Stdlib Require Import Wellfounded Morphisms.
From Stdlib.Lists Require Finite.
From Stdlib.Zmod Require ZmodInv.
From Equations Require Import Equations.
Import ListNotations.

Local Open Scope Z_scope.

(* ===================================================================== *)
(** * Errors and the result monad *)
(* ===================================================================== *)

(** The exceptions the modelled code can raise.  [ValidationError] and
    [ProofError] are the classes of [src/core/errors.ts]; [Error] is the
    plain JavaScript [Error] with its message; [RangeError], [TypeError] and
    [SyntaxError] are raised by the language itself (bigint division by
    zero, property access on [undefined], [BigInt] of a malformed string).
    Messages that the code builds from its arguments are kept without the
    interpolated values. *)
Inductive error : Type :=
| ValidationError (message : string) (field : option string)
| ProofError (message : string)
| Error (message : string)
| RangeError
| TypeError
| SyntaxError.

Inductive result (A : Type) : Type :=
| Ok (a : A)
| Throw (e : error).
Arguments Ok {A} a.
Arguments Throw {A} e.

Definition bind {A B} (r : result A) (k : A -> result B) : result B :=
  match r with
  | Ok a => k a
  | Throw e => Throw e
  end.

Notation "x <- c ;; k" := (bind c (fun x => k))
  (at level 61, c at next level, right associativity).

(** [for (const x of xs) acc = body(acc, x)] where the body can throw. *)
Fixpoint foldM {A B} (body : B -> A -> result B) (xs : list A) (acc : B)
  : result B :=
  match xs with
  | [] => Ok acc
  | x :: xs' => acc' <- body acc x ;; foldM body xs' acc'
  end.

(** [xs.map(f)] where [f] can throw. *)
Fixpoint mapM {A B} (f : A -> result B) (xs : list A) : result (list B) :=
  match xs with
  | [] => Ok []
  | x :: xs' => y <- f x ;; ys <- mapM f xs' ;; Ok (y :: ys)
  end.

(* ===================================================================== *)
(** * Bytes *)
(* ===================================================================== *)

Definition bytes : Type := list byte.

Definition Z_of_byte (b : byte) : Z := Z.of_N (Byte.to_N b).

(** Storing a number into a [Uint8Array] keeps it modulo 256. *)
Definition byte_of_Z (z : Z) : byte :=
  match Byte.of_N (Z.to_N (z mod 256)) with
  | Some b => b
  | None => x00
  end.

Fixpoint bytes_eqb (a b : bytes) : bool :=
  match a, b with
  | [], [] => true
  | x :: a', y :: b' => Byte.eqb x y && bytes_eqb a' b'
  | _, _ => false
  end.

(** [value = (value << 8n) + BigInt(bytes[i])] over the whole array. *)
Definition be_to_Z (bs : bytes) : Z :=
  fold_left (fun value b => Z.shiftl value 8 + Z_of_byte b) bs 0.

(** [for (i = n-1; i >= 0; i--) { bytes[i] = Number(val & 0xffn); val = val >> 8n }] *)
Fixpoint Z_to_be (n : nat) (val : Z) (acc : bytes) : bytes :=
  match n with
  | O => acc
  | S n' => Z_to_be n' (Z.shiftr val 8) (byte_of_Z (Z.land val 255) :: acc)
  end.

(** [xs[i]] for a number [i]: [undefined] outside the array. *)
Definition lookup {A} (xs : list A) (i : Z) : option A :=
  if i <? 0 then None else nth_error xs (Z.to_nat i).

Definition len {A} (xs : list A) : Z := Z.of_nat (length xs).

(* ===================================================================== *)
(** * FieldElement ([src/core/field.ts]) *)
(* ===================================================================== *)

Module Field.

(** [2n ** 251n + 17n * 2n ** 192n + 1n] *)
Definition SHADOW_PRIME : Z := 2 ^ 251 + 17 * 2 ^ 192 + 1.

Record FieldElement : Type := mkFE { value : Z; modulus : Z }.

(** The bigint operator [%]. *)
Definition js_rem (a m : Z) : result Z :=
  if m =? 0 then Throw RangeError else Ok (Z.rem a m).

(** The bigint operator [/]. *)
Definition js_quot (a m : Z) : result Z :=
  if m =? 0 then Throw RangeError else Ok (Z.quot a m).

(** [private mod(a, m) { return ((a % m) + m) % m }] *)
Definition mod_ (a m : Z) : result Z :=
  r <- js_rem a m ;; js_rem (r + m) m.

(** The constructor: [if (value < 0n || value >= modulus) this.value = this.mod(value, modulus)]. *)
Definition new_FieldElement (v m : Z) : result FieldElement :=
  if (v <? 0) || (v >=? m) then
    v' <- mod_ v m ;; Ok (mkFE v' m)
  else Ok (mkFE v m).

Definition zero (m : Z) : result FieldElement := new_FieldElement 0 m.
Definition one (m : Z) : result FieldElement := new_FieldElement 1 m.

Definition add (a b : FieldElement) : result FieldElement :=
  if negb (modulus a =? modulus b) then
    Throw (Error "Cannot add field elements with different moduli"%string)
  else
    v <- mod_ (value a + value b) (modulus a) ;;
    new_FieldElement v (modulus a).

Definition sub (a b : FieldElement) : result FieldElement :=
  if negb (modulus a =? modulus b) then
    Throw (Error "Cannot subtract field elements with different moduli"%string)
  else
    v <- mod_ (value a - value b) (modulus a) ;;
    new_FieldElement v (modulus a).

Definition mul (a b : FieldElement) : result FieldElement :=
  if negb (modulus a =? modulus b) then
    Throw (Error "Cannot multiply field elements with different moduli"%string)
  else
    v <- mod_ (value a * value b) (modulus a) ;;
    new_FieldElement v (modulus a).

(** The order of the recursion of [inverse_loop]: [|r|] strictly decreases.
    The accessibility proof is unrolled lazily so that the loop also runs on
    252-bit numbers. *)
Definition Zabs_lt (x y : Z) : Prop := 0 <= x < y.

Lemma Zabs_lt_wf : well_founded Zabs_lt.
Proof. exact (Z.lt_wf 0). Qed.

#[local] Instance Zabs_lt_WellFounded : WellFounded Zabs_lt :=
  Acc_intro_generator 64 Zabs_lt_wf.
#[local] Opaque Zabs_lt_WellFounded.

Lemma Zabs_rem_lt (a r : Z) : r <> 0 -> Zabs_lt (Z.abs (a - Z.quot a r * r)) (Z.abs r).
Proof.
  intros Hr. unfold Zabs_lt.
  replace (a - Z.quot a r * r) with (Z.rem a r)
    by (pose proof (Z.quot_rem' a r); lia).
  pose proof (Z.rem_bound_abs a r Hr). lia.
Qed.

(** The loop of [inverse]:
    [while (r !== 0n) { quotient = oldR / r;
       [oldR, r] = [r, oldR - quotient * r]; [oldS, s] = [s, oldS - quotient * s] }];
    it returns the final [(oldR, oldS)]. *)
Equations inverse_loop (oldR r oldS s : Z) : Z * Z by wf (Z.abs r) Zabs_lt :=
  inverse_loop oldR r oldS s with Z.eq_dec r 0 => {
    | left _ => (oldR, oldS)
    | right Hr =>
        inverse_loop r (oldR - Z.quot oldR r * r) s (oldS - Z.quot oldR r * s)
  }.
Next Obligation. apply Zabs_rem_lt; assumption. Qed.

Definition inverse (a : FieldElement) : result FieldElement :=
  let '(oldR, oldS) := inverse_loop (value a) (modulus a) 1 0 in
  if oldR >? 1 then Throw (Error "Field element is not invertible"%string)
  else
    v <- mod_ oldS (modulus a) ;;
    new_FieldElement v (modulus a).

Definition neg (a : FieldElement) : result FieldElement :=
  v <- mod_ (- value a) (modulus a) ;;
  new_FieldElement v (modulus a).

(** [div(other) { return this.mul(other.inverse()) }] *)
Definition div (a b : FieldElement) : result FieldElement :=
  i <- inverse b ;; mul a i.

Lemma Zabs_half_lt (exponent : Z) :
  exponent > 0 -> Zabs_lt (Z.quot exponent 2) exponent.
Proof.
  intros Hpos. unfold Zabs_lt. split.
  - apply Z.quot_pos; lia.
  - apply Z.quot_lt; lia.
Qed.

(** The loop of [pow]:
    [while (exponent > 0n) {
       if (exponent % 2n === 1n) result = result.mul(base);
       base = base.mul(base); exponent = exponent / 2n }];
    [acc] is the variable [result] of the code. *)
Equations pow_loop (acc base : FieldElement) (exponent : Z)
  : result FieldElement by wf exponent Zabs_lt :=
  pow_loop acc base exponent with Z_gt_dec exponent 0 => {
    | right _ => Ok acc
    | left Hpos
        with (if Z.rem exponent 2 =? 1 then mul acc base else Ok acc) => {
        | Throw e => Throw e
        | Ok acc' with mul base base => {
            | Throw e => Throw e
            | Ok base' => pow_loop acc' base' (Z.quot exponent 2)
          }
      }
  }.
Next Obligation. apply Zabs_half_lt; assumption. Qed.

(** [pow(exponent)]: a negative exponent goes once through
    [this.inverse().pow(-exponent)], whose exponent is positive. *)
Definition pow (a : FieldElement) (exponent : Z) : result FieldElement :=
  if exponent <? 0 then
    i <- inverse a ;;
    result0 <- one (modulus i) ;;
    pow_loop result0 i (- exponent)
  else
    result0 <- one (modulus a) ;;
    pow_loop result0 a exponent.

Definition equals (a b : FieldElement) : bool :=
  (value a =? value b) && (modulus a =? modulus b).

Definition isZero (a : FieldElement) : bool := value a =? 0.

Definition isOne (a : FieldElement) : bool := value a =? 1.

(** [toBytes]: 32 bytes, filled from index 31 down to 0. *)
Definition toBytes (a : FieldElement) : bytes := Z_to_be 32 (value a) [].

(** [static fromBytes(bytes, modulus = SHADOW_PRIME)] *)
Definition fromBytes (bs : bytes) (m : Z) : result FieldElement :=
  new_FieldElement (be_to_Z bs) m.

(** [max.toString(16).length] for a bigint [max]: its hexadecimal digits,
    after a minus sign when it is negative. *)
Definition hex_length (z : Z) : Z :=
  if z <? 0 then 1 + (Z.log2 (- z) / 4 + 1) else Z.log2 z / 4 + 1.

(** The CSPRNG is the stream of bytes it is going to deliver:
    [crypto.getRandomValues(new Uint8Array(n))] takes the next [n]. *)
Definition entropy : Type := nat -> byte.

Definition getRandomValues (n : Z) (e : entropy) : bytes * entropy :=
  (map e (seq 0 (Z.to_nat n)), fun i => e (Z.to_nat n + i)%nat).

(** [static random(modulus = SHADOW_PRIME)]: the element drawn (or the
    exception raised) and the stream left. *)
Definition random (m : Z) (e : entropy) : result FieldElement * entropy :=
  let max := m - 1 in
  let byteLength := (hex_length max + 1) / 2 in
  let '(randomBytes, e') := getRandomValues byteLength e in
  let randomValue := be_to_Z randomBytes in
  (randomValue' <- js_rem randomValue (max + 1) ;;
   new_FieldElement randomValue' m, e').

(** The procedure the specification describes for [random], written from
    its words (uniform via rejection sampling over the byte stream), to be
    compared with [random]: draw the bytes the modulus needs, accept their
    value if it is below the modulus, draw again otherwise.  [rounds]
    bounds the number of draws. *)
Fixpoint randomByRejection (rounds : nat) (m : Z) (e : entropy)
  : option (FieldElement * entropy) :=
  match rounds with
  | O => None
  | S rounds' =>
      let byteLength := (hex_length (m - 1) + 1) / 2 in
      let '(randomBytes, e') := getRandomValues byteLength e in
      let randomValue := be_to_Z randomBytes in
      if randomValue <? m then Some (mkFE randomValue m, e')
      else randomByRejection rounds' m e'
  end.

End Field.

(* ===================================================================== *)
(** * Polynomial ([src/core/polynomial.ts]) *)
(* ===================================================================== *)

Module Poly.
Import Field.

Record Polynomial : Type := mkPoly { coefficients : list FieldElement }.

(** The loop of the constructor,
    [while (length > 0 && coefficients[length - 1].isZero()) coefficients.pop()],
    on the array read from its last element. *)
Fixpoint pop_zeros (reversed : list FieldElement) : list FieldElement :=
  match reversed with
  | [] => []
  | c :: rest => if isZero c then pop_zeros rest else reversed
  end.

Definition new_Polynomial (cs : list FieldElement) : Polynomial :=
  mkPoly (rev (pop_zeros (rev cs))).

Definition degree (p : Polynomial) : Z := len (coefficients p) - 1.

(** The indices [0, 1, ..., n - 1] of a counting loop. *)
Definition range (n : Z) : list Z := map Z.of_nat (seq 0 (Z.to_nat n)).

Definition evaluate (p : Polynomial) (x : FieldElement) : result FieldElement :=
  result0 <- zero (modulus x) ;;
  power0 <- one (modulus x) ;;
  final <- foldM (fun '(result, power) coeff =>
                    t <- mul coeff power ;;
                    result' <- Field.add result t ;;
                    power' <- mul power x ;;
                    Ok (result', power'))
                 (coefficients p) (result0, power0) ;;
  Ok (fst final).

(** [this.coefficients[0]?.modulus || SHADOW_PRIME]: the bigint [0n] is falsy. *)
Definition modulus_of (p : Polynomial) : Z :=
  match coefficients p with
  | c :: _ => if modulus c =? 0 then SHADOW_PRIME else modulus c
  | [] => SHADOW_PRIME
  end.

(** [p.coefficients[i] || FieldElement.zero(modulus)] *)
Definition coeff_or_zero (p : Polynomial) (i m : Z) : result FieldElement :=
  match lookup (coefficients p) i with
  | Some c => Ok c
  | None => zero m
  end.

Definition add (p q : Polynomial) : result Polynomial :=
  let maxLen := Z.max (len (coefficients p)) (len (coefficients q)) in
  let m := modulus_of p in
  result <- mapM (fun i => a <- coeff_or_zero p i m ;;
                           b <- coeff_or_zero q i m ;;
                           Field.add a b)
                 (range maxLen) ;;
  Ok (new_Polynomial result).

Definition sub (p q : Polynomial) : result Polynomial :=
  let maxLen := Z.max (len (coefficients p)) (len (coefficients q)) in
  let m := modulus_of p in
  result <- mapM (fun i => a <- coeff_or_zero p i m ;;
                           b <- coeff_or_zero q i m ;;
                           Field.sub a b)
                 (range maxLen) ;;
  Ok (new_Polynomial result).

Definition mul (p q : Polynomial) : result Polynomial :=
  let m := modulus_of p in
  let degree := degree p + degree q in
  result <- mapM (fun i =>
                    coeff0 <- Field.zero m ;;
                    foldM (fun coeff j =>
                             a <- coeff_or_zero p j m ;;
                             b <- coeff_or_zero q (i - j) m ;;
                             t <- Field.mul a b ;;
                             Field.add coeff t)
                          (range (i + 1)) coeff0)
                 (range (degree + 1)) ;;
  Ok (new_Polynomial result).

Definition zero (m : Z) : result Polynomial :=
  z <- Field.zero m ;; Ok (new_Polynomial [z]).

Definition one (m : Z) : result Polynomial :=
  o <- Field.one m ;; Ok (new_Polynomial [o]).

(** The points of a loop [for (let i = 0; i < points.length; i++)] with their indices. *)
Definition indexed {A} (xs : list A) : list (Z * A) :=
  combine (range (len xs)) xs.

(** The inner loop of [interpolate]: the Lagrange basis polynomial of point [i]. *)
Definition basis_of (m i : Z) (xi : FieldElement)
           (points : list (FieldElement * FieldElement)) : result Polynomial :=
  basis0 <- one m ;;
  foldM (fun basis '(j, (xj, _)) =>
           if i =? j then Ok basis
           else
             denominator <- Field.sub xi xj ;;
             nxj <- neg xj ;;
             o <- Field.one m ;;
             let numerator := new_Polynomial [nxj; o] in
             scaled <- mul basis numerator ;;
             dinv <- inverse denominator ;;
             mul scaled (new_Polynomial [dinv]))
        (indexed points) basis0.

Definition interpolate (points : list (FieldElement * FieldElement))
  : result Polynomial :=
  match points with
  | [] => Throw (Error "Cannot interpolate empty set of points"%string)
  | (x0, _) :: _ =>
      let m := modulus x0 in
      result0 <- zero m ;;
      foldM (fun result '(i, (xi, yi)) =>
               basis <- basis_of m i xi points ;;
               term <- mul basis (new_Polynomial [yi]) ;;
               add result term)
            (indexed points) result0
  end.

End Poly.

(* ===================================================================== *)
(** * MerkleTree and MerkleProof ([src/core/merkle.ts]) *)
(* ===================================================================== *)

(** [sha256] of [@noble/hashes/sha256]. *)
Class HashFunction : Type := sha256 : bytes -> bytes.

(** [xs[i]] where the code goes on to use the element as an object: an
    [undefined] there is a [TypeError] at that use. *)
Definition elem {A} (xs : list A) (i : Z) : result A :=
  match lookup xs i with
  | Some x => Ok x
  | None => Throw TypeError
  end.

Module Merkle.
Section WithHash.
Context {H : HashFunction}.

Record MerkleTree : Type :=
  mkTree { tree : list (list bytes); leaves : list bytes }.

Record MerkleProof : Type :=
  mkProof { leaf : bytes; siblings : list bytes; index : Z; root : bytes }.

Definition hash (data : bytes) : bytes := sha256 data.

(** The [for] loop of [buildTree]: one level from the level below, the
    last node paired with itself when the level has odd length. *)
Fixpoint nextLevel (currentLevel : list bytes) : list bytes :=
  match currentLevel with
  | [] => []
  | [l] => [hash (l ++ l)]
  | l :: r :: rest => hash (l ++ r) :: nextLevel rest
  end.

Lemma nextLevel_length (level : list bytes) :
  (2 * length (nextLevel level) = length level
   \/ 2 * length (nextLevel level) = S (length level))%nat.
Proof.
  induction level as [level IH] using (induction_ltof1 _ (@length bytes)).
  unfold ltof in IH.
  destruct level as [|l [|r rest]]; simpl; try lia.
  destruct (IH rest) as [E|E]; simpl; lia.
Qed.

(** The [while (currentLevel.length > 1)] loop of [buildTree]: the levels
    pushed onto [this.tree] above [currentLevel]. *)
Equations buildTree (currentLevel : list bytes) : list (list bytes)
  by wf (length currentLevel) lt :=
  buildTree currentLevel with le_lt_dec (length currentLevel) 1 => {
    | left _ => []
    | right _ => nextLevel currentLevel :: buildTree (nextLevel currentLevel)
  }.
Next Obligation.
  destruct (nextLevel_length currentLevel); lia.
Qed.

(** The constructor; copying each leaf leaves a list of bytes as it is. *)
Definition new_MerkleTree (leaves : list bytes) : MerkleTree :=
  mkTree (leaves :: buildTree leaves) leaves.

Definition getRoot (t : MerkleTree) : option bytes :=
  hd_error (last (tree t) []).

(** The loop of [getProof] over [level = 0 .. tree.length - 2]. *)
Fixpoint collectSiblings (levels : list (list bytes)) (currentIndex : Z)
  : result (list bytes) :=
  match levels with
  | [] => Ok []
  | levelNodes :: upper =>
      match upper with
      | [] => Ok []
      | _ :: _ =>
          let siblingIndex :=
            if Z.rem currentIndex 2 =? 0 then currentIndex + 1
            else currentIndex - 1 in
          node <- elem levelNodes
                       (if siblingIndex <? len levelNodes then siblingIndex
                        else currentIndex) ;;
          rest <- collectSiblings upper (currentIndex / 2) ;;
          Ok (node :: rest)
      end
  end.

Definition getProof (t : MerkleTree) (index : Z) : result MerkleProof :=
  if (index <? 0) || (index >=? len (leaves t)) then
    Throw (Error "Invalid leaf index"%string)
  else
    proof <- collectSiblings (tree t) index ;;
    leaf <- elem (leaves t) index ;;
    root <- match getRoot t with
            | Some r => Ok r
            | None => Throw TypeError
            end ;;
    Ok (mkProof leaf proof index root).

(** [getLeaf(index) { return this.leaves[index] }] *)
Definition getLeaf (t : MerkleTree) (index : Z) : option bytes :=
  lookup (leaves t) index.

(** The loop of [verify] over the siblings. *)
Fixpoint recompute (currentHash : bytes) (currentIndex : Z)
         (siblings : list bytes) : bytes :=
  match siblings with
  | [] => currentHash
  | sibling :: rest =>
      let combined :=
        if Z.rem currentIndex 2 =? 0 then currentHash ++ sibling
        else sibling ++ currentHash in
      recompute (sha256 combined) (currentIndex / 2) rest
  end.

Definition verify (p : MerkleProof) : bool :=
  bytes_eqb (recompute (leaf p) (index p) (siblings p)) (root p).

End WithHash.
End Merkle.

(* ===================================================================== *)
(** * Input validation ([src/core/validation.ts]) *)
(* ===================================================================== *)

Module Validation.

(** [validateBytes]: the [instanceof Uint8Array] test holds by typing. *)
Definition validateBytes (value : bytes) (name : string) (minLength : Z)
  : result unit :=
  if len value <? minLength then
    Throw (ValidationError "must be at least minLength bytes" (Some name))
  else Ok tt.

(** [validateBigInt]: the [typeof value !== "bigint"] test fails by typing. *)
Definition validateBigInt (value : Z) (name : string) (min max : option Z)
  : result unit :=
  if match min with Some lo => value <? lo | None => false end then
    Throw (ValidationError "must be at least min" (Some name))
  else if match max with Some hi => value >? hi | None => false end then
    Throw (ValidationError "must be at most max" (Some name))
  else Ok tt.

Definition validateStealthAddress (value : bytes) (name : string)
  : result unit :=
  _ <- validateBytes value name 32 ;;
  if negb (len value =? 32) then
    Throw (ValidationError "must be exactly 32 bytes" (Some name))
  else Ok tt.

End Validation.

(* ===================================================================== *)
(** * The x402 stealth payment ledger ([src/zk/x402.ts]) *)
(* ===================================================================== *)

Module X402.
Import Field Poly Merkle Validation.
Section WithHash.
Context {H : HashFunction}.

Record StealthPayment : Type := mkPayment {
  commitment : bytes;
  stealthAddress : bytes;
  amount : FieldElement;
  timestamp : Z
}.

Record ZKProof : Type := mkZKProof {
  polynomialCommitment : bytes;
  evaluationProofs : list MerkleProof;
  challenge : FieldElement;
  response : list FieldElement
}.

(** The interface [StealthProof]; its field [commitment] is [proofCommitment]
    here, the name being taken by [StealthPayment]. *)
Record StealthProof : Type := mkStealthProof {
  proofCommitment : bytes;
  merkleProof : MerkleProof;
  zkProof : ZKProof;
  publicInput : list FieldElement
}.

(** The private fields of the class [X402StealthPayment]. *)
Record X402StealthPayment : Type := mkLedger {
  stealthPayments : list StealthPayment;
  merkleTree : option MerkleTree
}.

(** [new X402StealthPayment()] *)
Definition new_X402StealthPayment : X402StealthPayment := mkLedger [] None.

Definition rebuildMerkleTree (this : X402StealthPayment) : X402StealthPayment :=
  let leaves := map commitment (stealthPayments this) in
  mkLedger (stealthPayments this) (Some (new_MerkleTree leaves)).

Definition getRoot (this : X402StealthPayment) : option bytes :=
  match merkleTree this with
  | Some t => Merkle.getRoot t
  | None => None
  end.

Definition getPaymentCount (this : X402StealthPayment) : Z :=
  len (stealthPayments this).

Definition getPayment (this : X402StealthPayment) (index : Z)
  : option StealthPayment :=
  if (index <? 0) || (index >=? len (stealthPayments this)) then None
  else lookup (stealthPayments this) index.

(** [DataView.setBigUint64(0, timestamp, false)] into 8 bytes: the
    timestamp modulo [2^64], big-endian. *)
Definition timestampBytes (timestamp : Z) : bytes :=
  Z_to_be 8 (timestamp mod 2 ^ 64) [].

(** The validation and the construction of one record, as both
    [createPayment] and the loop of [createBatchPayments] write them. *)
Definition makePayment (stealthAddress : bytes) (amount timestamp : Z)
  : result StealthPayment :=
  _ <- validateStealthAddress stealthAddress "stealthAddress" ;;
  _ <- validateBigInt amount "amount" (Some 1) None ;;
  _ <- validateBigInt timestamp "timestamp" (Some 0) None ;;
  amountField <- new_FieldElement amount SHADOW_PRIME ;;
  let commitmentData :=
    stealthAddress ++ toBytes amountField ++ timestampBytes timestamp in
  let commitment := sha256 commitmentData in
  Ok (mkPayment commitment stealthAddress amountField timestamp).

(** [createPayment(stealthAddress, amount, timestamp = BigInt(Date.now()))];
    [now] is the reading of the clock. *)
Definition createPayment (this : X402StealthPayment) (now : Z)
           (stealthAddress : bytes) (amount : Z) (timestamp : option Z)
  : X402StealthPayment * result StealthPayment :=
  let timestamp := match timestamp with Some t => t | None => now end in
  match makePayment stealthAddress amount timestamp with
  | Throw e => (this, Throw e)
  | Ok payment =>
      let this' :=
        mkLedger (stealthPayments this ++ [payment]) (merkleTree this) in
      (rebuildMerkleTree this', Ok payment)
  end.

(** An element of the argument of [createBatchPayments]. *)
Record PaymentRequest : Type := mkRequest {
  req_stealthAddress : bytes;
  req_amount : Z;
  req_timestamp : option Z
}.

(** The clock is the stream of the readings it is going to give: each
    call of [Date.now()] takes the next one. *)
Definition clock : Type := nat -> Z.

(** [payment.timestamp ?? BigInt(Date.now())]: the timestamp of the
    request and the clock left; the clock is read only for a request
    without a timestamp. *)
Definition timestampOf (payment : PaymentRequest) (dateNow : clock)
  : Z * clock :=
  match req_timestamp payment with
  | Some t => (t, dateNow)
  | None => (dateNow 0%nat, fun i => dateNow (S i))
  end.

(** The [for (const payment of payments)] loop of [createBatchPayments]:
    each record is pushed as soon as it is built, and an exception leaves
    the loop with the records pushed so far. *)
Fixpoint batchLoop (this : X402StealthPayment) (dateNow : clock)
         (payments : list PaymentRequest) (createdPayments : list StealthPayment)
  : X402StealthPayment * result (list StealthPayment) :=
  match payments with
  | [] => (this, Ok createdPayments)
  | payment :: rest =>
      let timestamp := fst (timestampOf payment dateNow) in
      match makePayment (req_stealthAddress payment) (req_amount payment)
                        timestamp with
      | Throw e => (this, Throw e)
      | Ok stealthPayment =>
          batchLoop
            (mkLedger (stealthPayments this ++ [stealthPayment])
                      (merkleTree this))
            (snd (timestampOf payment dateNow)) rest
            (createdPayments ++ [stealthPayment])
      end
  end.

(** [createBatchPayments(payments)], with the clock its untimed requests
    read. *)
Definition createBatchPayments (this : X402StealthPayment) (dateNow : clock)
           (payments : list PaymentRequest)
  : X402StealthPayment * result (list StealthPayment) :=
  if len payments =? 0 then
    (this, Throw (ValidationError "Payments array cannot be empty" None))
  else
    match batchLoop this dateNow payments [] with
    | (this', Throw e) => (this', Throw e)
    | (this', Ok createdPayments) =>
        (rebuildMerkleTree this', Ok createdPayments)
    end.

(** [BigInt("0x" + hex.slice(0, 64))] for the hexadecimal text of
    [hashBytes]: its first 32 bytes, big-endian; [BigInt("0x")] is a
    [SyntaxError]. *)
Definition BigInt_of_hash (hashBytes : bytes) : result Z :=
  match firstn 32 hashBytes with
  | [] => Throw SyntaxError
  | digits => Ok (be_to_Z digits)
  end.

(** The Fiat-Shamir challenge, as [generateZKProof] and [verifyZKProof]
    both compute it. *)
Definition fiatShamir (polynomialCommitment : bytes)
           (publicInput : list FieldElement) : result FieldElement :=
  let challengeData :=
    polynomialCommitment ++ concat (map toBytes publicInput) in
  let hashBytes := sha256 challengeData in
  n <- BigInt_of_hash hashBytes ;;
  r <- js_rem n SHADOW_PRIME ;;
  new_FieldElement r SHADOW_PRIME.

(** The loop [for (let i = 0; i < 8; i++)] of [generateZKProof]: the
    evaluations of [poly] at freshly drawn points. *)
Fixpoint sampleEvaluations (n : nat) (poly : Polynomial) (e : entropy)
  : result (list FieldElement) * entropy :=
  match n with
  | O => (Ok [], e)
  | S n' =>
      match random SHADOW_PRIME e with
      | (Throw err, e') => (Throw err, e')
      | (Ok x, e') =>
          match evaluate poly x with
          | Throw err => (Throw err, e')
          | Ok evaluation =>
              match sampleEvaluations n' poly e' with
              | (Throw err, e'') => (Throw err, e'')
              | (Ok rest, e'') => (Ok (evaluation :: rest), e'')
              end
          end
      end
  end.

Definition queryIndices : list Z := [0; 2; 4; 6].

Definition generateZKProof (payment : StealthPayment)
           (publicInput : list FieldElement) (e : entropy)
  : result ZKProof * entropy :=
  match new_FieldElement (timestamp payment) SHADOW_PRIME with
  | Throw err => (Throw err, e)
  | Ok timestampField =>
      let trace := amount payment :: timestampField :: publicInput in
      match mapM (fun '(i, val) =>
                    x <- new_FieldElement i SHADOW_PRIME ;; Ok (x, val))
                 (indexed trace) with
      | Throw err => (Throw err, e)
      | Ok points =>
          match interpolate points with
          | Throw err => (Throw err, e)
          | Ok poly =>
              match sampleEvaluations 8 poly e with
              | (Throw err, e') => (Throw err, e')
              | (Ok evaluations, e') =>
                  let evaluationLeaves := map toBytes evaluations in
                  let evalTree := new_MerkleTree evaluationLeaves in
                  (polynomialCommitment <-
                     match Merkle.getRoot evalTree with
                     | Some r => Ok r
                     | None => Throw TypeError
                     end ;;
                   challenge <- fiatShamir polynomialCommitment publicInput ;;
                   evaluationProofs <- mapM (getProof evalTree) queryIndices ;;
                   response <- mapM (elem evaluations) queryIndices ;;
                   Ok (mkZKProof polynomialCommitment evaluationProofs
                                 challenge response), e')
              end
          end
      end
  end.

Definition generateProof (this : X402StealthPayment) (paymentIndex : Z)
           (publicInput : list FieldElement) (e : entropy)
  : result StealthProof * entropy :=
  if (paymentIndex <? 0) || (paymentIndex >=? len (stealthPayments this)) then
    (Throw (ProofError "Invalid payment index"), e)
  else
    match lookup (stealthPayments this) paymentIndex with
    | None => (Throw TypeError, e)
    | Some payment =>
        match merkleTree this with
        | None => (Throw (ProofError "Merkle tree not initialized"), e)
        | Some t =>
            match getProof t paymentIndex with
            | Throw err => (Throw err, e)
            | Ok merkleProof =>
                match generateZKProof payment publicInput e with
                | (Throw err, e') => (Throw err, e')
                | (Ok zkProof, e') =>
                    (Ok (mkStealthProof (commitment payment) merkleProof
                                        zkProof publicInput), e')
                end
            end
        end
    end.

Definition verifyZKProof (zkProof : ZKProof) (publicInput : list FieldElement)
  : result bool :=
  if negb (forallb verify (evaluationProofs zkProof)) then Ok false
  else
    expectedChallenge <-
      fiatShamir (polynomialCommitment zkProof) publicInput ;;
    if negb (equals (challenge zkProof) expectedChallenge) then Ok false
    else Ok true.

(** [root.every((byte, i) => byte === expectedRoot[i])] *)
Fixpoint every_eq (root expectedRoot : bytes) : bool :=
  match root with
  | [] => true
  | byte :: root' =>
      match expectedRoot with
      | [] => false
      | b :: expectedRoot' => Byte.eqb byte b && every_eq root' expectedRoot'
      end
  end.

Definition verifyProof (proof : StealthProof) (expectedRoot : bytes)
  : result bool :=
  if negb (verify (merkleProof proof)) then Ok false
  else
    let rootMatches :=
      (len (root (merkleProof proof)) =? len expectedRoot)
      && every_eq (root (merkleProof proof)) expectedRoot in
    if negb rootMatches then Ok false
    else verifyZKProof (zkProof proof) (publicInput proof).

End WithHash.
End X402.

(* ===================================================================== *)
(** * SHA-256, the hash function the ledger is run with *)
(* ===================================================================== *)

(** The function of FIPS 180-4 that [sha256] of [@noble/hashes] computes.
    The properties below hold for every [HashFunction]; this instance is
    the one their concrete runs use. *)
Module SHA256.

Definition add32 (x y : Z) : Z := Z.land (x + y) 0xffffffff.

Definition rotr (n x : Z) : Z :=
  Z.lor (Z.shiftr x n) (Z.land (Z.shiftl x (32 - n)) 0xffffffff).

Definition Ch (x y z : Z) : Z :=
  Z.lxor (Z.land x y) (Z.land (Z.lxor x 0xffffffff) z).

Definition Maj (x y z : Z) : Z :=
  Z.lxor (Z.lxor (Z.land x y) (Z.land x z)) (Z.land y z).

Definition Sigma0 (x : Z) : Z :=
  Z.lxor (Z.lxor (rotr 2 x) (rotr 13 x)) (rotr 22 x).

Definition Sigma1 (x : Z) : Z :=
  Z.lxor (Z.lxor (rotr 6 x) (rotr 11 x)) (rotr 25 x).

Definition sigma0 (x : Z) : Z :=
  Z.lxor (Z.lxor (rotr 7 x) (rotr 18 x)) (Z.shiftr x 3).

Definition sigma1 (x : Z) : Z :=
  Z.lxor (Z.lxor (rotr 17 x) (rotr 19 x)) (Z.shiftr x 10).

(** The first primes, from which the standard derives its constants. *)
Definition is_prime (p : Z) : bool :=
  forallb (fun d => negb (p mod Z.of_nat d =? 0)) (seq 2 (Z.to_nat p - 2)).

Definition primes : list Z := filter is_prime (map Z.of_nat (seq 2 310)).

(** The integer cube root below [2 ^ k], one bit at a time. *)
Fixpoint cube_root (k : nat) (n r : Z) : Z :=
  match k with
  | O => r
  | S k' =>
      let r' := r + 2 ^ Z.of_nat k' in
      cube_root k' n (if r' * r' * r' <=? n then r' else r)
  end.

(** The round constants: the first 32 bits of the fractional parts of the
    cube roots of the first 64 primes. *)
Definition K : list Z :=
  Eval vm_compute in
    map (fun p => cube_root 36 (p * 2 ^ 96) 0 mod 2 ^ 32) (firstn 64 primes).

Definition state : Type := (Z * Z * Z * Z * Z * Z * Z * Z)%type.

(** The initial hash value: the first 32 bits of the fractional parts of
    the square roots of the first 8 primes. *)
Definition initial : state :=
  Eval vm_compute in
    match map (fun p => Z.sqrt (p * 2 ^ 64) mod 2 ^ 32) (firstn 8 primes) with
    | [a; b; c; d; e; f; g; h] => (a, b, c, d, e, f, g, h)
    | _ => (0, 0, 0, 0, 0, 0, 0, 0)
    end.

(** The message padded to a multiple of 64 bytes. *)
Definition pad (msg : bytes) : bytes :=
  let n := len msg in
  msg ++ [x80] ++ repeat x00 (Z.to_nat ((55 - n) mod 64))
      ++ Z_to_be 8 (8 * n) [].

(** Consecutive groups of [k] bytes (the list is cut [fuel] times at most). *)
Fixpoint chunks (fuel k : nat) (bs : bytes) : list bytes :=
  match fuel, bs with
  | O, _ | _, [] => []
  | S fuel', _ => firstn k bs :: chunks fuel' k (skipn k bs)
  end.

(** The message schedule, newest word first. *)
Fixpoint extend (n : nat) (w : list Z) : list Z :=
  match n with
  | O => w
  | S n' =>
      let w' := add32 (add32 (sigma1 (nth 1 w 0)) (nth 6 w 0))
                      (add32 (sigma0 (nth 14 w 0)) (nth 15 w 0)) in
      extend n' (w' :: w)
  end.

Definition schedule (block : bytes) : list Z :=
  rev (extend 48 (rev (map be_to_Z (chunks 16 4 block)))).

Definition round (s : state) (kw : Z * Z) : state :=
  let '(a, b, c, d, e, f, g, h) := s in
  let t1 := add32 (add32 (add32 h (Sigma1 e)) (add32 (Ch e f g) (fst kw)))
                  (snd kw) in
  let t2 := add32 (Sigma0 a) (Maj a b c) in
  (add32 t1 t2, a, b, c, add32 d t1, e, f, g).

Definition compress (s : state) (block : bytes) : state :=
  let '(a, b, c, d, e, f, g, h) := s in
  let '(a', b', c', d', e', f', g', h') :=
    fold_left round (combine K (schedule block)) s in
  (add32 a a', add32 b b', add32 c c', add32 d d',
   add32 e e', add32 f f', add32 g g', add32 h h').

Definition digest (msg : bytes) : bytes :=
  let padded := pad msg in
  let '(a, b, c, d, e, f, g, h) :=
    fold_left compress (chunks (length padded) 64 padded) initial in
  concat (map (fun w => Z_to_be 4 w []) [a; b; c; d; e; f; g; h]).

Definition instance : HashFunction := digest.

End SHA256.


(* ===================================================================== *)
(** * Vocabulary of the statements *)
(* ===================================================================== *)

Section LedgerVocabulary.
Context {H : HashFunction}.
Import Field Merkle X402.

(** The record [createPayment] builds from arguments that pass validation. *)
Definition paymentOf (stealthAddress : bytes) (amount timestamp : Z)
  : StealthPayment :=
  let amountField := mkFE (amount mod SHADOW_PRIME) SHADOW_PRIME in
  mkPayment
    (sha256 (stealthAddress ++ toBytes amountField ++ timestampBytes timestamp))
    stealthAddress amountField timestamp.

(** The tree the ledger stores is the one over the stored commitments; a
    fresh ledger has no payment and no tree. *)
Definition in_sync (this : X402StealthPayment) : Prop :=
  merkleTree this
  = Some (new_MerkleTree (map commitment (stealthPayments this)))
  \/ (stealthPayments this = [] /\ merkleTree this = None).

End LedgerVocabulary.

(** A run of the ledger under SHA-256: one payment of 5 at time 7 to the
    address of 32 bytes [0x07], proved with the public inputs [9, 11] from a
    fixed byte stream. *)
Module Run.
Import Field X402.

Definition hash : HashFunction := SHA256.instance.

Definition address : bytes := repeat x07 32.

Definition stream : entropy := fun i => byte_of_Z (Z.of_nat i * 13 + 5).

Definition inputs : list FieldElement :=
  [mkFE 9 SHADOW_PRIME; mkFE 11 SHADOW_PRIME].

Definition ledger : X402StealthPayment :=
  fst (@createPayment hash new_X402StealthPayment 0 address 5 (Some 7)).

Definition payment : StealthPayment := paymentOf (H := hash) address 5 7.

Definition generated : result StealthProof :=
  fst (@generateProof hash ledger 0 inputs stream).

(** A clock that starts at 100 and advances by one at each reading. *)
Definition ticking : clock := fun i => 100 + Z.of_nat i.

(** Two requests without a timestamp. *)
Definition untimed : list PaymentRequest :=
  [mkRequest address 5 None; mkRequest address 6 None].

(** [proof.commitment = new Uint8Array(32)], 32 zero bytes in place of the
    commitment, as the test [should reject invalid proof] has it. *)
Definition blanked (proof : StealthProof) : StealthProof :=
  mkStealthProof
    (repeat x00 32)
    (merkleProof proof)
    (mkZKProof (polynomialCommitment (zkProof proof))
               (evaluationProofs (zkProof proof))
               (challenge (zkProof proof))
               (response (zkProof proof)))
    (publicInput proof).

(** [bundle.commitment[0] ^= 1] and [bundle.zkProof.response[0] = value + 1]. *)
Definition tampered (proof : StealthProof) : StealthProof :=
  mkStealthProof
    (match proofCommitment proof with
     | [] => []
     | b :: rest => byte_of_Z (Z.lxor (Z_of_byte b) 1) :: rest
     end)
    (merkleProof proof)
    (mkZKProof (polynomialCommitment (zkProof proof))
               (evaluationProofs (zkProof proof))
               (challenge (zkProof proof))
               (match response (zkProof proof) with
                | [] => []
                | r :: rest => mkFE ((value r + 1) mod SHADOW_PRIME) SHADOW_PRIME :: rest
                end))
    (publicInput proof).

End Run.

Section RandomVocabulary.
Import Field.

(** The stream that starts with 32 bytes [0xff] and goes on with zeros. *)
Definition ones_then_zeros : entropy :=
  fun i => if (i <? 32)%nat then xff else x00.

End RandomVocabulary.

Section MerkleVocabulary.

(** The node [getProof] picks beside node [n]: its right neighbour when [n]
    is even (itself when there is none), its left neighbour when odd. *)
Definition siblingOf (level : list bytes) (n : nat) : nat :=
  if Nat.even n then (if (S n <? length level)%nat then S n else n)
  else (n - 1)%nat.

End MerkleVocabulary.

(** The value of the polynomial with integer coefficients [cs] at [x]. *)
Definition hornerZ (cs : list Z) (x : Z) : Z :=
  fold_right (fun c acc => c + x * acc) 0 cs.

(** [f 0 + f 1 x + ... + f (n-1) x^(n-1)] *)
Definition series (f : nat -> Z) (n : nat) (x : Z) : Z :=
  hornerZ (map f (seq 0 n)) x.

(** [f 0 + f 1 + ... + f (n-1)], accumulated from [0] upwards as the
    loops of the code do. *)
Definition bigsum (f : nat -> Z) (n : nat) : Z :=
  fold_left (fun acc j => acc + f j) (seq 0 n) 0.

(** Coefficient [i] of the product of the polynomials [pv] and [qv]. *)
Definition convZ (pv qv : list Z) (i : nat) : Z :=
  bigsum (fun j => nth j pv 0 * nth (i - j) qv 0) (S i).

Section FieldVocabulary.
Import Field Poly.

(** An element of the field of modulus [m]: its value is in range. *)
Definition wf (m : Z) (a : FieldElement) : Prop :=
  modulus a = m /\ 0 <= value a < m.

(** The element of the field of modulus [m] that an integer stands for. *)
Definition F (m v : Z) : FieldElement := mkFE (v mod m) m.

(** A polynomial over the field of modulus [m]. *)
Definition wfP (m : Z) (p : Polynomial) : Prop :=
  Forall (wf m) (coefficients p).

Definition values (p : Polynomial) : list Z := map value (coefficients p).

(** The integer value of the polynomial at [x]; the code computes it
    modulo [m]. *)
Definition pval (p : Polynomial) (x : Z) : Z := hornerZ (values p) x.

(** Two abscissas whose difference is invertible modulo [m]. *)
Definition apart (m : Z) (xi xj : FieldElement) : Prop :=
  Z.gcd ((value xi - value xj) mod m) m = 1.

End FieldVocabulary.

(** The odd factor of [SHADOW_PRIME - 1 = proth_k * 2^192]. *)
Definition proth_k : Z := 2 ^ 59 + 17.

(** The exception of [inverse]. *)
Definition not_invertible : error := Error "Field element is not invertible".

(** What [interpolate] can produce over well-formed points of the field
    of modulus [m]: a polynomial over that field, or the exception of
    [inverse]. *)
Definition built_or_not_invertible (m : Z) (r : result Poly.Polynomial)
  : Prop :=
  (exists p, r = Ok p /\ wfP m p) \/ r = Throw not_invertible.

Section TamperVocabulary.
Context {H : HashFunction}.
Import Merkle.

(** The byte strings [verify] hashes on its way from the leaf up. *)
Fixpoint hashed (currentHash : bytes) (currentIndex : Z)
         (siblings : list bytes) : list bytes :=
  match siblings with
  | [] => []
  | sibling :: rest =>
      let combined :=
        if Z.rem currentIndex 2 =? 0 then currentHash ++ sibling
        else sibling ++ currentHash in
      combined :: hashed (sha256 combined) (currentIndex / 2) rest
  end.

(** A collision of [sha256] between an input hashed while verifying [p]
    and one hashed while verifying [p']. *)
Definition collision (p p' : MerkleProof) : Prop :=
  exists a b : bytes,
    In a (hashed (leaf p) (index p) (siblings p))
    /\ In b (hashed (leaf p') (index p') (siblings p'))
    /\ a <> b /\ sha256 a = sha256 b.

End TamperVocabulary.

Section BatchVocabulary.
Context {H : HashFunction}.
Import Field Merkle X402.

(** The ledger after [createPayment] has been called on each request in
    turn: a call for a request without a timestamp reads the clock, which
    then gives its next reading to the next such call. *)
Fixpoint payEach (this : X402StealthPayment) (dateNow : clock)
         (payments : list PaymentRequest) : X402StealthPayment :=
  match payments with
  | [] => this
  | payment :: rest =>
      payEach
        (fst (createPayment this (dateNow 0%nat) (req_stealthAddress payment)
                            (req_amount payment) (req_timestamp payment)))
        (snd (timestampOf payment dateNow)) rest
  end.

(** The record a request stands for when the clock is [dateNow], or the
    exception its validation raises. *)
Definition recordOf (dateNow : clock) (payment : PaymentRequest)
  : result StealthPayment :=
  makePayment (req_stealthAddress payment) (req_amount payment)
              (fst (timestampOf payment dateNow)).

(** The records the requests stand for in turn, each request without a
    timestamp taking the next reading of the clock. *)
Fixpoint recordsOf (dateNow : clock) (payments : list PaymentRequest)
  : result (list StealthPayment) :=
  match payments with
  | [] => Ok []
  | payment :: rest =>
      record <- recordOf dateNow payment ;;
      records <- recordsOf (snd (timestampOf payment dateNow)) rest ;;
      Ok (record :: records)
  end.

(** The clock after the requests have taken their readings. *)
Definition clockAfter (dateNow : clock) (payments : list PaymentRequest)
  : clock :=
  fold_left (fun c payment => snd (timestampOf payment c)) payments dateNow.

End BatchVocabulary.

(* ===================================================================== *)
(** * Properties *)
(* ===================================================================== *)

(** ** The SHA-256 instance *)

(** The test vector of FIPS 180-4 for the message [abc]. *)
Example sha256_abc :
  map Z_of_byte (SHA256.digest [x61; x62; x63]) =
  [0xba; 0x78; 0x16; 0xbf; 0x8f; 0x01; 0xcf; 0xea;
   0x41; 0x41; 0x40; 0xde; 0x5d; 0xae; 0x22; 0x23;
   0xb0; 0x03; 0x61; 0xa3; 0x96; 0x17; 0x7a; 0x9c;
   0xb4; 0x10; 0xff; 0x61; 0xf2; 0x00; 0x15; 0xad].
Proof. vm_compute. reflexivity. Qed.

(** ** Bytes and indices *)

Lemma bytes_eqb_eq (a b : bytes) : bytes_eqb a b = true <-> a = b.
Proof.
  revert b. induction a as [|x a IH]; intros [|y b]; simpl;
    try (split; [discriminate | congruence]); [tauto|].
  rewrite andb_true_iff, IH. split.
  - intros [E ->]. apply Byte.byte_dec_bl in E. subst. reflexivity.
  - intros E. inversion E. split; [apply Byte.byte_dec_lb|]; reflexivity.
Qed.

Lemma bytes_eqb_refl (a : bytes) : bytes_eqb a a = true.
Proof. apply bytes_eqb_eq. reflexivity. Qed.

Lemma lookup_in_range {A} (xs : list A) (i : Z) :
  0 <= i < len xs -> exists x, lookup xs i = Some x.
Proof.
  unfold lookup, len. intros Hi.
  destruct (Z.ltb_spec i 0); [lia|].
  destruct (nth_error xs (Z.to_nat i)) eqn:E; [eauto|].
  apply nth_error_None in E. lia.
Qed.

Lemma lookup_nat {A} (xs : list A) (n : nat) :
  lookup xs (Z.of_nat n) = nth_error xs n.
Proof.
  unfold lookup. destruct (Z.ltb_spec (Z.of_nat n) 0); [lia|].
  rewrite Nat2Z.id. reflexivity.
Qed.

Lemma len_app {A} (xs ys : list A) : len (xs ++ ys) = len xs + len ys.
Proof. unfold len. rewrite length_app. lia. Qed.

Lemma len_nonneg {A} (xs : list A) : 0 <= len xs.
Proof. unfold len. lia. Qed.

(** ** MerkleProof.verify on an empty path *)

Section MerkleFacts.
Context {H : HashFunction}.
Import Merkle.

(** C10: a proof without siblings verifies exactly when its leaf is its
    root, whatever its index; so [new MerkleProof(r, [], 0, r)] verifies
    for every byte string [r]. *)
Theorem verify_empty_path :
  (forall leaf index root,
      verify (mkProof leaf [] index root) = true <-> leaf = root)
  /\ (forall r, verify (mkProof r [] 0 r) = true).
Proof.
  split.
  - intros leaf index root. unfold verify. simpl. apply bytes_eqb_eq.
  - intros r. unfold verify. simpl. apply bytes_eqb_refl.
Qed.

Lemma buildTree_short (level : list bytes) :
  (length level <= 1)%nat -> buildTree level = [].
Proof.
  intros Hl. rewrite buildTree_equation_1.
  destruct (le_lt_dec (length level) 1); [reflexivity | lia].
Qed.

Lemma buildTree_long (level : list bytes) :
  (1 < length level)%nat ->
  buildTree level = nextLevel level :: buildTree (nextLevel level).
Proof.
  intros Hl. rewrite buildTree_equation_1.
  destruct (le_lt_dec (length level) 1); [lia | reflexivity].
Qed.

Lemma getRoot_empty : getRoot (new_MerkleTree []) = None.
Proof.
  unfold getRoot, new_MerkleTree.
  rewrite buildTree_short by (simpl; lia). reflexivity.
Qed.

Lemma getRoot_single (x : bytes) : getRoot (new_MerkleTree [x]) = Some x.
Proof.
  unfold getRoot, new_MerkleTree.
  rewrite buildTree_short by (simpl; lia). reflexivity.
Qed.

End MerkleFacts.

(** C3, on the code: an empty tree has no root, and the root of a tree
    with the single leaf [x] is [x] itself, which for the leaf [1, 2, 3]
    of the repository's test is not its SHA-256 hash. *)
Theorem single_leaf_root_is_leaf :
  (forall H : HashFunction, Merkle.getRoot (Merkle.new_MerkleTree []) = None)
  /\ (forall (H : HashFunction) x,
         Merkle.getRoot (Merkle.new_MerkleTree [x]) = Some x)
  /\ @Merkle.getRoot (@Merkle.new_MerkleTree SHA256.instance [[x01; x02; x03]])
     <> Some (SHA256.digest [x01; x02; x03]).
Proof.
  split; [|split].
  - intros H. apply getRoot_empty.
  - intros H x. apply getRoot_single.
  - rewrite getRoot_single. vm_compute. discriminate.
Qed.

(** ** Field elements: the operations on a positive modulus *)

Section FieldFacts.
Import Field.

Lemma js_rem_ok (a m : Z) : m <> 0 -> js_rem a m = Ok (Z.rem a m).
Proof.
  intros Hm. unfold js_rem. destruct (Z.eqb_spec m 0); [contradiction|].
  reflexivity.
Qed.

Lemma rem_mod (a m : Z) : 0 < m -> Z.rem (Z.rem a m + m) m = a mod m.
Proof.
  intros Hm.
  assert (Hb : - m < Z.rem a m < m).
  { pose proof (Z.rem_bound_abs a m ltac:(lia)). lia. }
  rewrite Z.rem_mod_nonneg by lia.
  pose proof (Z.quot_rem' a m) as E.
  replace (Z.rem a m + m) with (a + (1 - Z.quot a m) * m) by lia.
  apply Z.mod_add. lia.
Qed.

Lemma mod_pos (a m : Z) : 0 < m -> mod_ a m = Ok (a mod m).
Proof.
  intros Hm. unfold mod_. rewrite js_rem_ok by lia. simpl.
  rewrite js_rem_ok by lia. f_equal. apply rem_mod. exact Hm.
Qed.

Lemma new_FieldElement_pos (v m : Z) :
  0 < m -> new_FieldElement v m = Ok (mkFE (v mod m) m).
Proof.
  intros Hm. unfold new_FieldElement.
  destruct ((v <? 0) || (v >=? m)) eqn:E.
  - rewrite mod_pos by exact Hm. reflexivity.
  - apply orb_false_iff in E as [E1 E2].
    rewrite Z.mod_small by lia. reflexivity.
Qed.

Lemma zero_ok (m : Z) : m <> 0 -> Field.zero m = Ok (mkFE 0 m).
Proof.
  intros Hm. destruct (Z.lt_ge_cases 0 m) as [Hp|Hn].
  - unfold Field.zero. rewrite new_FieldElement_pos by exact Hp. reflexivity.
  - unfold Field.zero, new_FieldElement.
    replace ((0 <? 0) || (0 >=? m)) with true
      by (symmetry; apply orb_true_iff; right; lia).
    unfold mod_. rewrite js_rem_ok by exact Hm. unfold bind.
    rewrite Z.rem_0_l by exact Hm. rewrite Z.add_0_l.
    rewrite js_rem_ok by exact Hm. rewrite Z.rem_same by exact Hm.
    reflexivity.
Qed.

End FieldFacts.

(** ** The representation of polynomials *)

Section PolynomialFacts.
Import Field Poly.

Lemma pop_zeros_head (reversed : list FieldElement) :
  match pop_zeros reversed with
  | [] => True
  | c :: _ => isZero c = false
  end.
Proof.
  induction reversed as [|c rest IH]; simpl; [exact I|].
  destruct (isZero c) eqn:E; [exact IH | exact E].
Qed.

Lemma pop_zeros_all_zero (reversed : list FieldElement) :
  forallb isZero reversed = true -> pop_zeros reversed = [].
Proof.
  induction reversed as [|c rest IH]; simpl; [reflexivity|].
  intros E. apply andb_true_iff in E as [-> E]. auto.
Qed.

Lemma new_Polynomial_last (cs : list FieldElement) (c : FieldElement)
      (front : list FieldElement) :
  coefficients (new_Polynomial cs) = front ++ [c] -> isZero c = false.
Proof.
  unfold new_Polynomial. simpl. intros E.
  pose proof (pop_zeros_head (rev cs)) as Hh.
  apply (f_equal (@rev _)) in E. rewrite rev_involutive, rev_app_distr in E.
  simpl in E. rewrite E in Hh. exact Hh.
Qed.

(** C5, as the code has it: the constructor removes every trailing zero
    coefficient, the last one included, so a polynomial never ends in a
    zero coefficient, the zero polynomial is the empty coefficient list,
    and [degree()], which is the length minus one, is [-1] for it. *)
Theorem polynomial_has_no_trailing_zero :
  (forall cs front c,
      coefficients (new_Polynomial cs) = front ++ [c] -> isZero c = false)
  /\ (forall cs, forallb isZero cs = true ->
                 coefficients (new_Polynomial cs) = [])
  /\ (forall p, degree p = len (coefficients p) - 1)
  /\ (forall m, m <> 0 ->
        exists p, Poly.zero m = Ok p /\ coefficients p = [] /\ degree p = -1).
Proof.
  split; [|split; [|split]].
  - intros cs front c. apply new_Polynomial_last.
  - intros cs Hz. unfold new_Polynomial. simpl.
    rewrite pop_zeros_all_zero; [reflexivity|].
    rewrite forallb_forall in *. intros x Hx. apply Hz.
    apply in_rev. exact Hx.
  - reflexivity.
  - intros m Hm. unfold Poly.zero. rewrite zero_ok by exact Hm.
    eexists. split; [reflexivity|]. split; reflexivity.
Qed.

Lemma polynomial_has_no_trailing_zero_witness :
  coefficients (new_Polynomial [mkFE 5 7; mkFE 0 7]) = [] ++ [mkFE 5 7]
  /\ isZero (mkFE 5 7) = false
  /\ exists p, Poly.zero SHADOW_PRIME = Ok p /\ coefficients p = []
               /\ degree p = -1.
Proof.
  split; [reflexivity|]. split.
  - apply (proj1 polynomial_has_no_trailing_zero
                 [mkFE 5 7; mkFE 0 7] [] (mkFE 5 7)).
    reflexivity.
  - apply (proj2 (proj2 (proj2 polynomial_has_no_trailing_zero))).
    discriminate.
Defined.

(** C5 as the specification words it fails: the zero polynomial of the
    reference field is not the one-coefficient list [[0]] and its degree is
    not [0]. *)
Lemma zero_polynomial_is_empty :
  exists p, Poly.zero SHADOW_PRIME = Ok p
            /\ coefficients p <> [mkFE 0 SHADOW_PRIME]
            /\ degree p <> 0.
Proof.
  exists (mkPoly []). split; [reflexivity|]. split; [discriminate|].
  vm_compute. discriminate.
Qed.

End PolynomialFacts.

(** ** The ledger: validation and the stored tree *)

Lemma SHADOW_PRIME_pos : 0 < Field.SHADOW_PRIME.
Proof. reflexivity. Qed.

Section LedgerFacts.
Context {H : HashFunction}.
Import Field Merkle Validation X402.

Lemma makePayment_valid (stealthAddress : bytes) (amount timestamp : Z) :
  len stealthAddress = 32 -> 1 <= amount -> 0 <= timestamp ->
  makePayment stealthAddress amount timestamp
  = Ok (paymentOf stealthAddress amount timestamp).
Proof.
  intros Ha Hm Ht. unfold makePayment, validateStealthAddress, validateBytes,
    validateBigInt.
  rewrite Ha. cbn [Z.ltb Z.eqb Z.compare Pos.compare Pos.compare_cont negb bind].
  destruct (Z.ltb_spec amount 1); [lia|].
  destruct (Z.ltb_spec timestamp 0); [lia|]. cbn [bind].
  rewrite new_FieldElement_pos by exact SHADOW_PRIME_pos. reflexivity.
Qed.

Lemma makePayment_invalid (stealthAddress : bytes) (amount timestamp : Z) :
  len stealthAddress <> 32 \/ amount < 1 \/ timestamp < 0 ->
  exists message field,
    makePayment stealthAddress amount timestamp
    = Throw (ValidationError message field).
Proof.
  intros Hbad. unfold makePayment, validateStealthAddress, validateBytes,
    validateBigInt.
  destruct (Z.ltb_spec (len stealthAddress) 32); cbn [bind negb]; [eauto|].
  destruct (Z.eqb_spec (len stealthAddress) 32); cbn [bind negb]; [|eauto].
  destruct (Z.ltb_spec amount 1); cbn [bind negb]; [eauto|].
  destruct (Z.ltb_spec timestamp 0); cbn [bind negb]; [eauto|].
  lia.
Qed.

(** A valid request is recorded and the tree rebuilt. *)
Lemma createPayment_valid
      (this : X402StealthPayment) (now : Z) (stealthAddress : bytes)
      (amount : Z) (timestamp : option Z) :
  let t := match timestamp with Some t => t | None => now end in
  len stealthAddress = 32 -> 1 <= amount -> 0 <= t ->
  let payment := paymentOf stealthAddress amount t in
  let payments := stealthPayments this ++ [payment] in
  createPayment this now stealthAddress amount timestamp
  = (mkLedger payments (Some (new_MerkleTree (map commitment payments))),
     Ok payment).
Proof.
  intros t Ha Hm Ht. unfold createPayment. fold t.
  rewrite makePayment_valid by assumption. reflexivity.
Qed.

(** C7: [createPayment] fails with a [ValidationError], leaving the ledger
    as it was, when the address is not 32 bytes long, the amount is below 1
    or the timestamp is negative; otherwise it appends the record, rebuilds
    the tree over all commitments and returns the record. *)
Theorem createPayment_validates
        (this : X402StealthPayment) (now : Z) (stealthAddress : bytes)
        (amount : Z) (timestamp : option Z) :
  let t := match timestamp with Some t => t | None => now end in
  (len stealthAddress <> 32 \/ amount < 1 \/ t < 0 ->
   exists message field,
     createPayment this now stealthAddress amount timestamp
     = (this, Throw (ValidationError message field)))
  /\ (len stealthAddress = 32 -> 1 <= amount -> 0 <= t ->
      let payment := paymentOf stealthAddress amount t in
      let payments := stealthPayments this ++ [payment] in
      createPayment this now stealthAddress amount timestamp
      = (mkLedger payments (Some (new_MerkleTree (map commitment payments))),
         Ok payment)).
Proof.
  intros t. split.
  - intros Hbad. unfold createPayment. fold t.
    destruct (makePayment_invalid _ _ _ Hbad) as (message & field & ->).
    eauto.
  - apply createPayment_valid.
Qed.

(** Every [createPayment], failed or not, keeps the tree in step with the
    payments. *)
Lemma createPayment_in_sync
      (this : X402StealthPayment) (now : Z) (stealthAddress : bytes)
      (amount : Z) (timestamp : option Z) :
  in_sync this ->
  in_sync (fst (createPayment this now stealthAddress amount timestamp)).
Proof.
  intros Hs. unfold createPayment.
  destruct (makePayment _ _ _); simpl; [|exact Hs].
  left. reflexivity.
Qed.

Lemma batchLoop_payments (payments : list PaymentRequest) :
  forall this now created,
    merkleTree (fst (batchLoop this now payments created)) = merkleTree this
    /\ exists added,
        stealthPayments (fst (batchLoop this now payments created))
        = stealthPayments this ++ added
        /\ (length added <= length payments)%nat
        /\ (forall created',
               snd (batchLoop this now payments created) = Ok created' ->
               length added = length payments).
Proof.
  induction payments as [|p rest IH]; intros this now created; simpl.
  - split; [reflexivity|]. exists []. rewrite app_nil_r.
    split; [reflexivity|]. split; [apply le_n|]. reflexivity.
  - destruct (makePayment _ _ _) as [sp|e]; simpl.
    + destruct (IH (mkLedger (stealthPayments this ++ [sp]) (merkleTree this))
                   (snd (timestampOf p now)) (created ++ [sp]))
        as (Ht & added & Ha & Hl & Hok).
      split; [exact Ht|]. exists (sp :: added). simpl in Ha.
      rewrite Ha, <- app_assoc. simpl.
      split; [reflexivity|]. split; [lia|].
      intros created' E. rewrite (Hok created' E). reflexivity.
    + split; [reflexivity|]. exists []. rewrite app_nil_r.
      split; [reflexivity|]. split; [simpl; lia|]. discriminate.
Qed.

(** A batch that succeeds rebuilds the tree over all the payments. *)
Lemma createBatchPayments_in_sync
      (this : X402StealthPayment) (now : clock) (payments : list PaymentRequest)
      (created : list StealthPayment) :
  in_sync this ->
  snd (createBatchPayments this now payments) = Ok created ->
  in_sync (fst (createBatchPayments this now payments)).
Proof.
  intros Hs. unfold createBatchPayments.
  destruct (len payments =? 0); [discriminate|].
  destruct (batchLoop this now payments []) as [this' [c|e]]; simpl;
    [|discriminate].
  intros _. left. reflexivity.
Qed.

End LedgerFacts.

Lemma createPayment_validates_witness :
  let H : HashFunction := SHA256.instance in
  (exists message field,
      X402.createPayment X402.new_X402StealthPayment 0 (repeat x00 31) 5
                         (Some 7)
      = (X402.new_X402StealthPayment, Throw (ValidationError message field)))
  /\ X402.createPayment X402.new_X402StealthPayment 0 (repeat x00 32) 5
                        (Some 7)
     = (X402.mkLedger [paymentOf (repeat x00 32) 5 7]
          (Some (Merkle.new_MerkleTree
                   [X402.commitment (paymentOf (repeat x00 32) 5 7)])),
        Ok (paymentOf (repeat x00 32) 5 7)).
Proof.
  intros H. split.
  - apply (proj1 (createPayment_validates X402.new_X402StealthPayment 0
                    (repeat x00 31) 5 (Some 7))).
    left. vm_compute. discriminate.
  - apply (proj2 (createPayment_validates X402.new_X402StealthPayment 0
                    (repeat x00 32) 5 (Some 7))).
    + reflexivity.
    + lia.
    + lia.
Defined.

(** C4, on the code: a batch whose second request is invalid raises the
    [ValidationError] after the first record has been pushed and before the
    tree is rebuilt; the ledger is left with one payment and no tree, so
    [getRoot] is not the root of the tree over the stored commitments, and
    [generateProof] for the stored payment fails for want of a tree. *)
Theorem failed_batch_leaves_stale_tree
        (H : HashFunction) (dateNow : X402.clock) :
  let good := X402.mkRequest (repeat x00 32) 1 (Some 0) in
  let bad := X402.mkRequest (repeat x00 31) 1 (Some 0) in
  let after :=
    X402.createBatchPayments X402.new_X402StealthPayment dateNow [good; bad] in
  (exists message field, snd after = Throw (ValidationError message field))
  /\ X402.stealthPayments (fst after) = [paymentOf (repeat x00 32) 1 0]
  /\ X402.getPaymentCount (fst after) = 1
  /\ X402.merkleTree (fst after) = None
  /\ X402.getRoot (fst after) = None
  /\ Merkle.getRoot
       (Merkle.new_MerkleTree
          (map X402.commitment (X402.stealthPayments (fst after))))
     = Some (X402.commitment (paymentOf (repeat x00 32) 1 0))
  /\ ~ in_sync (fst after)
  /\ (forall e,
        fst (X402.generateProof (fst after) 0 [] e)
        = Throw (ProofError "Merkle tree not initialized")).
Proof.
  intros good bad after.
  assert (E : after
              = (X402.mkLedger [paymentOf (repeat x00 32) 1 0] None,
                 Throw (ValidationError "must be at least minLength bytes"
                                        (Some "stealthAddress"%string)))).
  { assert (Eg : X402.makePayment (repeat x00 32) 1 0
                 = Ok (paymentOf (repeat x00 32) 1 0))
      by (apply makePayment_valid; [reflexivity | lia | lia]).
    assert (Eb : X402.makePayment (repeat x00 31) 1 0
                 = Throw (ValidationError "must be at least minLength bytes"
                                          (Some "stealthAddress"%string)))
      by reflexivity.
    unfold after, X402.createBatchPayments, good, bad.
    change (len [X402.mkRequest (repeat x00 32) 1 (Some 0);
                 X402.mkRequest (repeat x00 31) 1 (Some 0)] =? 0) with false.
    cbn [X402.batchLoop X402.timestampOf X402.req_stealthAddress
         X402.req_amount X402.req_timestamp fst snd].
    rewrite Eg.
    cbn [X402.batchLoop X402.timestampOf X402.req_stealthAddress
         X402.req_amount X402.req_timestamp fst snd].
    rewrite Eb. reflexivity. }
  rewrite E. cbn [fst snd X402.stealthPayments X402.merkleTree map].
  split; [eauto|]. split; [reflexivity|]. split; [reflexivity|].
  split; [reflexivity|]. split; [reflexivity|]. split; [|split].
  - apply getRoot_single.
  - unfold in_sync. cbn [X402.stealthPayments X402.merkleTree].
    intros [E'|[E' _]]; discriminate.
  - intros e. reflexivity.
Qed.

(** ** Field elements as 32 bytes *)

Section ByteFacts.
Import Field.

Lemma Z_of_byte_range (b : byte) : 0 <= Z_of_byte b < 256.
Proof.
  unfold Z_of_byte. pose proof (Byte.to_N_bounded b). lia.
Qed.

Lemma Z_of_byte_of_Z (z : Z) : Z_of_byte (byte_of_Z z) = z mod 256.
Proof.
  pose proof (Z.mod_pos_bound z 256 ltac:(lia)) as Hb.
  unfold byte_of_Z, Z_of_byte.
  destruct (Byte.of_N (Z.to_N (z mod 256))) as [b|] eqn:E.
  - apply Byte.to_of_N in E. rewrite E. apply Z2N.id. lia.
  - apply Byte.of_N_None_iff in E. lia.
Qed.

Lemma Z_to_be_app (n : nat) : forall val acc,
  Z_to_be n val acc = Z_to_be n val [] ++ acc.
Proof.
  induction n as [|n IH]; intros val acc; simpl; [reflexivity|].
  rewrite IH. rewrite (IH _ [_]). rewrite <- app_assoc. reflexivity.
Qed.

Lemma Z_to_be_length (n : nat) : forall val acc,
  length (Z_to_be n val acc) = (n + length acc)%nat.
Proof.
  induction n as [|n IH]; intros val acc; simpl; [reflexivity|].
  rewrite IH. simpl. lia.
Qed.

(** Reading back what [Z_to_be] wrote: the low [8 n] bits of [val]. *)
Lemma be_fold_Z_to_be (n : nat) : forall val acc x,
  fold_left (fun value b => Z.shiftl value 8 + Z_of_byte b)
            (Z_to_be n val acc) x
  = fold_left (fun value b => Z.shiftl value 8 + Z_of_byte b) acc
              (x * 2 ^ (8 * Z.of_nat n) + val mod 2 ^ (8 * Z.of_nat n)).
Proof.
  induction n as [|n IH]; intros val acc x.
  - simpl. rewrite Z.mod_1_r. f_equal. lia.
  - cbn [Z_to_be]. rewrite IH. cbn [fold_left]. f_equal.
    rewrite Z_of_byte_of_Z, Z.shiftl_mul_pow2, Z.shiftr_div_pow2 by lia.
    change (Z.land val 255) with (Z.land val (Z.ones 8)).
    rewrite Z.land_ones by lia.
    replace (8 * Z.of_nat (S n)) with (8 + 8 * Z.of_nat n) by lia.
    rewrite Z.pow_add_r by lia.
    rewrite (Z.rem_mul_r val (2 ^ 8) (2 ^ (8 * Z.of_nat n))) by lia.
    change 256 with (2 ^ 8). rewrite Z.mod_mod by lia. ring.
Qed.

Lemma be_to_Z_toBytes (a : FieldElement) :
  be_to_Z (toBytes a) = value a mod 2 ^ 256.
Proof.
  unfold be_to_Z, toBytes. rewrite be_fold_Z_to_be. reflexivity.
Qed.

Lemma Z_to_be_digit (n : nat) : forall val i,
  (i < n)%nat ->
  nth_error (Z_to_be n val []) i
  = Some (byte_of_Z (Z.shiftr val (8 * (Z.of_nat n - 1 - Z.of_nat i)))).
Proof.
  induction n as [|n IH]; intros val i Hi; [lia|].
  cbn [Z_to_be]. rewrite Z_to_be_app.
  destruct (Nat.eq_dec i n) as [->|Hne].
  - rewrite nth_error_app2 by (rewrite Z_to_be_length; simpl; lia).
    rewrite Z_to_be_length. simpl length.
    replace (n - (n + 0))%nat with 0%nat by lia. simpl nth_error.
    replace (8 * (Z.of_nat (S n) - 1 - Z.of_nat n)) with 0 by lia.
    rewrite Z.shiftr_0_r. f_equal.
    change 255 with (Z.ones 8). rewrite Z.land_ones by lia.
    unfold byte_of_Z. change (2 ^ 8) with 256.
    rewrite Z.mod_mod by lia. reflexivity.
  - rewrite nth_error_app1 by (rewrite Z_to_be_length; simpl; lia).
    rewrite IH by lia. rewrite Z.shiftr_shiftr by lia.
    do 3 f_equal. lia.
Qed.

(** C9: [fromBytes(a.toBytes())] is [a] again for every element of the
    reference field with its value in range (and, with the modulus passed
    on, for every modulus of at most 256 bits); [toBytes] returns 32 bytes
    whatever the modulus, byte [i] being bits [8 (31 - i)] and up to
    [8 (31 - i) + 7] of the value: big-endian, zero on the left of a small
    value. *)
Theorem toBytes_fromBytes_roundtrip :
  (forall a, 0 <= value a < modulus a -> modulus a = SHADOW_PRIME ->
     exists b, fromBytes (toBytes a) SHADOW_PRIME = Ok b
               /\ equals b a = true /\ b = a)
  /\ (forall a, 0 <= value a < modulus a -> modulus a <= 2 ^ 256 ->
        exists b, fromBytes (toBytes a) (modulus a) = Ok b
                  /\ equals b a = true /\ b = a)
  /\ (forall a,
        length (toBytes a) = 32%nat
        /\ (forall i, (i < 32)%nat ->
              nth_error (toBytes a) i
              = Some (byte_of_Z (Z.shiftr (value a) (8 * (31 - Z.of_nat i)))))
        /\ (forall k i, 0 <= value a < 2 ^ (8 * Z.of_nat k) ->
              (i + k < 32)%nat -> nth_error (toBytes a) i = Some x00)).
Proof.
  assert (General : forall a, 0 <= value a < modulus a ->
            modulus a <= 2 ^ 256 ->
            exists b, fromBytes (toBytes a) (modulus a) = Ok b
                      /\ equals b a = true /\ b = a).
  { intros [v m] [Hv Hm] Hle. cbn [value modulus] in *.
    unfold fromBytes. rewrite be_to_Z_toBytes. cbn [value].
    rewrite new_FieldElement_pos by lia.
    rewrite (Z.mod_small v (2 ^ 256)) by lia.
    rewrite Z.mod_small by lia.
    exists (mkFE v m). split; [reflexivity|]. split; [|reflexivity].
    unfold equals. cbn [value modulus]. rewrite !Z.eqb_refl. reflexivity. }
  split; [|split].
  - intros a Hv Hm. rewrite <- Hm. apply General; [exact Hv|].
    rewrite Hm. vm_compute. discriminate.
  - exact General.
  - intros a. split; [|split].
    + unfold toBytes. rewrite Z_to_be_length. reflexivity.
    + intros i Hi. unfold toBytes. rewrite Z_to_be_digit by exact Hi.
      do 3 f_equal; lia.
    + intros k i Hv Hi. unfold toBytes. rewrite Z_to_be_digit by lia.
      rewrite Z.shiftr_div_pow2 by lia.
      rewrite Z.div_small; [reflexivity|].
      split; [lia|]. apply Z.lt_le_trans with (2 ^ (8 * Z.of_nat k)); [lia|].
      apply Z.pow_le_mono_r; lia.
Qed.

Lemma toBytes_fromBytes_roundtrip_witness :
  (exists b, fromBytes (toBytes (mkFE 258 SHADOW_PRIME)) SHADOW_PRIME = Ok b
             /\ equals b (mkFE 258 SHADOW_PRIME) = true
             /\ b = mkFE 258 SHADOW_PRIME)
  /\ nth_error (toBytes (mkFE 258 SHADOW_PRIME)) 29 = Some x00.
Proof.
  split.
  - apply (proj1 toBytes_fromBytes_roundtrip (mkFE 258 SHADOW_PRIME)).
    + vm_compute. split; [discriminate | reflexivity].
    + reflexivity.
  - apply (proj2 (proj2 (proj2 (proj2 toBytes_fromBytes_roundtrip)
                           (mkFE 258 SHADOW_PRIME))) 2%nat 29%nat).
    + vm_compute. split; [discriminate | reflexivity].
    + lia.
Defined.

(** C9 without the reference modulus: [fromBytes(a.toBytes())] reads the
    bytes of an element modulo 97 back as an element of the default modulus,
    which [equals] tells apart from [a]; and an element of a 300-bit modulus
    whose value needs 257 bits comes back, with its own modulus passed on,
    as the low 256 bits of the value. *)
Lemma roundtrip_fails_off_reference_field :
  (fromBytes (toBytes (mkFE 5 97)) SHADOW_PRIME = Ok (mkFE 5 SHADOW_PRIME)
   /\ equals (mkFE 5 SHADOW_PRIME) (mkFE 5 97) = false)
  /\ (fromBytes (toBytes (mkFE (2 ^ 256 + 5) (2 ^ 300))) (2 ^ 300)
      = Ok (mkFE 5 (2 ^ 300))
      /\ equals (mkFE 5 (2 ^ 300)) (mkFE (2 ^ 256 + 5) (2 ^ 300)) = false).
Proof. repeat split; vm_compute; reflexivity. Qed.

End ByteFacts.

(** ** FieldElement.random *)

Section RandomFacts.
Import Field.

Lemma be_fold_bound (bs : bytes) : forall x n,
  0 <= x < 256 ^ n -> 0 <= n ->
  0 <= fold_left (fun value b => Z.shiftl value 8 + Z_of_byte b) bs x
    < 256 ^ (n + len bs).
Proof.
  induction bs as [|b bs IH]; intros x n Hx Hn; cbn [fold_left].
  - unfold len. simpl. rewrite Z.add_0_r. exact Hx.
  - replace (n + len (b :: bs)) with ((n + 1) + len bs)
      by (unfold len; simpl length; lia).
    apply IH; [|lia].
    rewrite Z.shiftl_mul_pow2 by lia. pose proof (Z_of_byte_range b).
    rewrite Z.pow_add_r by lia. change (2 ^ 8) with 256.
    change (256 ^ 1) with 256. nia.
Qed.

Lemma be_to_Z_bound (bs : bytes) : 0 <= be_to_Z bs < 256 ^ len bs.
Proof.
  unfold be_to_Z. apply (be_fold_bound bs 0 0); lia.
Qed.

(** The bytes [random] asks for are enough to write [m - 1]. *)
Lemma byteLength_enough (m : Z) :
  0 < m ->
  0 < (hex_length (m - 1) + 1) / 2
  /\ m <= 256 ^ ((hex_length (m - 1) + 1) / 2).
Proof.
  intros Hm. unfold hex_length.
  destruct (Z.ltb_spec (m - 1) 0); [lia|].
  pose proof (Z.log2_nonneg (m - 1)) as Hl.
  set (h := Z.log2 (m - 1) / 4 + 1).
  assert (Hh : Z.log2 (m - 1) < 4 * h).
  { unfold h. pose proof (Z.mod_pos_bound (Z.log2 (m - 1)) 4 ltac:(lia)).
    pose proof (Z.div_mod (Z.log2 (m - 1)) 4 ltac:(lia)). lia. }
  assert (Hk : h <= 2 * ((h + 1) / 2)).
  { pose proof (Z.mod_pos_bound (h + 1) 2 ltac:(lia)).
    pose proof (Z.div_mod (h + 1) 2 ltac:(lia)). lia. }
  set (k := (h + 1) / 2) in *.
  assert (Hkpos : 0 < k) by lia.
  split; [exact Hkpos|].
  change 256 with (2 ^ 8). rewrite <- Z.pow_mul_r by lia.
  destruct (Z.eq_dec (m - 1) 0) as [E|E].
  - assert (1 <= 2 ^ (8 * k)) by (apply Z.pow_le_mono_r with (b := 0) (c := 8 * k) (a := 2); lia).
    lia.
  - assert (m - 1 < 2 ^ (8 * k)); [|lia].
    apply Z.log2_lt_pow2; lia.
Qed.

(** [random] on a positive modulus returns an element of the field. *)
Lemma random_ok (m : Z) (e : entropy) :
  0 < m -> exists v, fst (random m e) = Ok (mkFE (v mod m) m).
Proof.
  intros Hm. unfold random, getRandomValues. cbn [fst].
  replace (m - 1 + 1) with m by lia.
  rewrite js_rem_ok by lia. cbn [bind].
  rewrite new_FieldElement_pos by exact Hm. eauto.
Qed.

(** C6, as the code has it: for a positive modulus [random] reads once the
    [k] bytes that can write [modulus - 1] and returns their big-endian
    value reduced modulo the modulus, an element of [[0, modulus)]; there
    is no rejection and no second draw. *)
Theorem random_reduces_one_draw (m : Z) (e : entropy) :
  0 < m ->
  let k := (hex_length (m - 1) + 1) / 2 in
  let drawn := map e (seq 0 (Z.to_nat k)) in
  m <= 256 ^ k
  /\ 0 <= be_to_Z drawn < 256 ^ k
  /\ fst (random m e) = Ok (mkFE (be_to_Z drawn mod m) m)
  /\ 0 <= be_to_Z drawn mod m < m
  /\ (forall i, snd (random m e) i = e (Z.to_nat k + i)%nat).
Proof.
  intros Hm k drawn.
  destruct (byteLength_enough m Hm) as [Hk Hle]. fold k in Hk, Hle.
  assert (Hb : 0 <= be_to_Z drawn < 256 ^ k).
  { pose proof (be_to_Z_bound drawn) as Hd.
    unfold drawn, len in Hd. rewrite length_map, length_seq in Hd.
    rewrite Z2Nat.id in Hd by lia. exact Hd. }
  split; [exact Hle|]. split; [exact Hb|].
  unfold random, getRandomValues. fold k. fold drawn. cbn [fst snd].
  split; [|split; [apply Z.mod_pos_bound; exact Hm | reflexivity]].
  replace (m - 1 + 1) with m by lia.
  rewrite js_rem_ok by lia. cbn [bind].
  rewrite new_FieldElement_pos by exact Hm.
  rewrite Z.rem_mod_nonneg by lia. rewrite Z.mod_mod by lia. reflexivity.
Qed.

Lemma random_reduces_one_draw_witness :
  fst (random 3 (fun _ => x05)) = Ok (mkFE 2 3).
Proof.
  apply (proj1 (proj2 (proj2 (random_reduces_one_draw 3 (fun _ => x05)
                                 ltac:(reflexivity))))).
Defined.

(** C6 as the specification words it fails: on [ones_then_zeros] the first
    draw, [2^256 - 1], is not below the modulus; rejection sampling draws
    again and returns 0, whereas [random] returns the first draw reduced. *)
Lemma random_is_not_rejection_sampling :
  option_map fst (randomByRejection 2 SHADOW_PRIME ones_then_zeros)
  = Some (mkFE 0 SHADOW_PRIME)
  /\ fst (random SHADOW_PRIME ones_then_zeros)
     = Ok (mkFE ((2 ^ 256 - 1) mod SHADOW_PRIME) SHADOW_PRIME)
  /\ (2 ^ 256 - 1) mod SHADOW_PRIME <> 0
  /\ (forall rounds r,
        randomByRejection rounds SHADOW_PRIME ones_then_zeros = Some r ->
        fst (random SHADOW_PRIME ones_then_zeros) <> Ok (fst r)).
Proof.
  assert (E1 : option_map fst (randomByRejection 2 SHADOW_PRIME ones_then_zeros)
               = Some (mkFE 0 SHADOW_PRIME)) by (vm_compute; reflexivity).
  assert (E2 : fst (random SHADOW_PRIME ones_then_zeros)
               = Ok (mkFE ((2 ^ 256 - 1) mod SHADOW_PRIME) SHADOW_PRIME))
    by (vm_compute; reflexivity).
  split; [exact E1|]. split; [exact E2|].
  split; [vm_compute; discriminate|].
  intros rounds r Hr. rewrite E2.
  destruct rounds as [|[|n]]; vm_compute in Hr; try discriminate.
  injection Hr as <-. cbn [fst].
  intros E. injection E as Ev. revert Ev. vm_compute. discriminate.
Qed.

(** Modular reduction is not uniform: of the 256 one-byte draws that
    [random] of modulus 3 can make, 86 give 0 and 85 give 1. *)
Lemma random_mod3_bias :
  let draws := map (fun n => fst (random 3 (fun _ => byte_of_Z (Z.of_nat n))))
                   (seq 0 256) in
  length (filter (fun r => match r with
                           | Ok x => value x =? 0
                           | Throw _ => false end) draws) = 86%nat
  /\ length (filter (fun r => match r with
                              | Ok x => value x =? 1
                              | Throw _ => false end) draws) = 85%nat.
Proof. vm_compute. split; reflexivity. Qed.

End RandomFacts.

(** ** Inclusion proofs of a Merkle tree *)

Section MerkleProofs.
Context {H : HashFunction}.
Import Merkle.

Lemma list_pair_ind {A} (P : list A -> Prop) :
  P [] -> (forall a, P [a]) -> (forall a b l, P l -> P (a :: b :: l)) ->
  forall l, P l.
Proof.
  intros H0 H1 H2 l.
  enough (P l /\ forall a, P (a :: l)) by tauto.
  induction l as [|b l [IH1 IH2]]; split; auto.
Qed.

Lemma div2_SS (n : nat) : (S (S n) / 2 = S (n / 2))%nat.
Proof.
  change (S (S n)) with (1 * 2 + n)%nat. rewrite Nat.div_add_l by lia.
  reflexivity.
Qed.

Lemma rem2_even (n : nat) : (Z.rem (Z.of_nat n) 2 =? 0) = Nat.even n.
Proof.
  rewrite Z.rem_mod_nonneg by lia.
  change 2 with (Z.of_nat 2). rewrite <- Nat2Z.inj_mod.
  destruct (Nat.even n) eqn:E.
  - apply Nat.even_spec in E. destruct E as [k ->].
    rewrite Nat.mul_comm, Nat.Div0.mod_mul. reflexivity.
  - assert (Ho : Nat.odd n = true) by (unfold Nat.odd; rewrite E; reflexivity).
    apply Nat.odd_spec in Ho. destruct Ho as [k ->].
    rewrite Nat.add_comm, Nat.mul_comm, Nat.Div0.mod_add. reflexivity.
Qed.

Lemma nextLevel_nth (level : list bytes) : forall n x,
  nth_error level n = Some x ->
  exists s,
    nth_error level (siblingOf level n) = Some s
    /\ nth_error (nextLevel level) (n / 2)
       = Some (hash (if Nat.even n then x ++ s else s ++ x)).
Proof.
  induction level as [|a|a b l IH] using list_pair_ind; intros n x Hn.
  - destruct n; discriminate.
  - destruct n as [|n]; [|destruct n; discriminate].
    injection Hn as <-. exists a. split; reflexivity.
  - destruct n as [|[|n]].
    + injection Hn as <-. exists b. split; reflexivity.
    + injection Hn as <-. exists a. split; reflexivity.
    + cbn [nth_error] in Hn. destruct (IH n x Hn) as (s & Hs & Hnext).
      exists s. split.
      * unfold siblingOf in *. cbn [Nat.even length].
        destruct (Nat.even n) eqn:E.
        -- change (S (S (S n)) <? S (S (length l)))%nat
             with (S n <? length l)%nat.
           destruct (S n <? length l)%nat; exact Hs.
        -- destruct n as [|n]; [discriminate|].
           replace (S (S (S n)) - 1)%nat with (S (S (S n - 1))) by lia.
           exact Hs.
      * rewrite div2_SS. cbn [nextLevel nth_error Nat.even]. exact Hnext.
Qed.

(** What [getProof] reads at one level, in terms of [siblingOf]. *)
Lemma sibling_elem (level : list bytes) (n : nat) (x : bytes) :
  nth_error level n = Some x ->
  let siblingIndex :=
    if Z.rem (Z.of_nat n) 2 =? 0 then Z.of_nat n + 1 else Z.of_nat n - 1 in
  (if siblingIndex <? len level then siblingIndex else Z.of_nat n)
  = Z.of_nat (siblingOf level n).
Proof.
  intros Hn. cbv zeta. rewrite rem2_even. unfold siblingOf, len.
  assert (Hlt : (n < length level)%nat)
    by (apply nth_error_Some; congruence).
  destruct (Nat.even n) eqn:E.
  - destruct (Nat.ltb_spec (S n) (length level));
      destruct (Z.ltb_spec (Z.of_nat n + 1) (Z.of_nat (length level))); lia.
  - destruct n as [|n]; [discriminate|].
    destruct (Z.ltb_spec (Z.of_nat (S n) - 1) (Z.of_nat (length level))); lia.
Qed.

Lemma collectSiblings_step (level next : list bytes)
      (upper : list (list bytes)) (i : Z) :
  collectSiblings (level :: next :: upper) i
  = (node <- elem level
                  (let siblingIndex :=
                     if Z.rem i 2 =? 0 then i + 1 else i - 1 in
                   if siblingIndex <? len level then siblingIndex else i) ;;
     rest <- collectSiblings (next :: upper) (i / 2) ;;
     Ok (node :: rest)).
Proof. reflexivity. Qed.

(** The path collected from node [n] of a level hashes up to the root of
    the tree built above that level. *)
Lemma path_to_root (level : list bytes) : forall n x,
  nth_error level n = Some x ->
  exists path,
    collectSiblings (level :: buildTree level) (Z.of_nat n) = Ok path
    /\ hd_error (last (level :: buildTree level) [])
       = Some (recompute x (Z.of_nat n) path).
Proof.
  induction level as [level IH] using (induction_ltof1 _ (@length bytes)).
  unfold ltof in IH. intros n x Hn.
  destruct (le_lt_dec (length level) 1) as [Hs|Hl].
  - rewrite buildTree_short by exact Hs. exists []. split; [reflexivity|].
    destruct level as [|a [|b l]]; [destruct n; discriminate | | simpl in Hs; lia].
    destruct n as [|n]; [|destruct n; discriminate].
    exact Hn.
  - rewrite buildTree_long by exact Hl.
    destruct (nextLevel_nth level n x Hn) as (s & Hs & Hnext).
    destruct (IH (nextLevel level)
                 ltac:(destruct (nextLevel_length level); lia)
                 _ _ Hnext) as (path & Hpath & Hroot).
    exists (s :: path). split.
    + rewrite collectSiblings_step. cbv zeta.
      rewrite (sibling_elem level n x Hn).
      unfold elem. rewrite lookup_nat, Hs. cbn [bind].
      change 2 with (Z.of_nat 2). rewrite <- Nat2Z.inj_div.
      rewrite Hpath. reflexivity.
    + change (last (level :: nextLevel level :: buildTree (nextLevel level)) [])
        with (last (nextLevel level :: buildTree (nextLevel level)) []).
      rewrite Hroot. cbn [recompute]. rewrite rem2_even.
      change 2 with (Z.of_nat 2). rewrite <- Nat2Z.inj_div.
      unfold hash. destruct (Nat.even n); reflexivity.
Qed.

(** Whatever [getProof] returns on a tree built by the constructor
    verifies against the root of that tree. *)
Lemma getProof_sound (leaves : list bytes) (i : Z) (p : MerkleProof) :
  getProof (new_MerkleTree leaves) i = Ok p ->
  verify p = true
  /\ getRoot (new_MerkleTree leaves) = Some (root p)
  /\ lookup leaves i = Some (leaf p)
  /\ index p = i.
Proof.
  unfold getProof. cbn [Merkle.leaves Merkle.tree new_MerkleTree].
  destruct ((i <? 0) || (i >=? len leaves)) eqn:Hg; [discriminate|].
  apply orb_false_iff in Hg as [Hlo Hhi].
  destruct (lookup_in_range leaves i ltac:(lia)) as [x Hx].
  assert (Hn : nth_error leaves (Z.to_nat i) = Some x).
  { rewrite <- Hx. unfold lookup. rewrite Hlo. reflexivity. }
  destruct (path_to_root leaves _ _ Hn) as (path & Hpath & Hroot).
  rewrite Z2Nat.id in Hpath, Hroot by lia.
  rewrite Hpath. unfold elem. rewrite Hx. cbn [bind].
  unfold getRoot, new_MerkleTree. cbn [Merkle.tree]. rewrite Hroot.
  cbn [bind]. intros E. injection E as <-.
  unfold verify. cbn [leaf index siblings root].
  rewrite bytes_eqb_refl. auto.
Qed.

Lemma getProof_in_range (leaves : list bytes) (i : Z) :
  0 <= i < len leaves ->
  exists p, getProof (new_MerkleTree leaves) i = Ok p.
Proof.
  intros Hi. unfold getProof. cbn [Merkle.leaves Merkle.tree new_MerkleTree].
  replace ((i <? 0) || (i >=? len leaves)) with false
    by (symmetry; apply orb_false_iff; lia).
  destruct (lookup_in_range leaves i Hi) as [x Hx].
  assert (Hn : nth_error leaves (Z.to_nat i) = Some x).
  { rewrite <- Hx. unfold lookup.
    destruct (Z.ltb_spec i 0); [lia | reflexivity]. }
  destruct (path_to_root leaves _ _ Hn) as (path & Hpath & Hroot).
  rewrite Z2Nat.id in Hpath, Hroot by lia.
  rewrite Hpath. unfold elem. rewrite Hx. cbn [bind].
  unfold getRoot, new_MerkleTree. cbn [Merkle.tree]. rewrite Hroot.
  cbn [bind]. eexists. reflexivity.
Qed.

(** C2: for every sequence of leaves and every index [i] with
    [0 <= i < leafCount] (so the sequence is not empty), [getProof(i)]
    returns a proof, for leaf [i] and the root of the tree, and [verify()]
    of that proof is true; levels of odd length, where the last node is
    paired with itself, are covered. *)
Theorem getProof_verifies (leaves : list bytes) (i : Z) :
  0 <= i < len leaves ->
  exists p,
    getProof (new_MerkleTree leaves) i = Ok p
    /\ verify p = true
    /\ lookup leaves i = Some (leaf p)
    /\ index p = i
    /\ getRoot (new_MerkleTree leaves) = Some (root p).
Proof.
  intros Hi. destruct (getProof_in_range leaves i Hi) as [p Hp].
  exists p. destruct (getProof_sound leaves i p Hp) as (Hv & Hr & Hl & Hx).
  auto.
Qed.

End MerkleProofs.

Lemma getProof_verifies_witness :
  let H : HashFunction := SHA256.instance in
  exists p,
    Merkle.getProof (Merkle.new_MerkleTree [[x01]; [x02]; [x03]]) 2 = Ok p
    /\ Merkle.verify p = true
    /\ lookup [[x01]; [x02]; [x03]] 2 = Some (Merkle.leaf p)
    /\ Merkle.index p = 2
    /\ Merkle.getRoot (Merkle.new_MerkleTree [[x01]; [x02]; [x03]])
       = Some (Merkle.root p).
Proof.
  intros H. apply (getProof_verifies [[x01]; [x02]; [x03]] 2).
  vm_compute. split; [discriminate | reflexivity].
Defined.

(** ** Proof bundles of the ledger *)

Section LedgerProofs.
Context {H : HashFunction}.
Import Field Poly Merkle X402.

Lemma every_eq_refl (a : bytes) : every_eq a a = true.
Proof.
  induction a as [|x a IH]; [reflexivity|]. cbn [every_eq].
  rewrite IH, Byte.byte_dec_lb; reflexivity.
Qed.

Lemma equals_refl (a : FieldElement) : equals a a = true.
Proof. unfold equals. rewrite !Z.eqb_refl. reflexivity. Qed.

Lemma mapM_getProof_verify (leaves : list bytes) (indices : list Z) :
  forall proofs,
    mapM (getProof (new_MerkleTree leaves)) indices = Ok proofs ->
    forallb verify proofs = true.
Proof.
  induction indices as [|i indices IH]; intros proofs; cbn [mapM].
  - intros E. injection E as <-. reflexivity.
  - destruct (getProof (new_MerkleTree leaves) i) as [p|] eqn:Hp;
      cbn [bind]; [|discriminate].
    destruct (mapM _ indices) as [ps|]; cbn [bind]; [|discriminate].
    intros E. injection E as <-. cbn [forallb].
    rewrite (proj1 (getProof_sound leaves i p Hp)), (IH ps); reflexivity.
Qed.

(** A bundle from [generateZKProof] carries verifying evaluation proofs
    and the challenge that [verifyZKProof] recomputes. *)
Lemma generateZKProof_consistent
      (payment : StealthPayment) (inputs : list FieldElement)
      (e e' : entropy) (zk : ZKProof) :
  generateZKProof payment inputs e = (Ok zk, e') ->
  forallb verify (evaluationProofs zk) = true
  /\ fiatShamir (polynomialCommitment zk) inputs = Ok (challenge zk).
Proof.
  unfold generateZKProof. intros Hg.
  destruct (new_FieldElement _ _); [|discriminate].
  destruct (mapM _ (indexed _)); [|discriminate].
  destruct (interpolate _); [|discriminate].
  destruct (sampleEvaluations 8 _ _) as [[evaluations|] e1]; [|discriminate].
  destruct (Merkle.getRoot _) as [pc|]; cbn [bind] in Hg; [|discriminate].
  destruct (fiatShamir pc inputs) as [c|] eqn:Hc; cbn [bind] in Hg;
    [|discriminate].
  destruct (mapM (getProof _) queryIndices) as [proofs|] eqn:Hp;
    cbn [bind] in Hg; [|discriminate].
  destruct (mapM (elem evaluations) queryIndices); cbn [bind] in Hg;
    [|discriminate].
  injection Hg as <- <-.
  cbn [evaluationProofs polynomialCommitment challenge].
  split; [|exact Hc]. exact (mapM_getProof_verify _ _ _ Hp).
Qed.

Lemma verifyZKProof_generated
      (payment : StealthPayment) (inputs : list FieldElement)
      (e e' : entropy) (zk : ZKProof) :
  generateZKProof payment inputs e = (Ok zk, e') ->
  forall response',
    verifyZKProof (mkZKProof (polynomialCommitment zk) (evaluationProofs zk)
                             (challenge zk) response') inputs
    = Ok true.
Proof.
  intros Hg response'.
  destruct (generateZKProof_consistent _ _ _ _ _ Hg) as [Hv Hc].
  unfold verifyZKProof.
  cbn [evaluationProofs polynomialCommitment challenge].
  rewrite Hv, Hc. cbn [negb bind]. rewrite equals_refl. reflexivity.
Qed.

(** On a ledger whose tree is in step with its payments, every bundle
    that [generateProof] returns passes [verifyProof] against [getRoot()],
    and goes on passing when its commitment and its response are replaced. *)
Lemma verifyProof_generated
      (this : X402StealthPayment) (paymentIndex : Z)
      (inputs : list FieldElement) (e e' : entropy) (proof : StealthProof) :
  in_sync this ->
  generateProof this paymentIndex inputs e = (Ok proof, e') ->
  exists expectedRoot,
    X402.getRoot this = Some expectedRoot
    /\ forall commitment' response',
        verifyProof
          (mkStealthProof commitment' (merkleProof proof)
             (mkZKProof (polynomialCommitment (zkProof proof))
                        (evaluationProofs (zkProof proof))
                        (challenge (zkProof proof)) response')
             (publicInput proof))
          expectedRoot
        = Ok true.
Proof.
  intros Hsync. unfold generateProof.
  destruct ((paymentIndex <? 0) || _); [discriminate|].
  destruct (lookup _ paymentIndex) as [payment|]; [|discriminate].
  destruct Hsync as [Ht|[_ Ht]]; rewrite Ht; [|discriminate].
  destruct (getProof _ paymentIndex) as [mp|] eqn:Hmp; [|discriminate].
  destruct (generateZKProof payment inputs e) as [[zk|] e1] eqn:Hzk;
    [|discriminate].
  intros E. injection E as <- <-.
  destruct (getProof_sound _ _ _ Hmp) as (Hv & Hr & _ & _).
  exists (root mp). unfold X402.getRoot. rewrite Ht. split; [exact Hr|].
  intros commitment' response'. unfold verifyProof.
  cbn [merkleProof zkProof publicInput].
  rewrite Hv, Z.eqb_refl, every_eq_refl. cbn [negb andb].
  exact (verifyZKProof_generated _ _ _ _ _ Hzk response').
Qed.

Lemma proof_eta (proof : StealthProof) :
  proof
  = mkStealthProof (proofCommitment proof) (merkleProof proof)
      (mkZKProof (polynomialCommitment (zkProof proof))
                 (evaluationProofs (zkProof proof))
                 (challenge (zkProof proof)) (response (zkProof proof)))
      (publicInput proof).
Proof. destruct proof as [c mp [pc eps ch resp] inputs]. reflexivity. Qed.

End LedgerProofs.


(** On the run, flipping a bit of the bundle's commitment and changing its
    first response value leaves [verifyProof] true. *)
Lemma tampered_bundle_still_verifies :
  exists proof expectedRoot,
    Run.generated = Ok proof
    /\ X402.getRoot Run.ledger = Some expectedRoot
    /\ @X402.verifyProof Run.hash proof expectedRoot = Ok true
    /\ X402.proofCommitment (Run.tampered proof) <> X402.proofCommitment proof
    /\ X402.response (X402.zkProof (Run.tampered proof))
       <> X402.response (X402.zkProof proof)
    /\ @X402.verifyProof Run.hash (Run.tampered proof) expectedRoot = Ok true.
Proof.
  destruct Run.generated as [proof|] eqn:Hgen;
    [|vm_compute in Hgen; discriminate].
  destruct (X402.getRoot Run.ledger) as [expectedRoot|] eqn:Hroot;
    [|vm_compute in Hroot; discriminate].
  exists proof, expectedRoot.
  split; [reflexivity|]. split; [reflexivity|].
  vm_compute in Hgen. injection Hgen as <-.
  vm_compute in Hroot. injection Hroot as <-.
  split; [vm_compute; reflexivity|].
  split; [vm_compute; discriminate|].
  split; [vm_compute; discriminate|].
  vm_compute. reflexivity.
Qed.

(** ** Field operations on elements in range *)

Section FieldAlgebra.
Import Field.

Variable m : Z.
Hypothesis m_pos : 0 < m.

Lemma wf_F (v : Z) : wf m (F m v).
Proof.
  split; [reflexivity|]. cbn [F value]. apply Z.mod_pos_bound. exact m_pos.
Qed.

Lemma wf_is_F (a : FieldElement) : wf m a -> a = F m (value a).
Proof.
  destruct a as [v n]. intros [Hn Hv]. cbn [value modulus] in *. subst n.
  unfold F. rewrite Z.mod_small by exact Hv. reflexivity.
Qed.

Lemma F_eq (a b : Z) : a mod m = b mod m -> F m a = F m b.
Proof. intros E. unfold F. rewrite E. reflexivity. Qed.

Lemma new_FieldElement_F (v : Z) : new_FieldElement v m = Ok (F m v).
Proof. apply new_FieldElement_pos. exact m_pos. Qed.

Lemma zero_F : Field.zero m = Ok (F m 0).
Proof. apply new_FieldElement_F. Qed.

Lemma one_F : Field.one m = Ok (F m 1).
Proof. apply new_FieldElement_F. Qed.

Lemma add_F (a b : Z) : add (F m a) (F m b) = Ok (F m (a + b)).
Proof.
  unfold add. cbn [F modulus value]. rewrite Z.eqb_refl. cbn [negb].
  rewrite mod_pos by exact m_pos. cbn [bind]. rewrite new_FieldElement_F.
  f_equal. apply F_eq. rewrite Z.mod_mod by lia.
  rewrite <- Z.add_mod by lia. reflexivity.
Qed.

Lemma sub_F (a b : Z) : sub (F m a) (F m b) = Ok (F m (a - b)).
Proof.
  unfold sub. cbn [F modulus value]. rewrite Z.eqb_refl. cbn [negb].
  rewrite mod_pos by exact m_pos. cbn [bind]. rewrite new_FieldElement_F.
  f_equal. apply F_eq. rewrite Z.mod_mod by lia.
  rewrite <- Zminus_mod. reflexivity.
Qed.

Lemma mul_F (a b : Z) : mul (F m a) (F m b) = Ok (F m (a * b)).
Proof.
  unfold mul. cbn [F modulus value]. rewrite Z.eqb_refl. cbn [negb].
  rewrite mod_pos by exact m_pos. cbn [bind]. rewrite new_FieldElement_F.
  f_equal. apply F_eq. rewrite Z.mod_mod by lia.
  rewrite <- Z.mul_mod by lia. reflexivity.
Qed.

Lemma neg_F (a : Z) : neg (F m a) = Ok (F m (- a)).
Proof.
  unfold neg. cbn [F modulus value].
  rewrite mod_pos by exact m_pos. cbn [bind]. rewrite new_FieldElement_F.
  f_equal. apply F_eq. rewrite Z.mod_mod by lia.
  change (- (a mod m)) with (Z.opp (a mod m)).
  rewrite <- (Z.sub_0_l (a mod m)), <- (Z.sub_0_l a).
  rewrite Zminus_mod_idemp_r. reflexivity.
Qed.

(** The invariant of the extended Euclidean loop of [inverse]: both
    remainders are multiples of [a] modulo [m], and their gcd is kept. *)
Lemma inverse_loop_spec (a : Z) : forall oldR r oldS s,
  0 <= oldR -> 0 <= r ->
  (oldS * a) mod m = oldR mod m ->
  (s * a) mod m = r mod m ->
  let '(g, t) := inverse_loop oldR r oldS s in
  g = Z.gcd oldR r /\ (t * a) mod m = g mod m.
Proof.
  intros oldR r oldS s. funelim (inverse_loop oldR r oldS s).
  - intros HoldR _ HS _. subst r. rewrite Z.gcd_0_r, Z.abs_eq by lia. auto.
  - intros HoldR Hr0 HS Hs.
    assert (Erem : oldR - Z.quot oldR r * r = Z.rem oldR r)
      by (pose proof (Z.quot_rem' oldR r); lia).
    assert (Hrem : 0 <= oldR - Z.quot oldR r * r)
      by (rewrite Erem; apply Z.rem_nonneg; lia).
    assert (Hnext : ((oldS - Z.quot oldR r * s) * a) mod m
                    = (oldR - Z.quot oldR r * r) mod m).
    { replace ((oldS - Z.quot oldR r * s) * a)
        with (oldS * a - Z.quot oldR r * (s * a)) by ring.
      rewrite Zminus_mod, HS. rewrite (Z.mul_mod _ (s * a)) by lia.
      rewrite Hs. rewrite <- (Z.mul_mod _ r) by lia.
      rewrite <- Zminus_mod. reflexivity. }
    match goal with
    | IH : forall a : Z, _ |- _ => specialize (IH a Hr0 Hrem Hs Hnext)
    end.
    destruct (inverse_loop r (oldR - Z.quot oldR r * r) s
                           (oldS - Z.quot oldR r * s)) as [g t].
    match goal with
    | IH : _ /\ _ |- _ => destruct IH as [Hg Ht]
    end.
    split; [|exact Ht]. rewrite Hg.
    replace (oldR - Z.quot oldR r * r) with (oldR + (- Z.quot oldR r) * r)
      by ring.
    rewrite Z.gcd_add_mult_diag_r. apply Z.gcd_comm.
Qed.

(** [inverse] succeeds on an element coprime with the modulus and returns
    its inverse. *)
Lemma inverse_F (a : Z) :
  Z.gcd (a mod m) m = 1 ->
  exists i, inverse (F m a) = Ok (F m i) /\ (a * i) mod m = 1 mod m.
Proof.
  intros Hg. unfold inverse. cbn [F value modulus].
  pose proof (Z.mod_pos_bound a m m_pos) as Ha.
  pose proof (inverse_loop_spec (a mod m) (a mod m) m 1 0
                ltac:(lia) ltac:(lia)) as Hloop.
  destruct (inverse_loop (a mod m) m 1 0) as [g t].
  destruct Hloop as [Eg Et].
  - rewrite Z.mul_1_l. reflexivity.
  - rewrite Z.mul_0_l, Z.mod_same, Z.mod_0_l by lia. reflexivity.
  - rewrite Hg in Eg. subst g.
    change (1 >? 1) with false. cbv iota.
    rewrite mod_pos by exact m_pos. cbn [bind]. rewrite new_FieldElement_F.
    exists t. split.
    + f_equal. apply F_eq. apply Z.mod_mod. lia.
    + rewrite <- Et. rewrite (Z.mul_comm t).
      rewrite Z.mul_mod_idemp_l by lia. reflexivity.
Qed.

End FieldAlgebra.

(** ** Polynomials as integer series *)

Section Series.

Lemma hornerZ_cons (c : Z) (l : list Z) (x : Z) :
  hornerZ (c :: l) x = c + x * hornerZ l x.
Proof. reflexivity. Qed.

Lemma series_S (f : nat -> Z) (n : nat) (x : Z) :
  series f (S n) x = f 0%nat + x * series (fun i => f (S i)) n x.
Proof.
  unfold series. cbn [seq map hornerZ fold_right].
  rewrite <- seq_shift, map_map. reflexivity.
Qed.

Lemma series_ext (f g : nat -> Z) (n : nat) (x : Z) :
  (forall i, (i < n)%nat -> f i = g i) -> series f n x = series g n x.
Proof.
  revert f g. induction n as [|n IH]; intros f g E; [reflexivity|].
  rewrite !series_S. rewrite (E 0%nat) by lia.
  rewrite (IH (fun i => f (S i)) (fun i => g (S i))); [reflexivity|].
  intros i Hi. apply E. lia.
Qed.

Lemma series_zero (n : nat) (x : Z) : series (fun _ => 0) n x = 0.
Proof.
  induction n as [|n IH]; [reflexivity|]. rewrite series_S, IH. ring.
Qed.

Lemma series_add (f g : nat -> Z) (n : nat) (x : Z) :
  series (fun i => f i + g i) n x = series f n x + series g n x.
Proof.
  revert f g. induction n as [|n IH]; intros f g; [reflexivity|].
  rewrite !series_S. rewrite (IH (fun i => f (S i)) (fun i => g (S i))). ring.
Qed.

Lemma series_scale (a : Z) (f : nat -> Z) (n : nat) (x : Z) :
  series (fun i => a * f i) n x = a * series f n x.
Proof.
  revert f. induction n as [|n IH]; intros f; [unfold series; simpl; ring|].
  rewrite !series_S. rewrite (IH (fun i => f (S i))). ring.
Qed.

Lemma series_mod (m : Z) (f : nat -> Z) (n : nat) (x : Z) :
  series (fun i => f i mod m) n x mod m = series f n x mod m.
Proof.
  revert f. induction n as [|n IH]; intros f; [reflexivity|].
  rewrite !series_S. rewrite Zplus_mod_idemp_l.
  rewrite (Zplus_mod (f 0%nat) (x * series (fun i => f (S i) mod m) n x)).
  rewrite (Zmult_mod x (series (fun i => f (S i) mod m) n x)).
  rewrite (IH (fun i => f (S i))).
  rewrite <- Zmult_mod, <- Zplus_mod. reflexivity.
Qed.

Lemma series_nth (l : list Z) (n : nat) (x : Z) :
  (length l <= n)%nat -> series (fun i => nth i l 0) n x = hornerZ l x.
Proof.
  revert l. induction n as [|n IH]; intros l Hl.
  - destruct l; [reflexivity | simpl in Hl; lia].
  - rewrite series_S. destruct l as [|c l].
    + rewrite (series_ext _ (fun _ => 0)) by (intros; reflexivity).
      rewrite series_zero. simpl. ring.
    + cbn [nth hornerZ fold_right]. rewrite IH by (simpl in Hl; lia).
      reflexivity.
Qed.

Lemma hornerZ_map_series (f : nat -> Z) (n : nat) (x : Z) :
  hornerZ (map f (seq 0 n)) x = series f n x.
Proof. reflexivity. Qed.

Lemma hornerZ_app_zeros (l zs : list Z) (x : Z) :
  Forall (fun z => z = 0) zs -> hornerZ (l ++ zs) x = hornerZ l x.
Proof.
  intros Hz. assert (E : hornerZ zs x = 0).
  { induction Hz as [|z zs -> _ IHz]; [reflexivity|].
    unfold hornerZ in *. cbn [fold_right]. rewrite IHz. ring. }
  induction l as [|c l IH]; [exact E|].
  unfold hornerZ in *. cbn [app fold_right]. rewrite IH. reflexivity.
Qed.

Lemma bigsum_S_r (f : nat -> Z) (n : nat) :
  bigsum f (S n) = bigsum f n + f n.
Proof.
  unfold bigsum. rewrite seq_S, fold_left_app. reflexivity.
Qed.

Lemma bigsum_S_l (f : nat -> Z) (n : nat) :
  bigsum f (S n) = f 0%nat + bigsum (fun j => f (S j)) n.
Proof.
  induction n as [|n IH]; [unfold bigsum; simpl; ring|].
  rewrite bigsum_S_r, IH, (bigsum_S_r (fun j => f (S j))). ring.
Qed.

Lemma bigsum_zero (f : nat -> Z) (n : nat) :
  (forall j, f j = 0) -> bigsum f n = 0.
Proof.
  intros Hf. induction n as [|n IH]; [reflexivity|].
  rewrite bigsum_S_r, IH, Hf. reflexivity.
Qed.

Lemma convZ_nil (qv : list Z) (i : nat) : convZ [] qv i = 0.
Proof.
  unfold convZ. apply bigsum_zero. intros j. destruct j; reflexivity.
Qed.

Lemma convZ_cons_0 (a : Z) (pv qv : list Z) :
  convZ (a :: pv) qv 0 = a * nth 0 qv 0.
Proof. unfold convZ, bigsum. simpl. ring. Qed.

Lemma convZ_cons_S (a : Z) (pv qv : list Z) (i : nat) :
  convZ (a :: pv) qv (S i) = a * nth (S i) qv 0 + convZ pv qv i.
Proof.
  unfold convZ. rewrite bigsum_S_l. reflexivity.
Qed.

(** The series of the convolution is the product of the two values, as
    soon as it has as many terms as the product has coefficients. *)
Lemma series_convZ (qv : list Z) (x : Z) : forall pv n,
  (length pv + length qv <= S n)%nat ->
  series (convZ pv qv) n x = hornerZ pv x * hornerZ qv x.
Proof.
  induction pv as [|a pv IH]; intros n Hn.
  - rewrite (series_ext _ (fun _ => 0)) by (intros; apply convZ_nil).
    rewrite series_zero. simpl. ring.
  - destruct n as [|n].
    + destruct qv; [|simpl in Hn; lia].
      change (hornerZ [] x) with 0. rewrite Z.mul_0_r. reflexivity.
    + rewrite series_S, convZ_cons_0.
      rewrite (series_ext _ (fun i => a * nth (S i) qv 0 + convZ pv qv i))
        by (intros; apply convZ_cons_S).
      rewrite series_add, series_scale.
      rewrite IH by (simpl in Hn; lia).
      rewrite <- (series_nth qv (S n) x) by (simpl in Hn; lia).
      rewrite (series_S (fun i => nth i qv 0)), hornerZ_cons. ring.
Qed.

End Series.

(** ** Polynomial operations over the reference field *)

Lemma mapM_pure {A B} (f : A -> result B) (g : A -> B) (l : list A) :
  (forall x, In x l -> f x = Ok (g x)) -> mapM f l = Ok (map g l).
Proof.
  induction l as [|x l IH]; intros Hf; [reflexivity|].
  cbn [mapM map]. rewrite (Hf x) by (left; reflexivity). cbn [bind].
  rewrite IH by (intros y Hy; apply Hf; right; exact Hy). reflexivity.
Qed.

Lemma mapM_map {A B C} (f : B -> result C) (h : A -> B) (l : list A) :
  mapM f (map h l) = mapM (fun x => f (h x)) l.
Proof.
  induction l as [|x l IH]; [reflexivity|].
  cbn [mapM map]. rewrite IH. reflexivity.
Qed.

Section PolyAlgebra.
Import Field Poly.

Variable m : Z.
Hypothesis m_pos : 0 < m.
Hypothesis m_default : m = SHADOW_PRIME.

Lemma evaluate_loop (x : Z) : forall cs r pw,
  Forall (wf m) cs ->
  exists pw',
    foldM (fun '(result, power) coeff =>
             t <- Field.mul coeff power ;;
             result' <- Field.add result t ;;
             power' <- Field.mul power (F m x) ;;
             Ok (result', power'))
          cs (F m r, F m pw)
    = Ok (F m (r + pw * hornerZ (map value cs) x), F m pw').
Proof.
  induction cs as [|c cs IH]; intros r pw Hwf.
  - exists pw. cbn [foldM map]. change (hornerZ [] x) with 0.
    do 3 f_equal. ring.
  - apply Forall_cons_iff in Hwf as [Hc Hcs]. cbn [foldM].
    replace (Field.mul c (F m pw)) with (Field.mul (F m (value c)) (F m pw))
      by (rewrite <- (wf_is_F m c Hc); reflexivity).
    rewrite mul_F by exact m_pos. cbn [bind].
    rewrite add_F by exact m_pos. cbn [bind].
    rewrite mul_F by exact m_pos. cbn [bind].
    destruct (IH (r + value c * pw) (pw * x) Hcs) as [pw' E].
    rewrite E. exists pw'. do 2 f_equal. apply F_eq. f_equal.
    cbn [map]. rewrite hornerZ_cons. ring.
Qed.

(** [evaluate] returns the value of the polynomial, reduced. *)
Lemma evaluate_spec (p : Polynomial) (x : Z) :
  wfP m p -> evaluate p (F m x) = Ok (F m (pval p x)).
Proof.
  intros Hp. unfold evaluate. cbn [F modulus].
  rewrite zero_F, one_F by exact m_pos. cbn [bind].
  destruct (evaluate_loop x (coefficients p) 0 1 Hp) as [pw' E].
  fold (F m x). rewrite E. cbn [bind fst]. f_equal. apply F_eq. f_equal.
  unfold pval, values. ring.
Qed.

Lemma pop_zeros_split (reversed : list FieldElement) :
  exists zs, reversed = zs ++ pop_zeros reversed
             /\ Forall (fun c => value c = 0) zs.
Proof.
  induction reversed as [|c rest (zs & E & Hz)].
  - exists []. split; [reflexivity | constructor].
  - cbn [pop_zeros]. destruct (isZero c) eqn:Ec.
    + exists (c :: zs). split; [cbn [app]; rewrite <- E; reflexivity|].
      constructor; [|exact Hz]. unfold isZero in Ec. lia.
    + exists []. split; [reflexivity | constructor].
Qed.

Lemma new_Polynomial_split (cs : list FieldElement) :
  exists zs, cs = coefficients (new_Polynomial cs) ++ zs
             /\ Forall (fun c => value c = 0) zs.
Proof.
  destruct (pop_zeros_split (rev cs)) as (zs & E & Hz).
  exists (rev zs). split.
  - unfold new_Polynomial. cbn [coefficients].
    rewrite <- rev_app_distr, <- E, rev_involutive. reflexivity.
  - apply Forall_rev. exact Hz.
Qed.

Lemma pval_new (cs : list FieldElement) (x : Z) :
  pval (new_Polynomial cs) x = hornerZ (map value cs) x.
Proof.
  destruct (new_Polynomial_split cs) as (zs & E & Hz).
  unfold pval, values. rewrite E at 2. rewrite map_app.
  rewrite hornerZ_app_zeros; [reflexivity|].
  apply Forall_map. exact Hz.
Qed.

Lemma wfP_new (cs : list FieldElement) :
  Forall (wf m) cs -> wfP m (new_Polynomial cs).
Proof.
  intros Hcs. destruct (new_Polynomial_split cs) as (zs & E & _).
  unfold wfP. rewrite E in Hcs. apply Forall_app in Hcs. tauto.
Qed.

Lemma modulus_of_wfP (p : Polynomial) : wfP m p -> modulus_of p = m.
Proof.
  unfold wfP, modulus_of. intros Hp.
  destruct (coefficients p) as [|c cs]; [symmetry; exact m_default|].
  apply Forall_cons_iff in Hp as [[Hc _] _].
  destruct (Z.eqb_spec (modulus c) 0); [lia | exact Hc].
Qed.

Lemma coeff_or_zero_spec (p : Polynomial) (j : nat) :
  wfP m p ->
  coeff_or_zero p (Z.of_nat j) m = Ok (F m (nth j (values p) 0)).
Proof.
  intros Hp. unfold coeff_or_zero. rewrite lookup_nat.
  destruct (nth_error (coefficients p) j) as [c|] eqn:E.
  - assert (Hc : wf m c).
    { unfold wfP in Hp. rewrite Forall_forall in Hp. apply Hp.
      eapply nth_error_In. exact E. }
    unfold values. rewrite (nth_error_nth _ _ 0 (map_nth_error value _ _ E)).
    f_equal. apply wf_is_F. exact Hc.
  - rewrite zero_F by exact m_pos. unfold values.
    rewrite nth_overflow; [reflexivity|].
    rewrite length_map. apply nth_error_None. exact E.
Qed.

Lemma range_of_nat (n : nat) : range (Z.of_nat n) = map Z.of_nat (seq 0 n).
Proof. unfold range. rewrite Nat2Z.id. reflexivity. Qed.

Lemma values_F (f : nat -> Z) (n : nat) :
  map value (map (fun i => F m (f i)) (seq 0 n))
  = map (fun i => f i mod m) (seq 0 n).
Proof. rewrite map_map. reflexivity. Qed.

Lemma wf_map_F (f : nat -> Z) (l : list nat) :
  Forall (wf m) (map (fun i => F m (f i)) l).
Proof.
  apply Forall_map. apply Forall_forall. intros i _. apply wf_F. exact m_pos.
Qed.

(** [add] returns the sum. *)
Lemma add_spec (p q : Polynomial) :
  wfP m p -> wfP m q ->
  exists r, Poly.add p q = Ok r /\ wfP m r
            /\ forall x, pval r x mod m = (pval p x + pval q x) mod m.
Proof.
  intros Hp Hq. unfold Poly.add. rewrite (modulus_of_wfP p Hp).
  set (n := Nat.max (length (coefficients p)) (length (coefficients q))).
  replace (Z.max (len (coefficients p)) (len (coefficients q)))
    with (Z.of_nat n) by (unfold n, len; lia).
  rewrite range_of_nat, mapM_map.
  rewrite (mapM_pure _ (fun i => F m (nth i (values p) 0 + nth i (values q) 0))).
  2:{ intros i _. rewrite !coeff_or_zero_spec by assumption. cbn [bind].
      apply add_F. exact m_pos. }
  cbn [bind]. eexists. split; [reflexivity|]. split.
  - apply wfP_new. apply wf_map_F.
  - intros x. rewrite pval_new, values_F, hornerZ_map_series, series_mod.
    rewrite series_add.
    rewrite !series_nth
      by (unfold values; rewrite length_map; unfold n; lia).
    reflexivity.
Qed.

Lemma conv_loop (p q : Polynomial) (i : nat) :
  wfP m p -> wfP m q ->
  forall js acc,
    (forall j, In j js -> (j <= i)%nat) ->
    foldM (fun coeff j =>
             a <- coeff_or_zero p j m ;;
             b <- coeff_or_zero q (Z.of_nat i - j) m ;;
             t <- Field.mul a b ;;
             Field.add coeff t)
          (map Z.of_nat js) (F m acc)
    = Ok (F m (fold_left
                 (fun acc j => acc + nth j (values p) 0
                                     * nth (i - j) (values q) 0)
                 js acc)).
Proof.
  intros Hp Hq. induction js as [|j js IH]; intros acc Hjs; [reflexivity|].
  cbn [map foldM fold_left].
  replace (Z.of_nat i - Z.of_nat j) with (Z.of_nat (i - j))
    by (specialize (Hjs j (or_introl eq_refl)); lia).
  rewrite !coeff_or_zero_spec by assumption. cbn [bind].
  rewrite mul_F by exact m_pos. cbn [bind].
  rewrite add_F by exact m_pos. cbn [bind].
  apply IH. intros j' Hj'. apply Hjs. right. exact Hj'.
Qed.

(** [mul] returns the product. *)
Lemma mul_spec (p q : Polynomial) :
  wfP m p -> wfP m q ->
  exists r, Poly.mul p q = Ok r /\ wfP m r
            /\ forall x, pval r x mod m = (pval p x * pval q x) mod m.
Proof.
  intros Hp Hq. unfold Poly.mul. rewrite (modulus_of_wfP p Hp).
  set (n := Z.to_nat (degree p + degree q + 1)).
  assert (Hn : (length (values p) + length (values q) <= S n)%nat).
  { unfold n, degree, len, values. rewrite !length_map. lia. }
  unfold range. fold n. rewrite mapM_map.
  rewrite (mapM_pure _ (fun i => F m (convZ (values p) (values q) i))).
  2:{ intros i _. cbv beta. rewrite zero_F by exact m_pos. cbn [bind].
      replace (Z.to_nat (Z.of_nat i + 1)) with (S i) by lia.
      rewrite (conv_loop p q i Hp Hq); [reflexivity|].
      intros j Hj. apply in_seq in Hj. lia. }
  cbn [bind]. eexists. split; [reflexivity|]. split.
  - apply wfP_new. apply wf_map_F.
  - intros x. rewrite pval_new, values_F, hornerZ_map_series, series_mod.
    rewrite series_convZ by exact Hn. reflexivity.
Qed.

End PolyAlgebra.

(** ** Lagrange interpolation over the reference field *)

Lemma indexed_from_In {A} (l : list A) : forall (s : nat) (k : Z) (a : A),
  In (k, a) (combine (map Z.of_nat (seq s (length l))) l)
  <-> exists n, k = Z.of_nat (s + n) /\ nth_error l n = Some a.
Proof.
  induction l as [|b l IH]; intros s k a.
  - split; [intros [] | intros (n & _ & E); destruct n; discriminate].
  - cbn [length seq map combine In]. rewrite IH. split.
    + intros [E|(n & -> & E)].
      * injection E as <- <-. exists 0%nat. split; [f_equal; lia | reflexivity].
      * exists (S n). split; [f_equal; lia | exact E].
    + intros ([|n] & -> & E).
      * left. cbn [nth_error] in E. injection E as <-. do 2 f_equal. lia.
      * right. exists n. split; [f_equal; lia | exact E].
Qed.

Lemma indexed_In {A} (l : list A) (k : Z) (a : A) :
  In (k, a) (Poly.indexed l)
  <-> exists n, k = Z.of_nat n /\ nth_error l n = Some a.
Proof.
  unfold Poly.indexed, Poly.range, len. rewrite Nat2Z.id.
  apply (indexed_from_In l 0).
Qed.

Lemma indexed_fst {A} (l : list A) :
  map fst (Poly.indexed l) = map Z.of_nat (seq 0 (length l)).
Proof.
  unfold Poly.indexed, Poly.range, len. rewrite Nat2Z.id.
  generalize 0%nat. induction l as [|a l IH]; intros s; [reflexivity|].
  cbn [length seq map combine fst]. rewrite IH. reflexivity.
Qed.

Lemma indexed_length {A} (l : list A) : length (Poly.indexed l) = length l.
Proof.
  rewrite <- (length_map fst), indexed_fst, length_map, length_seq.
  reflexivity.
Qed.

Lemma indexed_NoDup {A} (l : list A) : NoDup (map fst (Poly.indexed l)).
Proof.
  rewrite indexed_fst. apply Finite.Injective_map_NoDup.
  - intros a b. apply Nat2Z.inj.
  - apply seq_NoDup.
Qed.

Section Lagrange.
Import Field Poly.

Variable m : Z.
Hypothesis m_pos : 0 < m.
Hypothesis m_default : m = SHADOW_PRIME.

Lemma mod_mul_cong (a a' b b' : Z) :
  a mod m = a' mod m -> b mod m = b' mod m ->
  (a * b) mod m = (a' * b') mod m.
Proof.
  intros Ea Eb. rewrite (Zmult_mod a b), Ea, Eb, <- Zmult_mod. reflexivity.
Qed.

Lemma mod_add_cong (a a' b b' : Z) :
  a mod m = a' mod m -> b mod m = b' mod m ->
  (a + b) mod m = (a' + b') mod m.
Proof.
  intros Ea Eb. rewrite (Zplus_mod a b), Ea, Eb, <- Zplus_mod. reflexivity.
Qed.

Lemma pval_constant (c x : Z) :
  pval (new_Polynomial [F m c]) x mod m = c mod m.
Proof.
  rewrite pval_new. cbn [map F value]. rewrite !hornerZ_cons.
  change (hornerZ [] x) with 0.
  rewrite Z.mul_0_r, Z.add_0_r. apply Z.mod_mod. lia.
Qed.

Lemma pval_linear (c x : Z) :
  pval (new_Polynomial [F m c; F m 1]) x mod m = (x + c) mod m.
Proof.
  rewrite pval_new. cbn [map F value]. rewrite !hornerZ_cons.
  change (hornerZ [] x) with 0. rewrite Z.mul_0_r, Z.add_0_r.
  rewrite Zplus_mod_idemp_l, Z.add_comm.
  apply mod_add_cong; [|reflexivity].
  rewrite Zmult_mod_idemp_r. f_equal. ring.
Qed.

Lemma wfP_constant (c : Z) : wfP m (new_Polynomial [F m c]).
Proof.
  apply wfP_new. constructor; [apply wf_F; exact m_pos | constructor].
Qed.

(** One round of the inner loop of [interpolate]: the basis is multiplied
    by [(x - xj) / (xi - xj)]. *)
Lemma basis_step (B : Polynomial) (vi vj : Z) :
  wfP m B ->
  Z.gcd ((vi - vj) mod m) m = 1 ->
  exists B' d,
    (denominator <- Field.sub (F m vi) (F m vj) ;;
     nxj <- neg (F m vj) ;;
     o <- Field.one m ;;
     scaled <- Poly.mul B (new_Polynomial [nxj; o]) ;;
     dinv <- inverse denominator ;;
     Poly.mul scaled (new_Polynomial [dinv])) = Ok B'
    /\ wfP m B'
    /\ ((vi - vj) * d) mod m = 1 mod m
    /\ forall x, pval B' x mod m = (pval B x * ((x - vj) * d)) mod m.
Proof.
  intros HB Hg.
  rewrite sub_F, neg_F, one_F by exact m_pos. cbn [bind].
  destruct (mul_spec m m_pos m_default B (new_Polynomial [F m (- vj); F m 1]))
    as (scaled & Es & Hs & Vs); [exact HB | |].
  { apply wfP_new. repeat constructor; apply wf_F; exact m_pos. }
  rewrite Es. cbn [bind].
  destruct (inverse_F m m_pos (vi - vj) Hg) as (d & Ed & Hd).
  rewrite Ed. cbn [bind].
  destruct (mul_spec m m_pos m_default scaled (new_Polynomial [F m d]))
    as (B' & EB & HB' & VB); [exact Hs | apply wfP_constant |].
  exists B', d. split; [exact EB|]. split; [exact HB'|]. split; [exact Hd|].
  intros x. rewrite VB. rewrite Z.mul_assoc.
  apply mod_mul_cong; [|apply pval_constant].
  rewrite Vs. apply mod_mul_cong; [reflexivity|].
  rewrite pval_linear. f_equal; ring.
Qed.

(** The inner loop: the basis keeps its value at [xi] and vanishes at the
    other abscissas it has gone through. *)
Lemma basis_loop (i : Z) (xi : FieldElement) :
  wf m xi ->
  forall (L : list (Z * (FieldElement * FieldElement))) (B : Polynomial),
    wfP m B ->
    (forall j xj yj, In (j, (xj, yj)) L ->
                     wf m xj /\ (j <> i -> apart m xi xj)) ->
    exists B',
      foldM (fun basis '(j, (xj, _)) =>
               if i =? j then Ok basis
               else
                 denominator <- Field.sub xi xj ;;
                 nxj <- neg xj ;;
                 o <- Field.one m ;;
                 let numerator := new_Polynomial [nxj; o] in
                 scaled <- Poly.mul basis numerator ;;
                 dinv <- inverse denominator ;;
                 Poly.mul scaled (new_Polynomial [dinv]))
            L B = Ok B'
      /\ wfP m B'
      /\ pval B' (value xi) mod m = pval B (value xi) mod m
      /\ (forall x, pval B x mod m = 0 -> pval B' x mod m = 0)
      /\ (forall j xj yj, In (j, (xj, yj)) L -> j <> i ->
                          pval B' (value xj) mod m = 0).
Proof.
  intros Hxi.
  pose proof (wf_is_F m xi Hxi) as Exi.
  induction L as [|[j [xj yj]] L IH]; intros B HB HL.
  - exists B. cbn [foldM]. repeat split; auto. intros j xj yj [].
  - cbn [foldM].
    assert (HL' : forall j xj yj, In (j, (xj, yj)) L ->
                                  wf m xj /\ (j <> i -> apart m xi xj))
      by (intros j' xj' yj' Hin; apply HL with (yj := yj'); right; exact Hin).
    destruct (HL j xj yj (or_introl eq_refl)) as [Hxj Hap].
    pose proof (wf_is_F m xj Hxj) as Exj.
    destruct (Z.eqb_spec i j) as [->|Hij].
    + cbn [bind]. destruct (IH B HB HL') as (B' & E & HB' & Vi & Vz & Vj).
      exists B'. repeat split; auto.
      intros j' xj' yj' [Ein|Hin] Hne; [congruence|].
      eapply Vj; eauto.
    + destruct (basis_step B (value xi) (value xj) HB)
        as (B1 & d & E1 & HB1 & Hd & V1).
      { apply Hap. congruence. }
      rewrite <- Exi, <- Exj in E1. cbv zeta. rewrite E1. cbn [bind].
      destruct (IH B1 HB1 HL') as (B' & E & HB' & Vi & Vz & Vj).
      exists B'. split; [exact E|]. split; [exact HB'|].
      split; [|split].
      * rewrite Vi, V1.
        rewrite <- (Z.mul_1_r (pval B (value xi))) at 2.
        apply mod_mul_cong; [reflexivity | exact Hd].
      * intros x Hx. apply Vz. rewrite V1.
        rewrite (mod_mul_cong _ 0 _ ((x - value xj) * d)); auto.
      * intros j' xj' yj' [Ein|Hin] Hne.
        -- injection Ein as <- <- <-. apply Vz. rewrite V1.
           replace ((value xj - value xj) * d) with 0 by ring.
           rewrite Z.mul_0_r. reflexivity.
        -- eapply Vj; eauto.
Qed.

Lemma basis_of_spec (i : Z) (xi : FieldElement)
      (points : list (FieldElement * FieldElement)) :
  wf m xi ->
  (forall j xj yj, In (j, (xj, yj)) (indexed points) ->
                   wf m xj /\ (j <> i -> apart m xi xj)) ->
  exists B,
    basis_of m i xi points = Ok B
    /\ wfP m B
    /\ pval B (value xi) mod m = 1 mod m
    /\ (forall j xj yj, In (j, (xj, yj)) (indexed points) -> j <> i ->
                        pval B (value xj) mod m = 0).
Proof.
  intros Hxi HL. unfold basis_of.
  replace (Poly.one m) with (Ok (new_Polynomial [F m 1]))
    by (unfold Poly.one; rewrite one_F by exact m_pos; reflexivity).
  cbn [bind].
  destruct (basis_loop i xi Hxi (indexed points) (new_Polynomial [F m 1])
                       (wfP_constant 1) HL)
    as (B & E & HB & Vi & _ & Vj).
  exists B. split; [exact E|]. split; [exact HB|]. split; [|exact Vj].
  rewrite Vi. apply pval_constant.
Qed.

Lemma pval_single (c : FieldElement) (x : Z) :
  pval (new_Polynomial [c]) x = value c.
Proof.
  rewrite pval_new. cbn [map]. rewrite hornerZ_cons.
  change (hornerZ [] x) with 0. ring.
Qed.

Lemma indexed_functional {A} (l : list A) (k : Z) (a b : A) :
  In (k, a) (indexed l) -> In (k, b) (indexed l) -> a = b.
Proof.
  rewrite !indexed_In. intros (n & -> & Ea) (n' & En & Eb).
  apply Nat2Z.inj in En. subst n'. congruence.
Qed.

(** The outer loop of [interpolate]: each term adds its ordinate at its own
    abscissa and nothing at the others. *)
Lemma interpolate_loop (points : list (FieldElement * FieldElement)) :
  (forall k xk yk, In (k, (xk, yk)) (indexed points) -> wf m xk /\ wf m yk) ->
  (forall i xi yi j xj yj,
      In (i, (xi, yi)) (indexed points) -> In (j, (xj, yj)) (indexed points) ->
      j <> i -> apart m xi xj) ->
  forall (L : list (Z * (FieldElement * FieldElement))) (R : Polynomial),
    wfP m R -> incl L (indexed points) -> NoDup (map fst L) ->
    exists R',
      foldM (fun result '(i, (xi, yi)) =>
               basis <- basis_of m i xi points ;;
               term <- Poly.mul basis (new_Polynomial [yi]) ;;
               Poly.add result term)
            L R = Ok R'
      /\ wfP m R'
      /\ forall k xk yk,
          In (k, (xk, yk)) (indexed points) ->
          (In k (map fst L) ->
           pval R' (value xk) mod m = (pval R (value xk) + value yk) mod m)
          /\ (~ In k (map fst L) ->
              pval R' (value xk) mod m = pval R (value xk) mod m).
Proof.
  intros Hwf Hap. induction L as [|[i [xi yi]] L IH]; intros R HR Hincl Hnd.
  - exists R. split; [reflexivity|]. split; [exact HR|].
    intros k xk yk _. split; [intros [] | reflexivity].
  - cbn [foldM].
    assert (Hi : In (i, (xi, yi)) (indexed points))
      by (apply Hincl; left; reflexivity).
    destruct (Hwf _ _ _ Hi) as [Hxi Hyi].
    destruct (basis_of_spec i xi points Hxi) as (B & EB & HB & V1 & V0).
    { intros j xj yj Hj. destruct (Hwf _ _ _ Hj) as [Hxj _].
      split; [exact Hxj|]. intros Hne. exact (Hap _ _ _ _ _ _ Hi Hj Hne). }
    rewrite EB. cbn [bind].
    destruct (mul_spec m m_pos m_default B (new_Polynomial [yi]) HB)
      as (T & ET & HT & VT).
    { apply wfP_new. constructor; [exact Hyi | constructor]. }
    rewrite ET. cbn [bind].
    destruct (add_spec m m_pos m_default R T HR HT) as (R1 & ER & HR1 & VR).
    rewrite ER. cbn [bind].
    cbn [map fst] in Hnd. apply NoDup_cons_iff in Hnd as [Hni Hnd].
    destruct (IH R1 HR1) as (R' & E & HR' & V); [|exact Hnd|].
    { intros pt Hpt. apply Hincl. right. exact Hpt. }
    exists R'. split; [exact E|]. split; [exact HR'|].
    assert (V1' : forall x, pval R1 x mod m
                            = (pval R x + pval B x * value yi) mod m).
    { intros x. rewrite VR. apply mod_add_cong; [reflexivity|].
      rewrite VT, pval_single. reflexivity. }
    intros k xk yk Hk. destruct (V k xk yk Hk) as [Vin Vout].
    destruct (Z.eq_dec k i) as [->|Hki].
    + assert (Epair : (xk, yk) = (xi, yi))
        by (eapply indexed_functional; eauto).
      injection Epair as -> ->. split.
      * intros _. rewrite (Vout Hni), V1'.
        apply mod_add_cong; [reflexivity|].
        rewrite <- (Z.mul_1_l (value yi)) at 2.
        apply mod_mul_cong; [exact V1 | reflexivity].
      * intros Hn. exfalso. apply Hn. left. reflexivity.
    + assert (V1k : pval R1 (value xk) mod m = pval R (value xk) mod m).
      { rewrite V1'. rewrite <- (Z.add_0_r (pval R (value xk))) at 2.
        apply mod_add_cong; [reflexivity|].
        rewrite (mod_mul_cong _ 0 _ (value yi)); [reflexivity | | reflexivity].
        rewrite (V0 k xk yk Hk Hki). reflexivity. }
      split.
      * intros [Hin|Hin]; [cbn [fst] in Hin; congruence|].
        rewrite (Vin Hin). apply mod_add_cong; [exact V1k | reflexivity].
      * intros Hn. rewrite Vout; [exact V1k|].
        intros Hin. apply Hn. right. exact Hin.
Qed.

(** [interpolate] over points of the field whose abscissas are pairwise
    apart returns a polynomial through all of them. *)
Lemma interpolate_spec (points : list (FieldElement * FieldElement)) :
  points <> [] ->
  (forall x y, In (x, y) points -> wf m x /\ wf m y) ->
  (forall i j xi yi xj yj,
      nth_error points i = Some (xi, yi) ->
      nth_error points j = Some (xj, yj) ->
      i <> j -> apart m xi xj) ->
  exists p,
    interpolate points = Ok p
    /\ wfP m p
    /\ forall x y, In (x, y) points -> evaluate p x = Ok y.
Proof.
  intros Hne Hwf Hap.
  assert (Hwf' : forall k xk yk, In (k, (xk, yk)) (indexed points) ->
                                 wf m xk /\ wf m yk).
  { intros k xk yk Hk. apply indexed_In in Hk as (n & _ & En).
    apply Hwf. eapply nth_error_In. exact En. }
  assert (Hap' : forall i xi yi j xj yj,
             In (i, (xi, yi)) (indexed points) ->
             In (j, (xj, yj)) (indexed points) -> j <> i -> apart m xi xj).
  { intros i xi yi j xj yj Hi Hj Hji.
    apply indexed_In in Hi as (ni & -> & Ei).
    apply indexed_In in Hj as (nj & -> & Ej).
    apply (Hap ni nj xi yi xj yj Ei Ej). congruence. }
  destruct (interpolate_loop points Hwf' Hap' (indexed points)
              (new_Polynomial [F m 0]) (wfP_constant 0)
              (incl_refl _) (indexed_NoDup points))
    as (p & E & Hp & V).
  exists p. split; [|split; [exact Hp|]].
  - destruct points as [|[x0 y0] rest]; [contradiction|].
    unfold interpolate.
    destruct (Hwf x0 y0 (or_introl eq_refl)) as [[Hm0 _] _].
    rewrite Hm0.
    replace (Poly.zero m) with (Ok (new_Polynomial [F m 0]))
      by (unfold Poly.zero; rewrite zero_F by exact m_pos; reflexivity).
    cbn [bind]. exact E.
  - intros x y Hin. destruct (Hwf x y Hin) as [Hx Hy].
    apply In_nth_error in Hin as [n En].
    assert (Hk : In (Z.of_nat n, (x, y)) (indexed points))
      by (apply indexed_In; eauto).
    destruct (V _ _ _ Hk) as [Vin _].
    replace (evaluate p x) with (evaluate p (F m (value x)))
      by (rewrite <- (wf_is_F m x Hx); reflexivity).
    rewrite (evaluate_spec m m_pos p _ Hp).
    replace (Ok y) with (Ok (F m (value y)))
      by (rewrite <- (wf_is_F m y Hy); reflexivity).
    f_equal. apply F_eq.
    rewrite Vin by (apply (in_map fst) in Hk; exact Hk).
    rewrite <- (Z.add_0_l (value y)) at 2.
    apply mod_add_cong; [|reflexivity].
    rewrite pval_constant. reflexivity.
Qed.

End Lagrange.

(** ** The reference modulus is prime *)

(** Proth's criterion: [SHADOW_PRIME - 1 = k 2^192] with [k < 2^192], and
    [3 ^ ((SHADOW_PRIME - 1) / 2) = -1] modulo [SHADOW_PRIME]; every prime
    factor is then [1] modulo [2^192], too large for two of them to
    divide [SHADOW_PRIME]. *)
Section Primality.
Import Field.

Lemma SHADOW_PRIME_proth : SHADOW_PRIME = proth_k * 2 ^ 192 + 1.
Proof. reflexivity. Qed.

Lemma proth_witness :
  (3 ^ (proth_k * 2 ^ 191)) mod SHADOW_PRIME = SHADOW_PRIME - 1.
Proof.
  rewrite <- Zpow_mod_correct by (vm_compute; discriminate).
  vm_compute. reflexivity.
Qed.

Lemma pow_mod_one (a q x c : Z) :
  0 < q -> 0 <= x -> 0 <= c -> a ^ x mod q = 1 -> a ^ (x * c) mod q = 1 mod q.
Proof.
  intros Hq Hx Hc E. rewrite Z.pow_mul_r by assumption.
  rewrite Zpower_mod by exact Hq. rewrite E, Z.pow_1_l by exact Hc.
  reflexivity.
Qed.

(** The exponents that send [a] to [1] modulo [q] are closed under gcd. *)
Lemma exponent_gcd (a q : Z) :
  1 < q ->
  forall s, 0 <= s ->
  forall x y, 0 < x -> 0 < y -> x + y = s ->
              a ^ x mod q = 1 -> a ^ y mod q = 1 ->
              a ^ Z.gcd x y mod q = 1.
Proof.
  intros Hq s Hs. pattern s. apply Z_lt_induction; [|exact Hs].
  clear s Hs. intros s IH x y Hx Hy Hsum Ex Ey.
  assert (Hstep : forall u v, 0 < u -> u < v -> a ^ u mod q = 1 ->
                              a ^ v mod q = 1 -> a ^ (v - u) mod q = 1).
  { intros u v Hu Huv Eu Ev.
    replace v with (u + (v - u)) in Ev by ring.
    rewrite Z.pow_add_r in Ev by lia.
    rewrite Zmult_mod, Eu, Z.mul_1_l, Z.mod_mod in Ev by lia. exact Ev. }
  destruct (Z.lt_trichotomy x y) as [Hlt|[Heq|Hgt]].
  - rewrite <- (Z.gcd_sub_diag_r x y).
    apply (IH (x + (y - x))); try lia; auto.
  - subst y. rewrite Z.gcd_diag, Z.abs_eq by lia. exact Ex.
  - rewrite Z.gcd_comm, <- (Z.gcd_sub_diag_r y x).
    apply (IH (y + (x - y))); try lia; auto.
Qed.

Lemma odd_divides_cancel (k d' e : Z) :
  0 <= e -> (2 * d' + 1 | k * 2 ^ e) -> (2 * d' + 1 | k).
Proof.
  intros He Hdiv. apply Z.gauss with (m := 2 ^ e).
  - replace (2 ^ e * k) with (k * 2 ^ e) by ring. exact Hdiv.
  - apply Z.coprime_pow_r; [exact He|].
    apply Z.bezout_1_gcd. exists 1, (- d'). ring.
Qed.

(** A divisor of [k 2^(n+1)] that does not divide [k 2^n] is a multiple
    of [2^(n+1)]. *)
Lemma two_power_divides (k : Z) : forall (n : nat) (d : Z),
  0 < d ->
  (d | k * 2 ^ (Z.of_nat n + 1)) -> ~ (d | k * 2 ^ Z.of_nat n) ->
  (2 ^ (Z.of_nat n + 1) | d).
Proof.
  induction n as [|n IH]; intros d Hd Hdiv Hndiv.
  - destruct (Z.Even_or_Odd d) as [[d' ->]|[d' ->]].
    + change (2 ^ (Z.of_nat 0 + 1)) with 2. exists d'. ring.
    + exfalso. apply Hndiv. apply Z.divide_mul_l.
      apply (odd_divides_cancel k d' (Z.of_nat 0 + 1)); [lia | exact Hdiv].
  - destruct (Z.Even_or_Odd d) as [[d' ->]|[d' ->]].
    + assert (Hd' : (2 ^ (Z.of_nat n + 1) | d')).
      { apply IH; [lia | |].
        - destruct Hdiv as [c Hc]. exists c.
          replace (Z.of_nat (S n) + 1) with (Z.of_nat n + 1 + 1) in Hc by lia.
          rewrite (Z.pow_add_r 2 (Z.of_nat n + 1) 1) in Hc by lia.
          change (2 ^ 1) with 2 in Hc. lia.
        - intros [c Hc]. apply Hndiv. exists c.
          replace (Z.of_nat (S n)) with (Z.of_nat n + 1) by lia.
          rewrite Z.pow_add_r by lia. change (2 ^ 1) with 2. lia. }
      destruct Hd' as [c Hc]. exists c.
      replace (Z.of_nat (S n) + 1) with (Z.of_nat n + 1 + 1) by lia.
      rewrite (Z.pow_add_r 2 (Z.of_nat n + 1) 1) by lia.
      change (2 ^ 1) with 2. lia.
    + exfalso. apply Hndiv. apply Z.divide_mul_l.
      apply (odd_divides_cancel k d' (Z.of_nat (S n) + 1));
        [lia | exact Hdiv].
Qed.

Lemma prime_factor_large (q : Z) :
  Z.prime q -> (q | SHADOW_PRIME) -> 2 ^ 192 < q.
Proof.
  intros Hq Hdiv. pose proof (Z.prime_ge_2 q Hq) as Hq2.
  pose proof proth_witness as Hw.
  set (h := proth_k * 2 ^ 191) in Hw.
  assert (Hh : 0 < h) by (vm_compute; reflexivity).
  assert (HN : SHADOW_PRIME = 2 * h + 1) by (vm_compute; reflexivity).
  assert (Hk1 : proth_k * 2 ^ (Z.of_nat 191 + 1) = 2 * h)
    by (vm_compute; reflexivity).
  assert (Hk0 : proth_k * 2 ^ Z.of_nat 191 = h) by (vm_compute; reflexivity).
  clearbody h.
  (* 3 ^ h is -1 modulo q *)
  assert (Eh : 3 ^ h mod q = (q - 1) mod q).
  { rewrite <- (Z.mod_mod_divide (3 ^ h) SHADOW_PRIME q Hdiv), Hw.
    destruct Hdiv as [c Hc]. rewrite Hc.
    replace (c * q - 1) with ((q - 1) + (c - 1) * q) by ring.
    apply Z.mod_add. lia. }
  assert (Hodd : q <> 2).
  { intros ->. destruct Hdiv as [c Hc]. lia. }
  rewrite (Z.mod_small (q - 1)) in Eh by lia.
  assert (E2h : 3 ^ (2 * h) mod q = 1).
  { replace (2 * h) with (h + h) by ring.
    rewrite Z.pow_add_r, Zmult_mod, Eh by lia.
    replace ((q - 1) * (q - 1)) with (1 + (q - 2) * q) by ring.
    rewrite Z.mod_add, Z.mod_small by lia. reflexivity. }
  (* Fermat: 3 ^ (q - 1) is 1 modulo q *)
  assert (E3 : 3 mod q <> 0).
  { intros E. assert (E' : 3 ^ h mod q = 0).
    { rewrite Zpower_mod, E by lia. rewrite Z.pow_0_l by lia.
      apply Z.mod_0_l. lia. }
    lia. }
  pose proof (ZmodInv.Z.fermat_nz q 3 Hq E3) as Efermat.
  (* the gcd of the two exponents *)
  pose proof (exponent_gcd 3 q ltac:(lia) (2 * h + (q - 1)) ltac:(lia)
                (2 * h) (q - 1) ltac:(lia) ltac:(lia) eq_refl E2h Efermat)
    as Eg.
  set (g := Z.gcd (2 * h) (q - 1)) in Eg.
  assert (Hg : 0 < g).
  { pose proof (Z.gcd_nonneg (2 * h) (q - 1)) as Hnn. fold g in Hnn.
    assert (g <> 0); [|lia].
    unfold g. intros E0. apply Z.gcd_eq_0_l in E0. lia. }
  assert (Hg2h : (g | proth_k * 2 ^ (Z.of_nat 191 + 1))).
  { rewrite Hk1. apply Z.gcd_divide_l. }
  assert (Hgh : ~ (g | proth_k * 2 ^ Z.of_nat 191)).
  { rewrite Hk0. intros [c Hc].
    assert (0 <= c) by nia.
    assert (E1 : 3 ^ h mod q = 1 mod q).
    { rewrite Hc, Z.mul_comm. apply pow_mod_one; solve [lia | exact Eg]. }
    rewrite Z.mod_1_l in E1 by lia. lia. }
  pose proof (two_power_divides proth_k 191 g Hg Hg2h Hgh) as Hpow.
  change (2 ^ (Z.of_nat 191 + 1)) with (2 ^ 192) in Hpow.
  assert (Hq1 : (2 ^ 192 | q - 1)).
  { eapply Z.divide_trans; [exact Hpow|]. apply Z.gcd_divide_r. }
  destruct Hq1 as [c Hc].
  assert (0 < c) by nia.
  assert (2 ^ 192 <= c * 2 ^ 192) by nia. lia.
Qed.

Lemma has_prime_divisor : forall t, 1 < t -> exists q, Z.prime q /\ (q | t).
Proof.
  intros t Ht. assert (H0 : 0 <= t) by lia. revert Ht. pattern t.
  apply Z_lt_induction; [|exact H0]. clear t H0.
  intros t IH Ht.
  destruct (prime_dec t) as [Hp|Hn].
  - exists t. split; [apply prime_alt; exact Hp | apply Z.divide_refl].
  - destruct (not_prime_divide t Ht Hn) as (n & Hn1 & Hdiv).
    destruct (IH n ltac:(lia) ltac:(lia)) as (q & Hq & Hqn).
    exists q. split; [exact Hq|]. eapply Z.divide_trans; eauto.
Qed.

Theorem SHADOW_PRIME_prime : Z.prime SHADOW_PRIME.
Proof.
  split; [reflexivity|].
  intros n Hn [c Hc].
  assert (Hc1 : 1 < c < SHADOW_PRIME) by nia.
  destruct (has_prime_divisor n ltac:(lia)) as (q1 & Hq1 & Hd1).
  destruct (has_prime_divisor c ltac:(lia)) as (q2 & Hq2 & Hd2).
  assert (L1 : 2 ^ 192 < q1).
  { apply prime_factor_large; [exact Hq1|].
    eapply Z.divide_trans; [exact Hd1|]. exists c. exact Hc. }
  assert (L2 : 2 ^ 192 < q2).
  { apply prime_factor_large; [exact Hq2|].
    eapply Z.divide_trans; [exact Hd2|]. exists n. lia. }
  assert (q1 <= n) by (apply Z.divide_pos_le; [lia | exact Hd1]).
  assert (q2 <= c) by (apply Z.divide_pos_le; [lia | exact Hd2]).
  assert (Hbig : 2 ^ 192 * 2 ^ 192 < c * n) by nia.
  rewrite <- Hc in Hbig. revert Hbig. vm_compute. discriminate.
Qed.

End Primality.

(** ** Interpolation through points of the reference field *)

Section Interpolation.
Import Field Poly.

Lemma distinct_apart (xi xj : FieldElement) :
  wf SHADOW_PRIME xi -> wf SHADOW_PRIME xj -> xi <> xj ->
  apart SHADOW_PRIME xi xj.
Proof.
  intros [Hmi Hvi] [Hmj Hvj] Hne. unfold apart.
  assert (Hv : value xi <> value xj).
  { intros E. apply Hne. destruct xi, xj. cbn [value modulus] in *.
    congruence. }
  rewrite Z.gcd_comm. apply Z.coprime_prime_small; [exact SHADOW_PRIME_prime|].
  pose proof (Z.mod_pos_bound (value xi - value xj) SHADOW_PRIME
                SHADOW_PRIME_pos) as Hb.
  assert ((value xi - value xj) mod SHADOW_PRIME <> 0); [|lia].
  intros E. apply Z.mod_divide in E; [|lia]. destruct E as [c Hc].
  assert (c = 0) by nia. subst c. lia.
Qed.

(** X29: over points of the reference field (modulus [SHADOW_PRIME],
    coordinates in range) with pairwise distinct x-coordinates,
    [interpolate] returns a polynomial [p] with
    [p.evaluate(xi) = yi] for every point; through (0,1), (1,2), (2,3) it
    returns [p] with [p.evaluate(3) = 4]. *)
Theorem interpolate_through_points
        (points : list (FieldElement * FieldElement)) :
  points <> [] ->
  (forall x y, In (x, y) points -> wf SHADOW_PRIME x /\ wf SHADOW_PRIME y) ->
  NoDup (map fst points) ->
  (exists p,
      interpolate points = Ok p
      /\ forall x y, In (x, y) points -> evaluate p x = Ok y)
  /\ (p <- interpolate [(mkFE 0 SHADOW_PRIME, mkFE 1 SHADOW_PRIME);
                        (mkFE 1 SHADOW_PRIME, mkFE 2 SHADOW_PRIME);
                        (mkFE 2 SHADOW_PRIME, mkFE 3 SHADOW_PRIME)] ;;
      evaluate p (mkFE 3 SHADOW_PRIME)) = Ok (mkFE 4 SHADOW_PRIME).
Proof.
  intros Hne Hwf Hnd. split; [|vm_compute; reflexivity].
  destruct (interpolate_spec SHADOW_PRIME SHADOW_PRIME_pos eq_refl points
              Hne Hwf) as (p & E & _ & V).
  - intros i j xi yi xj yj Ei Ej Hij.
    apply distinct_apart.
    + apply (Hwf xi yi). eapply nth_error_In; eauto.
    + apply (Hwf xj yj). eapply nth_error_In; eauto.
    + intros Ex. apply Hij.
      rewrite NoDup_nth_error in Hnd. apply Hnd.
      * rewrite length_map. apply nth_error_Some. congruence.
      * rewrite !nth_error_map, Ei, Ej. cbn [option_map fst]. congruence.
  - exists p. split; [exact E | exact V].
Qed.

Lemma interpolate_through_points_witness :
  exists p,
    interpolate [(mkFE 5 SHADOW_PRIME, mkFE 8 SHADOW_PRIME);
                 (mkFE 7 SHADOW_PRIME, mkFE 0 SHADOW_PRIME)] = Ok p
    /\ forall x y,
        In (x, y) [(mkFE 5 SHADOW_PRIME, mkFE 8 SHADOW_PRIME);
                   (mkFE 7 SHADOW_PRIME, mkFE 0 SHADOW_PRIME)] ->
        evaluate p x = Ok y.
Proof.
  apply (interpolate_through_points
           [(mkFE 5 SHADOW_PRIME, mkFE 8 SHADOW_PRIME);
            (mkFE 7 SHADOW_PRIME, mkFE 0 SHADOW_PRIME)]).
  - discriminate.
  - intros x y [E|[E|[]]]; injection E as <- <-;
      repeat split; try reflexivity; vm_compute; discriminate.
  - repeat constructor; cbn [map fst In]; intuition discriminate.
Defined.

(** C8: off the reference field [interpolate] throws instead of returning
    a polynomial. Its running sum starts as [Polynomial.zero(modulus)],
    whose coefficient list is empty, so [add] takes [SHADOW_PRIME] for the
    modulus of that sum and pads it with zeros of [SHADOW_PRIME], which
    [FieldElement.add] refuses to add to a coefficient of the points'
    modulus. This happens for every single point [(x, y)] of a modulus other
    than [SHADOW_PRIME] with [y] not zero, and for the points (0,1), (1,2),
    (2,3) modulo 97. *)
Theorem interpolate_throws_off_reference_field :
  (forall m x y,
      1 < m -> m <> SHADOW_PRIME -> wf m x -> wf m y -> value y <> 0 ->
      interpolate [(x, y)]
      = Throw (Error "Cannot add field elements with different moduli"))
  /\ interpolate [(mkFE 0 97, mkFE 1 97); (mkFE 1 97, mkFE 2 97);
                  (mkFE 2 97, mkFE 3 97)]
     = Throw (Error "Cannot add field elements with different moduli").
Proof.
  split; [|vm_compute; reflexivity].
  intros m x y Hm Hne Hx Hy Hnz.
  assert (Hpos : 0 < m) by lia.
  destruct Hx as [Ex Hx].
  unfold interpolate. rewrite Ex.
  unfold Poly.zero. rewrite (zero_F m Hpos). cbn [bind].
  replace (new_Polynomial [F m 0]) with (mkPoly []).
  2:{ unfold new_Polynomial. cbn [rev app pop_zeros]. unfold isZero.
      cbn [F value]. rewrite Z.mod_0_l by lia. reflexivity. }
  change (indexed [(x, y)]) with [(0, (x, y))]. cbn [foldM].
  unfold basis_of. unfold Poly.one. rewrite (one_F m Hpos). cbn [bind].
  change (indexed [(x, y)]) with [(0, (x, y))]. cbn [foldM Z.eqb bind].
  assert (E1 : new_Polynomial [F m 1] = mkPoly [F m 1]).
  { unfold new_Polynomial. cbn [rev app pop_zeros]. unfold isZero.
    cbn [F value]. rewrite Z.mod_small by lia. reflexivity. }
  assert (Ey : new_Polynomial [y] = mkPoly [y]).
  { unfold new_Polynomial. cbn [rev app pop_zeros]. unfold isZero.
    destruct (Z.eqb_spec (value y) 0); [contradiction | reflexivity]. }
  rewrite E1, Ey.
  assert (Emul : Poly.mul (mkPoly [F m 1]) (mkPoly [y]) = Ok (mkPoly [y])).
  { unfold Poly.mul, modulus_of, degree, len. cbn [coefficients length].
    change (modulus (F m 1)) with m.
    destruct (Z.eqb_spec m 0); [lia|].
    change (range (Z.of_nat 1 - 1 + (Z.of_nat 1 - 1) + 1)) with [0].
    cbn [mapM]. rewrite (zero_F m Hpos). cbn [bind].
    change (range (0 + 1)) with [0]. cbn [foldM].
    unfold coeff_or_zero. cbn [coefficients].
    change (lookup [F m 1] 0) with (Some (F m 1)).
    change (lookup [y] (0 - 0)) with (Some y). cbn [bind].
    pose proof (mul_F m Hpos 1 (value y)) as Hmul.
    rewrite <- (wf_is_F m y Hy) in Hmul. rewrite Hmul. cbn [bind].
    rewrite (add_F m Hpos). cbn [bind].
    replace (F m (0 + 1 * value y)) with y.
    2:{ rewrite (wf_is_F m y Hy) at 1. f_equal. ring. }
    rewrite Ey. reflexivity. }
  rewrite Emul. cbn [bind].
  unfold Poly.add, modulus_of, len. cbn [coefficients length].
  change (range (Z.max (Z.of_nat 0) (Z.of_nat 1))) with [0].
  cbn [mapM]. unfold coeff_or_zero. cbn [coefficients].
  change (lookup [] 0) with (@None FieldElement).
  change (lookup [y] 0) with (Some y).
  rewrite (zero_F SHADOW_PRIME SHADOW_PRIME_pos). cbn [bind].
  unfold Field.add. cbn [F modulus]. destruct Hy as [Emy _]. rewrite Emy.
  destruct (Z.eqb_spec SHADOW_PRIME m); [congruence | reflexivity].
Qed.

End Interpolation.

(** ** Proof generation on the ledger *)

Lemma mapM_ok {A B} (f : A -> result B) (l : list A) :
  (forall x, In x l -> exists y, f x = Ok y) ->
  exists ys, mapM f l = Ok ys /\ length ys = length l.
Proof.
  induction l as [|x l IH]; intros Hf.
  - exists []. split; reflexivity.
  - destruct (Hf x (or_introl eq_refl)) as [y Ey].
    destruct IH as (ys & Eys & Hl); [intros z Hz; apply Hf; right; exact Hz|].
    exists (y :: ys). cbn [mapM]. rewrite Ey. cbn [bind]. rewrite Eys.
    split; [reflexivity | simpl; congruence].
Qed.

Lemma sha256_digest_length (msg : bytes) : length (SHA256.digest msg) = 32%nat.
Proof.
  unfold SHA256.digest.
  destruct (fold_left SHA256.compress _ SHA256.initial)
    as [[[[[[[a b] c] d] e] f] g] h].
  cbn [map concat]. rewrite !length_app, !Z_to_be_length. reflexivity.
Qed.

Lemma sha256_digest_nonempty (msg : bytes) : SHA256.digest msg <> [].
Proof.
  intros E. pose proof (sha256_digest_length msg) as Hl.
  rewrite E in Hl. discriminate.
Qed.

Section Generation.
Context {H : HashFunction}.
Import Field Poly Merkle X402.

(** The hash never returns the empty string ([sha256] returns 32 bytes). *)
Hypothesis sha256_nonempty : forall data, sha256 data <> [].

Lemma interpolate_ok (points : list (FieldElement * FieldElement)) :
  points <> [] ->
  (forall x y, In (x, y) points -> wf SHADOW_PRIME x /\ wf SHADOW_PRIME y) ->
  NoDup (map fst points) ->
  exists p, interpolate points = Ok p /\ wfP SHADOW_PRIME p.
Proof.
  intros Hne Hwf Hnd.
  destruct (interpolate_spec SHADOW_PRIME SHADOW_PRIME_pos eq_refl points
              Hne Hwf) as (p & E & Hp & _).
  - intros i j xi yi xj yj Ei Ej Hij.
    apply distinct_apart.
    + apply (Hwf xi yi). eapply nth_error_In; eauto.
    + apply (Hwf xj yj). eapply nth_error_In; eauto.
    + intros Ex. apply Hij.
      rewrite NoDup_nth_error in Hnd. apply Hnd.
      * rewrite length_map. apply nth_error_Some. congruence.
      * rewrite !nth_error_map, Ei, Ej. cbn [option_map fst]. congruence.
  - exists p. split; [exact E | exact Hp].
Qed.

Lemma sampleEvaluations_ok (poly : Polynomial) :
  wfP SHADOW_PRIME poly ->
  forall n e, exists evaluations e',
    sampleEvaluations n poly e = (Ok evaluations, e')
    /\ length evaluations = n.
Proof.
  intros Hp. induction n as [|n IH]; intros e.
  - exists [], e. split; reflexivity.
  - cbn [sampleEvaluations].
    destruct (random_ok SHADOW_PRIME e SHADOW_PRIME_pos) as [v Er].
    destruct (random SHADOW_PRIME e) as [r e1]. cbn [fst] in Er. rewrite Er.
    change (mkFE (v mod SHADOW_PRIME) SHADOW_PRIME) with (F SHADOW_PRIME v).
    rewrite (evaluate_spec SHADOW_PRIME SHADOW_PRIME_pos poly v Hp).
    destruct (IH e1) as (rest & e2 & E & Hl). rewrite E.
    eexists _, e2. split; [reflexivity | simpl; congruence].
Qed.

Lemma fiatShamir_ok (polynomialCommitment : bytes)
      (inputs : list FieldElement) :
  exists c, fiatShamir polynomialCommitment inputs = Ok c.
Proof.
  unfold fiatShamir, BigInt_of_hash.
  destruct (sha256 _) as [|b h] eqn:E; [apply sha256_nonempty in E; contradiction|].
  cbn [firstn bind]. rewrite js_rem_ok by (vm_compute; discriminate).
  cbn [bind]. rewrite new_FieldElement_pos by exact SHADOW_PRIME_pos.
  eexists. reflexivity.
Qed.

(** The abscissas [0, 1, ..., n - 1] of the trace are distinct elements of
    the field. *)
Lemma trace_points (trace : list FieldElement) :
  len trace <= SHADOW_PRIME ->
  Forall (wf SHADOW_PRIME) trace ->
  exists points,
    mapM (fun '(i, val) => x <- new_FieldElement i SHADOW_PRIME ;; Ok (x, val))
         (indexed trace) = Ok points
    /\ (trace <> [] -> points <> [])
    /\ (forall x y, In (x, y) points ->
                    wf SHADOW_PRIME x /\ wf SHADOW_PRIME y)
    /\ NoDup (map fst points).
Proof.
  intros Hlen Hwf.
  exists (map (fun '(i, val) => (F SHADOW_PRIME i, val)) (indexed trace)).
  split; [|split; [|split]].
  - apply mapM_pure. intros [i val] _.
    rewrite new_FieldElement_pos by exact SHADOW_PRIME_pos. reflexivity.
  - intros Hne E. apply (f_equal (@length _)) in E.
    rewrite length_map, indexed_length in E.
    destruct trace; [congruence | discriminate].
  - intros x y Hin. apply in_map_iff in Hin as ([i val] & E & Hin).
    injection E as <- <-. split; [apply wf_F; exact SHADOW_PRIME_pos|].
    apply indexed_In in Hin as (n & _ & En).
    rewrite Forall_forall in Hwf. apply Hwf. eapply nth_error_In; eauto.
  - rewrite map_map.
    rewrite (map_ext _ (fun pt => F SHADOW_PRIME (fst pt)))
      by (intros [i val]; reflexivity).
    rewrite <- (map_map fst (F SHADOW_PRIME)), indexed_fst, map_map.
    apply Finite.Injective_map_NoDup_in; [|apply seq_NoDup].
    intros i j Hi Hj E. apply in_seq in Hi, Hj. unfold len in Hlen.
    injection E as E. rewrite !Z.mod_small in E by lia. lia.
Qed.

(** On a ledger in step with its payments, whose amounts are field
    elements, [generateProof] returns a bundle for every valid index and
    every list of public inputs of the field. *)
Lemma generateProof_ok
      (this : X402StealthPayment) (paymentIndex : Z)
      (inputs : list FieldElement) (e : entropy) :
  in_sync this ->
  Forall (fun p => wf SHADOW_PRIME (amount p)) (stealthPayments this) ->
  0 <= paymentIndex < len (stealthPayments this) ->
  Forall (wf SHADOW_PRIME) inputs ->
  len inputs + 2 <= SHADOW_PRIME ->
  exists proof e', generateProof this paymentIndex inputs e = (Ok proof, e').
Proof.
  intros Hsync Hamounts Hidx Hinputs Hlen. unfold generateProof.
  replace ((paymentIndex <? 0) || (paymentIndex >=? len (stealthPayments this)))
    with false by (symmetry; apply orb_false_iff; lia).
  destruct (lookup_in_range _ _ Hidx) as [payment Hpay]. rewrite Hpay.
  assert (Hamount : wf SHADOW_PRIME (amount payment)).
  { rewrite Forall_forall in Hamounts. apply Hamounts.
    unfold lookup in Hpay. destruct (paymentIndex <? 0); [discriminate|].
    eapply nth_error_In; eauto. }
  destruct Hsync as [Ht|[Hnil _]];
    [|rewrite Hnil in Hidx; unfold len in Hidx; simpl in Hidx; lia].
  rewrite Ht.
  destruct (getProof_in_range (map commitment (stealthPayments this))
                              paymentIndex) as [mp Emp].
  { unfold len in *. rewrite length_map. exact Hidx. }
  rewrite Emp.
  (* the bundle *)
  unfold generateZKProof.
  rewrite new_FieldElement_pos by exact SHADOW_PRIME_pos.
  set (trace := amount payment
                :: mkFE (timestamp payment mod SHADOW_PRIME) SHADOW_PRIME
                :: inputs).
  destruct (trace_points trace) as (points & Epts & Hne & Hwf & Hnd).
  { unfold trace, len in *. simpl length. lia. }
  { unfold trace. constructor; [exact Hamount|].
    constructor; [apply (wf_F SHADOW_PRIME SHADOW_PRIME_pos) | exact Hinputs]. }
  rewrite Epts.
  destruct (interpolate_ok points (Hne ltac:(discriminate)) Hwf Hnd)
    as (poly & Epoly & Hpoly).
  rewrite Epoly.
  destruct (sampleEvaluations_ok poly Hpoly 8 e)
    as (evaluations & e' & Esample & Hl8).
  rewrite Esample.
  set (leaves := map toBytes evaluations).
  assert (Hleaves : len leaves = 8)
    by (unfold leaves, len; rewrite length_map, Hl8; reflexivity).
  destruct (getProof_in_range leaves 0 ltac:(lia)) as [p0 Ep0].
  destruct (getProof_sound leaves 0 p0 Ep0) as (_ & Eroot & _ & _).
  rewrite Eroot. cbn [bind].
  destruct (fiatShamir_ok (root p0) inputs) as [c Ec]. rewrite Ec.
  cbn [bind].
  destruct (mapM_ok (getProof (new_MerkleTree leaves)) queryIndices)
    as (proofs & Eproofs & _).
  { intros i Hi. apply getProof_in_range. rewrite Hleaves.
    unfold queryIndices in Hi. cbn [In] in Hi. lia. }
  rewrite Eproofs. cbn [bind].
  destruct (mapM_ok (elem evaluations) queryIndices) as (resp & Eresp & _).
  { intros i Hi. unfold elem.
    destruct (lookup_in_range evaluations i) as [x Ex].
    - unfold len. rewrite Hl8. unfold queryIndices in Hi. cbn [In] in Hi. lia.
    - rewrite Ex. eauto. }
  rewrite Eresp. cbn [bind]. eauto.
Qed.

(** C1: on a ledger holding a single payment (made by [createPayment] or
    by a batch of one), [generateProof(0, inputs)] on public inputs of the
    field returns a bundle, and [verifyProof] of that bundle against
    [getRoot()] is true. The second half of C1 fails on the code:
    [verifyProof] reads neither the commitment nor the response of the
    bundle, so whatever bytes and values replace them the answer is still
    true, where C1 and the test [should reject invalid proof] of
    [src/tests/field.test.ts] expect false. *)
Theorem single_payment_proof_verifies
        (now : Z) (dateNow : clock)
        (stealthAddress : bytes) (amount : Z) (timestamp : option Z)
        (this : X402StealthPayment) (payment : StealthPayment)
        (inputs : list FieldElement) (e : entropy) :
  createPayment new_X402StealthPayment now stealthAddress amount timestamp
  = (this, Ok payment)
  \/ createBatchPayments new_X402StealthPayment dateNow
       [mkRequest stealthAddress amount timestamp]
     = (this, Ok [payment]) ->
  Forall (wf SHADOW_PRIME) inputs ->
  len inputs + 2 <= SHADOW_PRIME ->
  stealthPayments this = [payment]
  /\ exists proof e' expectedRoot,
      generateProof this 0 inputs e = (Ok proof, e')
      /\ X402.getRoot this = Some expectedRoot
      /\ verifyProof proof expectedRoot = Ok true
      /\ forall commitment' response',
          verifyProof
            (mkStealthProof commitment' (merkleProof proof)
               (mkZKProof (polynomialCommitment (zkProof proof))
                          (evaluationProofs (zkProof proof))
                          (challenge (zkProof proof)) response')
               (publicInput proof))
            expectedRoot
          = Ok true.
Proof.
  intros Hmade Hinputs Hlen.
  assert (Hthis : in_sync this /\ stealthPayments this = [payment]
                  /\ wf SHADOW_PRIME (X402.amount payment)).
  { assert (Hmk : forall a m t p, makePayment a m t = Ok p ->
                                  wf SHADOW_PRIME (X402.amount p)).
    { intros a m t p. unfold makePayment.
      destruct (Validation.validateStealthAddress _ _); [|discriminate].
      destruct (Validation.validateBigInt m _ _ _); [|discriminate].
      destruct (Validation.validateBigInt t _ _ _); [|discriminate].
      cbn [bind]. rewrite new_FieldElement_pos by exact SHADOW_PRIME_pos.
      cbn [bind]. intros E.
      apply (f_equal (fun r => match r with
                               | Ok q => X402.amount q
                               | Throw _ => F SHADOW_PRIME m
                               end)) in E.
      rewrite <- E. apply (wf_F SHADOW_PRIME SHADOW_PRIME_pos). }
    destruct Hmade as [Hc|Hb].
    - unfold createPayment in Hc.
      destruct (makePayment _ _ _) as [p|] eqn:Ep; [|discriminate].
      injection Hc as <- <-. split; [left; reflexivity|].
      split; [reflexivity | eapply Hmk; eauto].
    - unfold createBatchPayments in Hb.
      change (len [mkRequest stealthAddress amount timestamp] =? 0)
        with false in Hb.
      cbn [batchLoop req_stealthAddress req_amount req_timestamp] in Hb.
      destruct (makePayment _ _ _) as [p|] eqn:Ep; [|discriminate].
      injection Hb as <- <-. split; [left; reflexivity|].
      split; [reflexivity | eapply Hmk; eauto]. }
  destruct Hthis as (Hsync & Hone & Hamount). split; [exact Hone|].
  destruct (generateProof_ok this 0 inputs e Hsync) as (proof & e' & Hgen);
    [rewrite Hone; constructor; [exact Hamount | constructor]
    | rewrite Hone; unfold len; simpl; lia
    | exact Hinputs | exact Hlen |].
  destruct (verifyProof_generated _ _ _ _ _ _ Hsync Hgen)
    as (expectedRoot & Hroot & Hver).
  exists proof, e', expectedRoot.
  split; [exact Hgen|]. split; [exact Hroot|]. split; [|exact Hver].
  rewrite (proof_eta proof). apply Hver.
Qed.

End Generation.

(** The run of the test: after [proof.commitment = new Uint8Array(32)]
    the bundle still passes. *)
Lemma single_payment_proof_verifies_witness :
  exists proof e' expectedRoot,
    @X402.generateProof Run.hash Run.ledger 0 Run.inputs Run.stream
    = (Ok proof, e')
    /\ X402.getRoot Run.ledger = Some expectedRoot
    /\ @X402.verifyProof Run.hash proof expectedRoot = Ok true
    /\ @X402.verifyProof Run.hash (Run.blanked proof) expectedRoot = Ok true.
Proof.
  destruct (@single_payment_proof_verifies Run.hash sha256_digest_nonempty
              0 (fun _ => 0) Run.address 5 (Some 7)
              Run.ledger Run.payment Run.inputs Run.stream)
    as (_ & proof & e' & expectedRoot & Hgen & Hroot & Hver & Hany).
  - left. unfold Run.ledger, Run.payment.
    rewrite (createPayment_valid (H := Run.hash)
               X402.new_X402StealthPayment 0 Run.address 5 (Some 7))
      by (reflexivity || lia).
    reflexivity.
  - repeat constructor; vm_compute; discriminate.
  - vm_compute. discriminate.
  - exists proof, e', expectedRoot.
    split; [exact Hgen|]. split; [exact Hroot|]. split; [exact Hver|].
    exact (Hany (repeat x00 32) (X402.response (X402.zkProof proof))).
Defined.

(* ===================================================================== *)
(** * Further properties of the field *)
(* ===================================================================== *)

Section FieldOperations.
Import Field.

(** X1: the constructor brings any integer, negative ones included, to its
    representative in [0, modulus) when the modulus is positive; with the
    modulus [0n] it throws the [RangeError] of the bigint division. *)
Theorem new_FieldElement_canonical (v m : Z) :
  (0 < m ->
   new_FieldElement v m = Ok (mkFE (v mod m) m) /\ 0 <= v mod m < m)
  /\ (m = 0 -> new_FieldElement v m = Throw RangeError).
Proof.
  split.
  - intros Hm. split; [|apply Z.mod_pos_bound; exact Hm].
    apply (new_FieldElement_F m Hm).
  - intros ->. unfold new_FieldElement.
    assert (E : (v <? 0) || (v >=? 0) = true).
    { destruct (Z.ltb_spec v 0); [reflexivity|].
      rewrite Z.geb_leb. simpl. apply Z.leb_le. assumption. }
    rewrite E. reflexivity.
Qed.

(** X2: on two elements of the same field, [add], [sub], [mul] and [neg]
    return the sum, difference, product and opposite modulo the modulus,
    again in range; [add], [sub] and [mul] throw on elements of different
    moduli. *)
Theorem field_operations_modular (a b : FieldElement) :
  (forall m, wf m a -> wf m b ->
     add a b = Ok (mkFE ((value a + value b) mod m) m)
     /\ sub a b = Ok (mkFE ((value a - value b) mod m) m)
     /\ mul a b = Ok (mkFE ((value a * value b) mod m) m)
     /\ neg a = Ok (mkFE ((- value a) mod m) m))
  /\ (modulus a <> modulus b ->
      add a b
      = Throw (Error "Cannot add field elements with different moduli")
      /\ sub a b
         = Throw (Error "Cannot subtract field elements with different moduli")
      /\ mul a b
         = Throw (Error "Cannot multiply field elements with different moduli")).
Proof.
  split.
  - intros m Ha Hb.
    assert (Hm : 0 < m) by (destruct Ha as [_ Ha]; lia).
    pose proof (wf_is_F m a Ha) as Ea. pose proof (wf_is_F m b Hb) as Eb.
    pose proof (add_F m Hm (value a) (value b)) as Hadd.
    pose proof (sub_F m Hm (value a) (value b)) as Hsub.
    pose proof (mul_F m Hm (value a) (value b)) as Hmul.
    pose proof (neg_F m Hm (value a)) as Hneg.
    rewrite <- Ea in Hadd, Hsub, Hmul, Hneg.
    rewrite <- Eb in Hadd, Hsub, Hmul.
    repeat split; assumption.
  - intros Hne. unfold add, sub, mul.
    destruct (Z.eqb_spec (modulus a) (modulus b)); [contradiction|].
    repeat split.
Qed.

Lemma field_operations_modular_witness :
  add (mkFE 5 7) (mkFE 4 7) = Ok (mkFE 2 7)
  /\ sub (mkFE 5 7) (mkFE 11 13)
     = Throw (Error "Cannot subtract field elements with different moduli").
Proof.
  split.
  - apply (proj1 (field_operations_modular (mkFE 5 7) (mkFE 4 7)) 7);
      split; cbn; (reflexivity || lia).
  - apply (proj2 (field_operations_modular (mkFE 5 7) (mkFE 11 13))).
    cbn. discriminate.
Defined.

(** [inverse] on an element of a field returns the gcd's Bezout
    coefficient or throws, according to the gcd of value and modulus. *)
Lemma inverse_not_coprime (m : Z) (a : FieldElement) :
  wf m a -> Z.gcd (value a) m <> 1 ->
  inverse a = Throw (Error "Field element is not invertible").
Proof.
  intros [Em Ha] Hg. unfold inverse. rewrite Em.
  assert (Hm : 0 < m) by lia.
  pose proof (inverse_loop_spec m Hm (value a) (value a) m 1 0
                ltac:(lia) ltac:(lia)) as Hloop.
  destruct (inverse_loop (value a) m 1 0) as [g t].
  destruct Hloop as [Eg _].
  - rewrite Z.mul_1_l. reflexivity.
  - rewrite Z.mul_0_l, Z.mod_same, Z.mod_0_l by lia. reflexivity.
  - assert (Hpos : 0 <= Z.gcd (value a) m) by apply Z.gcd_nonneg.
    assert (Hnz : Z.gcd (value a) m <> 0).
    { intros E. apply Z.gcd_eq_0_r in E. lia. }
    destruct (Z.gtb_spec g 1); [reflexivity | lia].
Qed.

Lemma inverse_coprime (m : Z) (a : FieldElement) :
  wf m a -> Z.gcd (value a) m = 1 ->
  exists i, inverse a = Ok i /\ wf m i /\ mul a i = one m
            /\ mul i a = one m.
Proof.
  intros Ha Hg.
  assert (Hm : 0 < m) by (destruct Ha as [_ Ha]; lia).
  pose proof (wf_is_F m a Ha) as Ea.
  destruct (inverse_F m Hm (value a)) as (i & Ei & Hi).
  { destruct Ha as [_ Ha]. rewrite Z.mod_small by lia. exact Hg. }
  pose proof (mul_F m Hm (value a) i) as Hl.
  pose proof (mul_F m Hm i (value a)) as Hr.
  rewrite <- Ea in Ei, Hl, Hr.
  exists (F m i). split; [exact Ei|]. split; [apply wf_F; exact Hm|].
  rewrite Hl, Hr. unfold one. rewrite (new_FieldElement_F m Hm).
  split; f_equal; apply (F_eq m); [|rewrite Z.mul_comm]; exact Hi.
Qed.

(** X3: [inverse] returns the multiplicative inverse of an element whose
    value is coprime with the modulus, and throws on every other element,
    zero included when the modulus is above 1. *)
Theorem inverse_spec (m : Z) (a : FieldElement) :
  wf m a ->
  (Z.gcd (value a) m = 1 ->
   exists i, inverse a = Ok i /\ wf m i /\ mul a i = one m
             /\ mul i a = one m)
  /\ (Z.gcd (value a) m <> 1 ->
      inverse a = Throw (Error "Field element is not invertible")).
Proof.
  intros Ha. split.
  - apply inverse_coprime. exact Ha.
  - apply inverse_not_coprime. exact Ha.
Qed.

Lemma inverse_spec_witness :
  (exists i, inverse (mkFE 3 10) = Ok i /\ wf 10 i
             /\ mul (mkFE 3 10) i = one 10 /\ mul i (mkFE 3 10) = one 10)
  /\ inverse (mkFE 4 10) = Throw (Error "Field element is not invertible").
Proof.
  split.
  - apply (proj1 (inverse_spec 10 (mkFE 3 10) ltac:(split; cbn; lia))).
    reflexivity.
  - apply (proj2 (inverse_spec 10 (mkFE 4 10) ltac:(split; cbn; lia))).
    vm_compute. discriminate.
Defined.

End FieldOperations.

Section FieldPowers.
Import Field.

Variable m : Z.
Hypothesis m_pos : 0 < m.

Lemma mul_wf (a b : FieldElement) :
  wf m a -> wf m b -> mul a b = Ok (F m (value a * value b)).
Proof.
  intros Ha Hb. pose proof (mul_F m m_pos (value a) (value b)) as E.
  rewrite <- (wf_is_F m a Ha), <- (wf_is_F m b Hb) in E. exact E.
Qed.

Lemma square_power (b q : Z) :
  0 <= q -> ((b * b) mod m) ^ q mod m = b ^ (2 * q) mod m.
Proof.
  intros Hq. rewrite <- Zpower_mod by exact m_pos.
  rewrite Z.pow_mul_r by lia. rewrite Z.pow_2_r. reflexivity.
Qed.

(** The invariant of the square-and-multiply loop of [pow]. *)
Lemma pow_loop_spec : forall acc base exponent,
  wf m acc -> wf m base -> 0 <= exponent ->
  pow_loop acc base exponent
  = Ok (F m (value acc * value base ^ exponent)).
Proof.
  intros acc base exponent. funelim (pow_loop acc base exponent).
  - intros Hacc _ He. assert (exponent = 0) by lia. subst exponent.
    rewrite Z.pow_0_r, Z.mul_1_r. f_equal. apply wf_is_F. exact Hacc.
  - intros Hacc Hbase _. exfalso.
    destruct (Z.rem exponent 2 =? 1); [|discriminate].
    rewrite (mul_wf _ _ Hacc Hbase) in Heq. discriminate.
  - intros Hacc Hbase He.
    rewrite (mul_wf _ _ Hbase Hbase) in Heq.
    apply (f_equal (fun r => match r with Ok x => x | Throw _ => base end))
      in Heq. subst base'.
    assert (Hq : 0 <= Z.quot exponent 2) by (apply Z.quot_pos; lia).
    assert (Hacc' : wf m acc' /\
                    value acc' = (value acc * value base ^ Z.rem exponent 2) mod m).
    { pose proof (Z.rem_bound_pos exponent 2 ltac:(lia) ltac:(lia)) as Hr.
      destruct (Z.eqb_spec (Z.rem exponent 2) 1) as [E1|E1].
      - rewrite (mul_wf _ _ Hacc Hbase) in Heq0.
        apply (f_equal (fun r => match r with Ok x => x | Throw _ => base end))
          in Heq0. subst acc'. split; [apply wf_F; exact m_pos|].
        rewrite E1, Z.pow_1_r. reflexivity.
      - apply (f_equal (fun r => match r with Ok x => x | Throw _ => base end))
          in Heq0. subst acc'. split; [exact Hacc|].
        assert (E0 : Z.rem exponent 2 = 0) by lia.
        rewrite E0, Z.pow_0_r, Z.mul_1_r.
        destruct Hacc as [_ Hacc]. rewrite Z.mod_small by lia. reflexivity. }
    destruct Hacc' as [Hwf Eacc].
    rewrite (H Hwf (wf_F m m_pos _) Hq).
    f_equal. apply (F_eq m). cbn [F value].
    rewrite Eacc.
    rewrite Z.mul_mod, square_power by (lia || exact Hq).
    rewrite Z.mod_mod by lia. rewrite <- Z.mul_mod by lia.
    rewrite <- Z.mul_assoc, <- Z.pow_add_r by
        (try apply Z.rem_nonneg; lia).
    do 2 f_equal. f_equal.
    pose proof (Z.quot_rem' exponent 2). lia.
  - intros _ Hbase _. exfalso.
    rewrite (mul_wf _ _ Hbase Hbase) in Heq. discriminate.
Qed.

Lemma pow_nonneg (a : FieldElement) (exponent : Z) :
  wf m a -> 0 <= exponent ->
  pow a exponent = Ok (F m (value a ^ exponent)).
Proof.
  intros Ha He. unfold pow.
  destruct (Z.ltb_spec exponent 0); [lia|].
  destruct Ha as [Em Ha]. rewrite Em. unfold one.
  rewrite (new_FieldElement_F m m_pos). cbn [bind].
  rewrite pow_loop_spec; [| apply wf_F; exact m_pos | split; assumption | exact He].
  f_equal. apply (F_eq m). cbn [F value].
  rewrite Z.mul_mod_idemp_l by lia. rewrite Z.mul_1_l. reflexivity.
Qed.

End FieldPowers.

(** X4: [pow] with an exponent that is not negative returns the power of
    the value modulo the modulus, [one] for the exponent 0 whatever the
    base; with a negative exponent it returns the inverse of that power when
    the value is coprime with the modulus and throws otherwise. *)
Theorem pow_spec (m : Z) (a : Field.FieldElement) (exponent : Z) :
  wf m a ->
  (0 <= exponent ->
   Field.pow a exponent = Ok (Field.mkFE (Field.value a ^ exponent mod m) m))
  /\ (exponent < 0 -> Z.gcd (Field.value a) m = 1 ->
      exists r, Field.pow a exponent = Ok r /\ wf m r
                /\ (Field.value r * Field.value a ^ (- exponent)) mod m
                   = 1 mod m)
  /\ (exponent < 0 -> Z.gcd (Field.value a) m <> 1 ->
      Field.pow a exponent
      = Throw (Error "Field element is not invertible")).
Proof.
  intros Ha.
  assert (Hm : 0 < m) by (destruct Ha as [_ Ha]; lia).
  split; [|split].
  - intros He. apply (pow_nonneg m Hm a exponent Ha He).
  - intros He Hg.
    destruct (inverse_coprime m a Ha Hg) as (i & Ei & Hi & Hmul & _).
    unfold Field.pow. destruct (Z.ltb_spec exponent 0); [|lia].
    rewrite Ei. cbn [bind]. destruct Hi as [Em Hi]. rewrite Em.
    unfold Field.one. rewrite (new_FieldElement_F m Hm). cbn [bind].
    rewrite (pow_loop_spec m Hm);
      [| apply wf_F; exact Hm | split; assumption | lia].
    eexists. split; [reflexivity|]. split; [apply wf_F; exact Hm|].
    cbn [F Field.value].
    rewrite (mul_wf m Hm a i Ha (conj Em Hi)) in Hmul.
    unfold Field.one in Hmul. rewrite (new_FieldElement_F m Hm) in Hmul.
    apply (f_equal (fun r => match r with
                             | Ok x => Field.value x
                             | Throw _ => 0
                             end)) in Hmul.
    cbn [F Field.value] in Hmul.
    rewrite Z.mul_mod_idemp_l by lia.
    rewrite <- Z.mul_assoc, Z.mul_mod_idemp_l, Z.mul_1_l by lia.
    rewrite <- Z.pow_mul_l, (Z.mul_comm (Field.value i)).
    rewrite Zpower_mod, Hmul, <- Zpower_mod by exact Hm.
    rewrite Z.pow_1_l by lia. reflexivity.
  - intros He Hg. unfold Field.pow.
    destruct (Z.ltb_spec exponent 0); [|lia].
    rewrite (inverse_not_coprime m a Ha Hg). reflexivity.
Qed.

Lemma pow_spec_witness :
  Field.pow (Field.mkFE 3 7) 4 = Ok (Field.mkFE 4 7)
  /\ Field.pow (Field.mkFE 4 10) (-1)
     = Throw (Error "Field element is not invertible").
Proof.
  split.
  - apply (proj1 (pow_spec 7 (Field.mkFE 3 7) 4 ltac:(split; cbn; lia))).
    lia.
  - apply (proj2 (proj2 (pow_spec 10 (Field.mkFE 4 10) (-1)
                           ltac:(split; cbn; lia)))).
    + lia.
    + vm_compute. discriminate.
Defined.

Section PrimeField.
Import Field.

Variable p : Z.
Hypothesis p_prime : Z.prime p.

Lemma prime_pos : 0 < p.
Proof. destruct p_prime. lia. Qed.

Lemma nonzero_coprime (a : FieldElement) :
  wf p a -> value a <> 0 -> Z.gcd (value a) p = 1.
Proof.
  intros [_ Ha] Hnz. rewrite Z.gcd_comm.
  apply (Z.coprime_prime_small p (value a) p_prime). lia.
Qed.

Lemma zero_not_coprime (a : FieldElement) :
  wf p a -> value a = 0 -> Z.gcd (value a) p <> 1.
Proof.
  intros _ ->. rewrite Z.gcd_0_l. destruct p_prime. lia.
Qed.

(** Division undoes multiplication in a prime field. *)
Lemma div_cancel (a b : FieldElement) :
  wf p a -> wf p b -> value b <> 0 ->
  exists q, div a b = Ok q /\ wf p q /\ mul q b = Ok a.
Proof.
  intros Ha Hb Hnz. pose proof prime_pos as Hp.
  destruct (inverse_coprime p b Hb (nonzero_coprime b Hb Hnz))
    as (i & Ei & Hi & Hbi & _).
  unfold div. rewrite Ei. cbn [bind].
  rewrite (mul_wf p Hp a i Ha Hi).
  eexists. split; [reflexivity|]. split; [apply wf_F; exact Hp|].
  rewrite (mul_wf p Hp _ b (wf_F p Hp _) Hb).
  rewrite (wf_is_F p a Ha) at 2. f_equal. apply (F_eq p). cbn [F value].
  rewrite (mul_wf p Hp b i Hb Hi) in Hbi.
  unfold one in Hbi. rewrite (new_FieldElement_F p Hp) in Hbi.
  apply (f_equal (fun r => match r with
                           | Ok x => value x
                           | Throw _ => 0
                           end)) in Hbi.
  cbn [F value] in Hbi.
  rewrite Z.mul_mod_idemp_l by lia.
  rewrite <- Z.mul_assoc, (Z.mul_comm (value i)).
  rewrite <- Z.mul_mod_idemp_r, Hbi, Z.mul_mod_idemp_r by lia.
  rewrite Z.mul_1_r. reflexivity.
Qed.

Lemma div_by_zero (a b : FieldElement) :
  wf p b -> value b = 0 ->
  div a b = Throw (Error "Field element is not invertible").
Proof.
  intros Hb Hz. unfold div.
  rewrite (inverse_not_coprime p b Hb (zero_not_coprime b Hb Hz)).
  reflexivity.
Qed.

(** Fermat's little theorem, through [pow]. *)
Lemma pow_fermat (a : FieldElement) :
  wf p a -> value a <> 0 -> pow a (p - 1) = Ok (mkFE 1 p).
Proof.
  intros Ha Hnz. pose proof prime_pos as Hp.
  assert (Hp1 : 1 < p) by (destruct p_prime; lia).
  rewrite (pow_nonneg p Hp a (p - 1) Ha) by lia.
  unfold F. rewrite ZmodInv.Z.fermat_nz; [reflexivity | exact p_prime |].
  destruct Ha as [_ Ha]. rewrite Z.mod_small by lia. exact Hnz.
Qed.

(** [pow] with the exponent [p - 2] is [inverse]. *)
Lemma pow_inverse (a : FieldElement) :
  wf p a -> value a <> 0 -> pow a (p - 2) = inverse a.
Proof.
  intros Ha Hnz. pose proof prime_pos as Hp.
  assert (Hp1 : 1 < p) by (destruct p_prime; lia).
  destruct (inverse_coprime p a Ha (nonzero_coprime a Ha Hnz))
    as (i & Ei & Hi & Hai & _).
  rewrite Ei. rewrite (pow_nonneg p Hp a (p - 2) Ha) by lia.
  rewrite (wf_is_F p i Hi). f_equal. apply (F_eq p).
  rewrite (mul_wf p Hp a i Ha Hi) in Hai.
  unfold one in Hai. rewrite (new_FieldElement_F p Hp) in Hai.
  apply (f_equal (fun r => match r with
                           | Ok x => value x
                           | Throw _ => 0
                           end)) in Hai.
  cbn [F value] in Hai.
  assert (Hf : value a ^ (p - 1) mod p = 1).
  { apply ZmodInv.Z.fermat_nz; [exact p_prime|].
    destruct Ha as [_ Ha]. rewrite Z.mod_small by lia. exact Hnz. }
  replace (p - 1) with (p - 2 + 1) in Hf by ring.
  rewrite Z.pow_add_r, Z.pow_1_r in Hf by lia.
  (* a^(p-2) = a^(p-2) * (a * i) = (a^(p-2) * a) * i = i  (mod p) *)
  rewrite <- (Z.mul_1_r (value a ^ (p - 2))).
  rewrite <- Z.mul_mod_idemp_r by lia.
  replace (1 mod p) with ((value a * value i) mod p)
    by (rewrite Hai; reflexivity).
  rewrite Z.mul_mod_idemp_r, Z.mul_assoc by lia.
  rewrite <- Z.mul_mod_idemp_l, Hf by lia.
  rewrite Z.mul_1_l. reflexivity.
Qed.

End PrimeField.

(** X5: in the reference field every element but zero can be divided by:
    [a.div(b).mul(b)] is [a]; dividing by zero throws. *)
Theorem div_in_reference_field (a b : Field.FieldElement) :
  wf Field.SHADOW_PRIME a -> wf Field.SHADOW_PRIME b ->
  (Field.value b <> 0 ->
   exists q, Field.div a b = Ok q /\ wf Field.SHADOW_PRIME q
             /\ Field.mul q b = Ok a)
  /\ (Field.value b = 0 ->
      Field.div a b = Throw (Error "Field element is not invertible")).
Proof.
  intros Ha Hb. split.
  - apply (div_cancel _ SHADOW_PRIME_prime a b Ha Hb).
  - apply (div_by_zero _ SHADOW_PRIME_prime a b Hb).
Qed.

Lemma div_in_reference_field_witness :
  (exists q, Field.div (Field.mkFE 6 Field.SHADOW_PRIME)
                       (Field.mkFE 3 Field.SHADOW_PRIME) = Ok q
             /\ wf Field.SHADOW_PRIME q
             /\ Field.mul q (Field.mkFE 3 Field.SHADOW_PRIME)
                = Ok (Field.mkFE 6 Field.SHADOW_PRIME))
  /\ Field.div (Field.mkFE 6 Field.SHADOW_PRIME)
               (Field.mkFE 0 Field.SHADOW_PRIME)
     = Throw (Error "Field element is not invertible").
Proof.
  assert (H6 : wf Field.SHADOW_PRIME (Field.mkFE 6 Field.SHADOW_PRIME))
    by (split; [reflexivity | vm_compute; split; [discriminate | reflexivity]]).
  assert (H3 : wf Field.SHADOW_PRIME (Field.mkFE 3 Field.SHADOW_PRIME))
    by (split; [reflexivity | vm_compute; split; [discriminate | reflexivity]]).
  assert (H0 : wf Field.SHADOW_PRIME (Field.mkFE 0 Field.SHADOW_PRIME))
    by (split; [reflexivity | vm_compute; split; [discriminate | reflexivity]]).
  split.
  - apply (proj1 (div_in_reference_field _ _ H6 H3)). discriminate.
  - apply (proj2 (div_in_reference_field _ _ H6 H0)). reflexivity.
Defined.

(** X6: in the reference field [a.pow(SHADOW_PRIME - 1)] is [one] for
    every element but zero, and [a.pow(SHADOW_PRIME - 2)] is
    [a.inverse()]. *)
Theorem pow_fermat_reference_field (a : Field.FieldElement) :
  wf Field.SHADOW_PRIME a -> Field.value a <> 0 ->
  Field.pow a (Field.SHADOW_PRIME - 1) = Field.one Field.SHADOW_PRIME
  /\ Field.pow a (Field.SHADOW_PRIME - 2) = Field.inverse a.
Proof.
  intros Ha Hnz. split.
  - rewrite (pow_fermat _ SHADOW_PRIME_prime a Ha Hnz). reflexivity.
  - apply (pow_inverse _ SHADOW_PRIME_prime a Ha Hnz).
Qed.

Lemma pow_fermat_reference_field_witness :
  Field.pow (Field.mkFE 3 Field.SHADOW_PRIME) (Field.SHADOW_PRIME - 1)
  = Field.one Field.SHADOW_PRIME
  /\ Field.pow (Field.mkFE 3 Field.SHADOW_PRIME) (Field.SHADOW_PRIME - 2)
     = Field.inverse (Field.mkFE 3 Field.SHADOW_PRIME).
Proof.
  apply pow_fermat_reference_field.
  - split; [reflexivity | vm_compute; split; [discriminate | reflexivity]].
  - discriminate.
Defined.

(* ===================================================================== *)
(** * Further properties of polynomials *)
(* ===================================================================== *)

Section PolyOperations.
Import Field Poly.

Variable m : Z.
Hypothesis m_pos : 0 < m.
Hypothesis m_default : m = SHADOW_PRIME.

Lemma series_sub (f g : nat -> Z) (n : nat) (x : Z) :
  series (fun i => f i - g i) n x = series f n x - series g n x.
Proof.
  rewrite (series_ext _ (fun i => f i + -1 * g i)) by (intros; ring).
  rewrite series_add, series_scale. ring.
Qed.

(** [sub] returns the difference. *)
Lemma sub_spec (p q : Polynomial) :
  wfP m p -> wfP m q ->
  Poly.sub p q
  = Ok (new_Polynomial
          (map (fun i => F m (nth i (values p) 0 - nth i (values q) 0))
               (seq 0 (Nat.max (length (coefficients p))
                               (length (coefficients q)))))).
Proof.
  intros Hp Hq. unfold Poly.sub.
  rewrite (modulus_of_wfP m m_pos m_default p Hp).
  set (n := Nat.max (length (coefficients p)) (length (coefficients q))).
  replace (Z.max (len (coefficients p)) (len (coefficients q)))
    with (Z.of_nat n) by (unfold n, len; lia).
  rewrite range_of_nat, mapM_map.
  rewrite (mapM_pure _ (fun i => F m (nth i (values p) 0 - nth i (values q) 0))).
  2:{ intros i _. rewrite !(coeff_or_zero_spec m m_pos) by assumption.
      cbn [bind]. apply sub_F. exact m_pos. }
  reflexivity.
Qed.

Lemma sub_value (p q : Polynomial) :
  wfP m p -> wfP m q ->
  exists r, Poly.sub p q = Ok r /\ wfP m r
            /\ forall x, pval r x mod m = (pval p x - pval q x) mod m.
Proof.
  intros Hp Hq. rewrite (sub_spec p q Hp Hq).
  eexists. split; [reflexivity|]. split.
  - apply (wfP_new m). apply (wf_map_F m m_pos).
  - intros x. rewrite pval_new, (values_F m), hornerZ_map_series, series_mod.
    rewrite series_sub.
    rewrite !series_nth by (unfold values; rewrite length_map; lia).
    reflexivity.
Qed.

Lemma evaluate_wf (p : Polynomial) (x : FieldElement) :
  wfP m p -> wf m x -> evaluate p x = Ok (F m (pval p (value x))).
Proof.
  intros Hp Hx. pose proof (evaluate_spec m m_pos p (value x) Hp) as E.
  rewrite <- (wf_is_F m x Hx) in E. exact E.
Qed.

Lemma evaluate_add_sub (p q : Polynomial) (x : FieldElement) :
  wfP m p -> wfP m q -> wf m x ->
  exists s d vp vq,
    Poly.add p q = Ok s /\ Poly.sub p q = Ok d
    /\ evaluate p x = Ok vp /\ evaluate q x = Ok vq
    /\ evaluate s x = Field.add vp vq
    /\ evaluate d x = Field.sub vp vq.
Proof.
  intros Hp Hq Hx.
  destruct (add_spec m m_pos m_default p q Hp Hq) as (s & Es & Hs & Vs).
  destruct (sub_value p q Hp Hq) as (d & Ed & Hd & Vd).
  exists s, d, (F m (pval p (value x))), (F m (pval q (value x))).
  rewrite Es, Ed, !evaluate_wf by assumption.
  rewrite (add_F m m_pos), (sub_F m m_pos).
  repeat split; f_equal; apply (F_eq m); [apply Vs | apply Vd].
Qed.

Lemma evaluate_mul (p q : Polynomial) (x : FieldElement) :
  wfP m p -> wfP m q -> wf m x ->
  exists r vp vq,
    Poly.mul p q = Ok r
    /\ evaluate p x = Ok vp /\ evaluate q x = Ok vq
    /\ evaluate r x = Field.mul vp vq.
Proof.
  intros Hp Hq Hx.
  destruct (mul_spec m m_pos m_default p q Hp Hq) as (r & Er & Hr & Vr).
  exists r, (F m (pval p (value x))), (F m (pval q (value x))).
  rewrite Er, !evaluate_wf by assumption.
  rewrite (mul_F m m_pos).
  repeat split; f_equal; apply (F_eq m); apply Vr.
Qed.

Lemma all_zero_is_empty (zs : list FieldElement) :
  Forall (fun c => value c = 0) zs -> new_Polynomial zs = mkPoly [].
Proof.
  intros Hz. unfold new_Polynomial. rewrite pop_zeros_all_zero; [reflexivity|].
  apply forallb_forall. intros c Hc. apply in_rev in Hc.
  rewrite Forall_forall in Hz. unfold isZero. rewrite (Hz c Hc). reflexivity.
Qed.

Lemma sub_self (p : Polynomial) :
  wfP m p -> Poly.sub p p = Ok (mkPoly []).
Proof.
  intros Hp. rewrite (sub_spec p p Hp Hp). f_equal.
  apply all_zero_is_empty. apply Forall_map. apply Forall_forall.
  intros i _. cbn [F value]. rewrite Z.sub_diag. apply Z.mod_0_l. lia.
Qed.

End PolyOperations.

Section PolyStatements.
Import Field Poly.

(** X7: [evaluate] returns the value of the polynomial at the point,
    [c0 + c1 x + c2 x^2 + ...] reduced modulo the modulus, which is zero for
    the polynomial without coefficients; on a first coefficient of another
    modulus than the point's it throws. *)
Theorem evaluate_is_horner (p : Polynomial) (x : FieldElement) :
  (forall m, wfP m p -> wf m x ->
     evaluate p x
     = Ok (mkFE (hornerZ (map value (coefficients p)) (value x) mod m) m))
  /\ (forall c cs, coefficients p = c :: cs ->
        0 < modulus x -> modulus c <> modulus x ->
        evaluate p x
        = Throw (Error "Cannot multiply field elements with different moduli")).
Proof.
  split.
  - intros m Hp Hx.
    assert (Hm : 0 < m) by (destruct Hx as [_ Hx]; lia).
    apply (evaluate_wf m Hm p x Hp Hx).
  - intros c cs E Hm Hne. unfold evaluate. rewrite E.
    rewrite (zero_F _ Hm), (one_F _ Hm). cbn [bind foldM].
    unfold Field.mul at 1. cbn [F modulus].
    destruct (Z.eqb_spec (modulus c) (modulus x)); [contradiction|].
    reflexivity.
Qed.

Lemma evaluate_is_horner_witness :
  evaluate (mkPoly [mkFE 1 7; mkFE 2 7; mkFE 3 7]) (mkFE 2 7)
  = Ok (mkFE 3 7)
  /\ evaluate (mkPoly [mkFE 1 7]) (mkFE 2 11)
     = Throw (Error "Cannot multiply field elements with different moduli").
Proof.
  split.
  - apply (proj1 (evaluate_is_horner
                    (mkPoly [mkFE 1 7; mkFE 2 7; mkFE 3 7]) (mkFE 2 7)) 7).
    + repeat constructor; cbn; lia.
    + split; cbn; lia.
  - apply (proj2 (evaluate_is_horner (mkPoly [mkFE 1 7]) (mkFE 2 11))
             (mkFE 1 7) []); cbn; (reflexivity || lia).
Defined.

(** X8: over the reference field the value of [p.add(q)] at a point is
    the sum of the values of [p] and [q] there, and the value of
    [p.sub(q)] their difference. *)
Theorem add_sub_evaluate (p q : Polynomial) (x : FieldElement) :
  wfP SHADOW_PRIME p -> wfP SHADOW_PRIME q -> wf SHADOW_PRIME x ->
  exists s d vp vq,
    Poly.add p q = Ok s /\ Poly.sub p q = Ok d
    /\ evaluate p x = Ok vp /\ evaluate q x = Ok vq
    /\ evaluate s x = Field.add vp vq
    /\ evaluate d x = Field.sub vp vq.
Proof. apply (evaluate_add_sub SHADOW_PRIME SHADOW_PRIME_pos eq_refl). Qed.

(** X9: over the reference field the value of [p.mul(q)] at a point is
    the product of the values of [p] and [q] there. *)
Theorem mul_evaluate (p q : Polynomial) (x : FieldElement) :
  wfP SHADOW_PRIME p -> wfP SHADOW_PRIME q -> wf SHADOW_PRIME x ->
  exists r vp vq,
    Poly.mul p q = Ok r
    /\ evaluate p x = Ok vp /\ evaluate q x = Ok vq
    /\ evaluate r x = Field.mul vp vq.
Proof. apply (evaluate_mul SHADOW_PRIME SHADOW_PRIME_pos eq_refl). Qed.

(** X10: over the reference field [p.sub(p)] is the polynomial without
    coefficients, of degree -1. *)
Theorem sub_self_is_empty (p : Polynomial) :
  wfP SHADOW_PRIME p ->
  exists d, Poly.sub p p = Ok d /\ coefficients d = [] /\ degree d = -1.
Proof.
  intros Hp. rewrite (sub_self SHADOW_PRIME SHADOW_PRIME_pos eq_refl p Hp).
  exists (mkPoly []). repeat split.
Qed.

End PolyStatements.

(** ** Interpolation: repeated abscissas and the degree *)

Lemma foldM_Ok_step {A B} (body : B -> A -> result B) (l : list A) :
  forall acc r, foldM body l acc = Ok r ->
  forall x, In x l -> exists acc' r', body acc' x = Ok r'.
Proof.
  induction l as [|a l IH]; intros acc r E x Hx; [destruct Hx|].
  cbn [foldM] in E. destruct (body acc a) as [acc1|e] eqn:Ea;
    [|discriminate].
  cbn [bind] in E. destruct Hx as [<-|Hx]; [eauto|].
  apply (IH acc1 r E x Hx).
Qed.

Section InterpolationErrors.
Import Field Poly.

Variable m : Z.
Hypothesis m_big : 1 < m.

Lemma above_one_pos : 0 < m.
Proof. lia. Qed.

Lemma inverse_zero_throws : inverse (F m 0) = Throw not_invertible.
Proof.
  apply (inverse_not_coprime m); [apply wf_F; exact above_one_pos|].
  cbn [F value]. rewrite Z.mod_0_l, Z.gcd_0_l by lia. lia.
Qed.

(** A basis polynomial cannot be built for a point whose abscissa is met
    again at another index. *)
Lemma basis_of_repeated (i j : Z) (xi yj : FieldElement)
      (points : list (FieldElement * FieldElement)) (B : Polynomial) :
  wf m xi -> In (j, (xi, yj)) (indexed points) -> i <> j ->
  basis_of m i xi points <> Ok B.
Proof.
  intros Hxi Hin Hij E. unfold basis_of in E.
  destruct (Poly.one m) as [basis0|]; [|discriminate]. cbn [bind] in E.
  destruct (foldM_Ok_step _ _ _ _ E _ Hin) as (acc' & r' & Estep).
  cbv beta iota in Estep.
  destruct (Z.eqb_spec i j); [contradiction|].
  pose proof (sub_F m above_one_pos (value xi) (value xi)) as Esub.
  rewrite <- (wf_is_F m xi Hxi) in Esub. rewrite Esub in Estep.
  cbn [bind] in Estep.
  destruct (neg xi); [|discriminate]. cbn [bind] in Estep.
  destruct (Field.one m); [|discriminate]. cbn [bind] in Estep.
  destruct (Poly.mul acc' _); [|discriminate]. cbn [bind] in Estep.
  rewrite Z.sub_diag, inverse_zero_throws in Estep. discriminate.
Qed.

Lemma interpolate_Ok_NoDup (points : list (FieldElement * FieldElement))
      (p : Polynomial) :
  (forall x y, In (x, y) points -> wf m x) ->
  interpolate points = Ok p -> NoDup (map fst points).
Proof.
  intros Hwf E. apply NoDup_nth_error. intros i j Hi Eij.
  destruct (Nat.eq_dec i j) as [|Hne]; [assumption|exfalso].
  rewrite length_map in Hi.
  destruct (nth_error points i) as [[xi yi]|] eqn:Ei;
    [|apply nth_error_None in Ei; lia].
  rewrite (map_nth_error fst _ _ Ei) in Eij. symmetry in Eij.
  destruct (nth_error points j) as [[xj yj]|] eqn:Ej;
    [|rewrite nth_error_map, Ej in Eij; discriminate].
  rewrite (map_nth_error fst _ _ Ej) in Eij. cbn [fst] in Eij.
  assert (xj = xi) by congruence. subst xj.
  unfold interpolate in E. destruct points as [|[x0 y0] rest] eqn:Epts;
    [discriminate|]. rewrite <- Epts in *.
  assert (Em : modulus x0 = m).
  { apply (Hwf x0 y0). rewrite Epts. left. reflexivity. }
  rewrite Em in E.
  destruct (Poly.zero m) as [z|]; [|discriminate]. cbn [bind] in E.
  assert (Hini : In (Z.of_nat i, (xi, yi)) (indexed points))
    by (apply indexed_In; eauto).
  assert (Hinj : In (Z.of_nat j, (xi, yj)) (indexed points))
    by (apply indexed_In; eauto).
  destruct (foldM_Ok_step _ _ _ _ E _ Hini) as (acc' & r' & Estep).
  cbv beta iota in Estep.
  destruct (basis_of m (Z.of_nat i) xi points) as [B|] eqn:EB;
    [|discriminate].
  apply (basis_of_repeated (Z.of_nat i) (Z.of_nat j) xi yj points B);
    [ apply (Hwf xi yi); eapply nth_error_In; exact Ei
    | exact Hinj | lia | exact EB ].
Qed.

End InterpolationErrors.

Section InterpolationOutcome.
Import Field Poly.

Variable m : Z.
Hypothesis m_pos : 0 < m.
Hypothesis m_default : m = SHADOW_PRIME.

Lemma inverse_outcome (a : FieldElement) :
  wf m a ->
  (exists i, inverse a = Ok i /\ wf m i) \/ inverse a = Throw not_invertible.
Proof.
  intros Ha. destruct (Z.eq_dec (Z.gcd (value a) m) 1) as [Hg|Hg].
  - left. destruct (inverse_coprime m a Ha Hg) as (i & Ei & Hi & _). eauto.
  - right. apply (inverse_not_coprime m a Ha Hg).
Qed.

Lemma basis_outcome (i : Z) (xi : FieldElement) :
  wf m xi ->
  forall (L : list (Z * (FieldElement * FieldElement))) (B : Polynomial),
    wfP m B ->
    (forall j xj yj, In (j, (xj, yj)) L -> wf m xj) ->
    built_or_not_invertible m
      (foldM (fun basis '(j, (xj, _)) =>
                if i =? j then Ok basis
                else
                  denominator <- Field.sub xi xj ;;
                  nxj <- neg xj ;;
                  o <- Field.one m ;;
                  let numerator := new_Polynomial [nxj; o] in
                  scaled <- Poly.mul basis numerator ;;
                  dinv <- inverse denominator ;;
                  Poly.mul scaled (new_Polynomial [dinv]))
             L B).
Proof.
  intros Hxi. rewrite (one_F m m_pos).
  induction L as [|[j [xj yj]] L IH]; intros B HB HL.
  - left. exists B. split; [reflexivity | exact HB].
  - cbn [foldM].
    assert (HL' : forall j xj yj, In (j, (xj, yj)) L -> wf m xj)
      by (intros j' xj' yj' Hin; apply (HL j' xj' yj'); right; exact Hin).
    pose proof (HL j xj yj (or_introl eq_refl)) as Hxj.
    destruct (Z.eqb_spec i j) as [_|Hij].
    + cbn [bind]. apply IH; assumption.
    + pose proof (sub_F m m_pos (value xi) (value xj)) as Esub.
      rewrite <- (wf_is_F m xi Hxi), <- (wf_is_F m xj Hxj) in Esub.
      pose proof (neg_F m m_pos (value xj)) as Eneg.
      rewrite <- (wf_is_F m xj Hxj) in Eneg.
      rewrite Esub, Eneg. cbn [bind].
      destruct (mul_spec m m_pos m_default B
                  (new_Polynomial [F m (- value xj); F m 1]) HB)
        as (scaled & Es & Hs & _).
      { apply (wfP_new m). repeat constructor; apply wf_F; exact m_pos. }
      rewrite Es. cbn [bind].
      destruct (inverse_outcome (F m (value xi - value xj))
                  (wf_F m m_pos _)) as [(dinv & Ed & Hd)|Ed];
        rewrite Ed; cbn [bind]; [|right; reflexivity].
      destruct (mul_spec m m_pos m_default scaled (new_Polynomial [dinv]) Hs)
        as (B' & EB' & HB' & _).
      { apply (wfP_new m). apply Forall_cons; [exact Hd | apply Forall_nil]. }
      rewrite EB'. cbn [bind]. apply IH; assumption.
Qed.

Lemma basis_of_outcome (i : Z) (xi : FieldElement)
      (points : list (FieldElement * FieldElement)) :
  wf m xi ->
  (forall x y, In (x, y) points -> wf m x /\ wf m y) ->
  built_or_not_invertible m (basis_of m i xi points).
Proof.
  intros Hxi Hwf. unfold basis_of.
  replace (Poly.one m) with (Ok (new_Polynomial [F m 1]))
    by (unfold Poly.one; rewrite (one_F m m_pos); reflexivity).
  cbn [bind]. apply basis_outcome; [exact Hxi | |].
  - apply (wfP_new m). repeat constructor; apply wf_F; exact m_pos.
  - intros j xj yj Hin. apply indexed_In in Hin as (n & _ & En).
    apply (Hwf xj yj). eapply nth_error_In. exact En.
Qed.

Lemma interpolate_outcome (points : list (FieldElement * FieldElement)) :
  points <> [] ->
  (forall x y, In (x, y) points -> wf m x /\ wf m y) ->
  built_or_not_invertible m (interpolate points).
Proof.
  intros Hne Hwf. unfold interpolate.
  destruct points as [|[x0 y0] rest] eqn:Epts; [congruence|].
  rewrite <- Epts in *.
  assert (Em : modulus x0 = m).
  { apply (Hwf x0 y0). rewrite Epts. left. reflexivity. }
  rewrite Em. unfold Poly.zero. rewrite (zero_F m m_pos). cbn [bind].
  assert (Hz : wfP m (new_Polynomial [F m 0])).
  { apply (wfP_new m). repeat constructor; apply wf_F; exact m_pos. }
  assert (HL : forall i xi yi, In (i, (xi, yi)) (indexed points) ->
                               wf m xi /\ wf m yi).
  { intros i xi yi Hin. apply indexed_In in Hin as (n & _ & En).
    apply (Hwf xi yi). eapply nth_error_In. exact En. }
  revert Hz HL. generalize (new_Polynomial [F m 0]).
  induction (indexed points) as [|[i [xi yi]] L IH]; intros R HR HL.
  - left. exists R. split; [reflexivity | exact HR].
  - cbn [foldM].
    destruct (HL i xi yi (or_introl eq_refl)) as [Hxi Hyi].
    destruct (basis_of_outcome i xi points Hxi Hwf) as [(B & EB & HB)|EB].
    + rewrite EB. cbn [bind].
      destruct (mul_spec m m_pos m_default B (new_Polynomial [yi]) HB)
        as (term & Et & Ht & _).
      { apply (wfP_new m). apply Forall_cons; [exact Hyi | apply Forall_nil]. }
      rewrite Et. cbn [bind].
      destruct (add_spec m m_pos m_default R term HR Ht)
        as (R' & ER' & HR' & _).
      rewrite ER'. cbn [bind]. apply IH; [exact HR'|].
      intros i' xi' yi' Hin. apply (HL i' xi' yi'). right. exact Hin.
    + rewrite EB. right. reflexivity.
Qed.

End InterpolationOutcome.

Section InterpolationDegree.
Import Field Poly.

Lemma mapM_length {A B} (f : A -> result B) (l : list A) :
  forall r, mapM f l = Ok r -> length r = length l.
Proof.
  induction l as [|a l IH]; intros r E; cbn [mapM] in E.
  - injection E as <-. reflexivity.
  - destruct (f a); [|discriminate]. cbn [bind] in E.
    destruct (mapM f l) as [r'|]; [|discriminate]. cbn [bind] in E.
    injection E as <-. cbn [length]. rewrite (IH r' eq_refl). reflexivity.
Qed.

Lemma new_Polynomial_length (cs : list FieldElement) :
  (length (coefficients (new_Polynomial cs)) <= length cs)%nat.
Proof.
  destruct (new_Polynomial_split cs) as (zs & E & _).
  rewrite E at 2. rewrite length_app. lia.
Qed.

Lemma range_length (n : Z) : length (range n) = Z.to_nat n.
Proof. unfold range. rewrite length_map, length_seq. reflexivity. Qed.

Lemma add_length (p q r : Polynomial) :
  Poly.add p q = Ok r ->
  (length (coefficients r)
   <= Nat.max (length (coefficients p)) (length (coefficients q)))%nat.
Proof.
  unfold Poly.add. intros E.
  destruct (mapM _ _) as [cs|] eqn:Ecs; [|discriminate]. cbn [bind] in E.
  injection E as <-. apply mapM_length in Ecs. rewrite range_length in Ecs.
  pose proof (new_Polynomial_length cs). unfold len in Ecs. lia.
Qed.

Lemma mul_length (p q r : Polynomial) :
  Poly.mul p q = Ok r ->
  (length (coefficients r)
   <= length (coefficients p) + length (coefficients q) - 1)%nat.
Proof.
  unfold Poly.mul. intros E.
  destruct (mapM _ _) as [cs|] eqn:Ecs; [|discriminate]. cbn [bind] in E.
  injection E as <-. apply mapM_length in Ecs. rewrite range_length in Ecs.
  pose proof (new_Polynomial_length cs). unfold degree, len in Ecs. lia.
Qed.

(** Each factor of a basis polynomial raises its length by one at most,
    and the point itself contributes no factor. *)
Lemma basis_length (m i : Z) (xi : FieldElement) :
  forall (L : list (Z * (FieldElement * FieldElement))) (B B' : Polynomial),
    foldM (fun basis '(j, (xj, _)) =>
             if i =? j then Ok basis
             else
               denominator <- Field.sub xi xj ;;
               nxj <- neg xj ;;
               o <- Field.one m ;;
               let numerator := new_Polynomial [nxj; o] in
               scaled <- Poly.mul basis numerator ;;
               dinv <- inverse denominator ;;
               Poly.mul scaled (new_Polynomial [dinv]))
          L B = Ok B' ->
    (length (coefficients B') <= length (coefficients B) + length L)%nat
    /\ (In i (map fst L) ->
        (length (coefficients B') + 1
         <= length (coefficients B) + length L)%nat).
Proof.
  induction L as [|[j [xj yj]] L IH]; intros B B' E; cbn [foldM] in E.
  - injection E as <-. cbn [length map In]. split; [lia | tauto].
  - destruct (Z.eqb_spec i j) as [<-|Hij].
    + cbn [bind] in E. destruct (IH B B' E) as [Hle _].
      cbn [length]. split; lia.
    + destruct (Field.sub xi xj) as [denominator|]; [|discriminate].
      cbn [bind] in E.
      destruct (neg xj) as [nxj|]; [|discriminate]. cbn [bind] in E.
      destruct (Field.one m) as [o|]; [|discriminate]. cbn [bind] in E.
      cbv zeta in E.
      destruct (Poly.mul B _) as [scaled|] eqn:Es; [|discriminate].
      cbn [bind] in E.
      destruct (inverse denominator) as [dinv|]; [|discriminate].
      cbn [bind] in E.
      destruct (Poly.mul scaled _) as [B1|] eqn:E1; [|discriminate].
      cbn [bind] in E.
      apply mul_length in Es, E1.
      pose proof (new_Polynomial_length [nxj; o]) as Hn.
      pose proof (new_Polynomial_length [dinv]) as Hd.
      cbn [length] in Hn, Hd.
      destruct (IH B1 B' E) as [Hle Hin]. cbn [length map In fst].
      split; [lia|]. intros [Eji|Hi]; [congruence|].
      specialize (Hin Hi). lia.
Qed.

Lemma basis_of_length (m i : Z) (xi : FieldElement)
      (points : list (FieldElement * FieldElement)) (B : Polynomial) :
  In i (map fst (indexed points)) ->
  basis_of m i xi points = Ok B ->
  (length (coefficients B) <= length points)%nat.
Proof.
  intros Hi E. unfold basis_of in E.
  destruct (Poly.one m) as [basis0|] eqn:E0; [|discriminate].
  cbn [bind] in E.
  assert (H0 : (length (coefficients basis0) <= 1)%nat).
  { unfold Poly.one in E0. destruct (Field.one m) as [o|]; [|discriminate].
    cbn [bind] in E0. injection E0 as <-.
    apply (new_Polynomial_length [o]). }
  destruct (basis_length m i xi _ _ _ E) as [_ Hlen].
  specialize (Hlen Hi). rewrite indexed_length in Hlen. lia.
Qed.

Lemma interpolate_length (points : list (FieldElement * FieldElement))
      (p : Polynomial) :
  interpolate points = Ok p ->
  (length (coefficients p) <= length points)%nat.
Proof.
  unfold interpolate. destruct points as [|[x0 y0] rest] eqn:Epts;
    [discriminate|].
  assert (Hpos : (1 <= length points)%nat) by (rewrite Epts; cbn; lia).
  rewrite <- Epts. clear Epts. intros E.
  destruct (Poly.zero (modulus x0)) as [result0|] eqn:E0; [|discriminate].
  cbn [bind] in E.
  assert (H0 : (length (coefficients result0) <= length points)%nat).
  { unfold Poly.zero in E0.
    destruct (Field.zero (modulus x0)) as [z|]; [|discriminate].
    cbn [bind] in E0. injection E0 as <-.
    pose proof (new_Polynomial_length [z]) as Hz. cbn [length] in Hz. lia. }
  clear E0. revert E H0.
  assert (HL : forall i pt, In (i, pt) (indexed points) ->
                            In i (map fst (indexed points)))
    by (intros i pt Hin; apply (in_map fst) in Hin; exact Hin).
  revert HL. generalize (indexed points) at 1 3.
  intros L. revert result0.
  induction L as [|[i [xi yi]] L IH]; intros R HL E HR; cbn [foldM] in E.
  - injection E as <-. exact HR.
  - destruct (basis_of (modulus x0) i xi points) as [B|] eqn:EB;
      [|discriminate]. cbn [bind] in E.
    destruct (Poly.mul B _) as [term|] eqn:Et; [|discriminate].
    cbn [bind] in E.
    destruct (Poly.add R term) as [R'|] eqn:ER; [|discriminate].
    cbn [bind] in E.
    apply basis_of_length in EB;
      [|apply (HL i (xi, yi)); left; reflexivity].
    apply mul_length in Et. apply add_length in ER.
    pose proof (new_Polynomial_length [yi]) as Hy. cbn [length] in Hy.
    apply (IH R'); [|exact E|lia].
    intros j pt Hin. apply (HL j pt). right. exact Hin.
Qed.

End InterpolationDegree.

Section ProductDegree.
Import Field Poly.

Variable m : Z.
Hypothesis m_prime : Z.prime m.
Hypothesis m_default : m = SHADOW_PRIME.

Lemma bigsum_ext (f g : nat -> Z) : forall n,
  (forall j, (j < n)%nat -> f j = g j) -> bigsum f n = bigsum g n.
Proof.
  induction n as [|n IH]; intros E; [reflexivity|].
  rewrite !bigsum_S_r, IH, (E n) by (try lia; intros j Hj; apply E; lia).
  reflexivity.
Qed.

Lemma bigsum_single (f : nat -> Z) (k : nat) : forall n,
  (k < n)%nat -> (forall j, (j < n)%nat -> j <> k -> f j = 0) ->
  bigsum f n = f k.
Proof.
  induction n as [|n IH]; intros Hk Hf; [lia|].
  rewrite bigsum_S_r. destruct (Nat.eq_dec k n) as [->|Hne].
  - rewrite (bigsum_ext f (fun _ => 0)) by (intros j Hj; apply Hf; lia).
    rewrite bigsum_zero by reflexivity. lia.
  - rewrite IH by (try lia; intros j Hj Hjk; apply Hf; lia).
    rewrite (Hf n) by lia. lia.
Qed.

(** The top coefficient of a product is the product of the top
    coefficients. *)
Lemma convZ_top (pv qv : list Z) (a b : Z) (pf qf : list Z) :
  pv = pf ++ [a] -> qv = qf ++ [b] ->
  convZ pv qv (length pf + length qf) = a * b.
Proof.
  intros -> ->. unfold convZ.
  rewrite (bigsum_single _ (length pf)).
  - replace (length pf + length qf - length pf)%nat with (length qf) by lia.
    rewrite !nth_middle. reflexivity.
  - lia.
  - intros j Hj Hne. destruct (Nat.lt_ge_cases j (length pf)) as [Hlt|Hge].
    + rewrite (nth_overflow (qf ++ [b])); [ring|].
      rewrite length_app. cbn [length]. lia.
    + rewrite (nth_overflow (pf ++ [a])); [ring|].
      rewrite length_app. cbn [length]. lia.
Qed.

Lemma convZ_nil_r (pv : list Z) (i : nat) : convZ pv [] i = 0.
Proof.
  unfold convZ. apply bigsum_zero. intros j.
  destruct (i - j)%nat; cbn [nth]; ring.
Qed.

Lemma prime_modulus_pos : 0 < m.
Proof. destruct m_prime. lia. Qed.

Lemma mul_explicit (p q : Polynomial) :
  wfP m p -> wfP m q ->
  Poly.mul p q
  = Ok (new_Polynomial
          (map (fun i => F m (convZ (values p) (values q) i))
               (seq 0 (Z.to_nat (degree p + degree q + 1))))).
Proof.
  intros Hp Hq. unfold Poly.mul.
  rewrite (modulus_of_wfP m prime_modulus_pos m_default p Hp).
  set (n := Z.to_nat (degree p + degree q + 1)).
  unfold range. fold n. rewrite mapM_map.
  rewrite (mapM_pure _ (fun i => F m (convZ (values p) (values q) i))).
  2:{ intros i _. cbv beta. rewrite (zero_F m prime_modulus_pos). cbn [bind].
      replace (Z.to_nat (Z.of_nat i + 1)) with (S i) by lia.
      rewrite (conv_loop m prime_modulus_pos p q i Hp Hq); [reflexivity|].
      intros j Hj. apply in_seq in Hj. lia. }
  reflexivity.
Qed.

Lemma snoc_cases {A} (l : list A) :
  l = [] \/ exists front c, l = front ++ [c].
Proof.
  destruct l as [|a l]; [left; reflexivity|right].
  exists (removelast (a :: l)), (last (a :: l) a).
  apply app_removelast_last. discriminate.
Qed.

Lemma mul_degree_spec (cs ds : list FieldElement) :
  Forall (wf m) cs -> Forall (wf m) ds ->
  exists r,
    Poly.mul (new_Polynomial cs) (new_Polynomial ds) = Ok r
    /\ (coefficients (new_Polynomial cs) <> [] ->
        coefficients (new_Polynomial ds) <> [] ->
        degree r = degree (new_Polynomial cs) + degree (new_Polynomial ds))
    /\ (coefficients (new_Polynomial cs) = []
        \/ coefficients (new_Polynomial ds) = [] ->
        coefficients r = []).
Proof.
  intros Hcs Hds. pose proof prime_modulus_pos as Hm.
  pose proof (wfP_new m cs Hcs) as Hp. pose proof (wfP_new m ds Hds) as Hq.
  pose proof (new_Polynomial_last cs) as Lp.
  pose proof (new_Polynomial_last ds) as Lq.
  set (p := new_Polynomial cs) in *. set (q := new_Polynomial ds) in *.
  rewrite (mul_explicit p q Hp Hq). eexists. split; [reflexivity|].
  split.
  - intros Np Nq.
    destruct (snoc_cases (coefficients p)) as [|(pf & a & Ep)]; [tauto|].
    destruct (snoc_cases (coefficients q)) as [|(qf & b & Eq)]; [tauto|].
    specialize (Lp a pf Ep). specialize (Lq b qf Eq).
    assert (Ha : wf m a).
    { unfold wfP in Hp. rewrite Ep in Hp. apply Forall_app in Hp as [_ Hp].
      apply Forall_cons_iff in Hp. tauto. }
    assert (Hb : wf m b).
    { unfold wfP in Hq. rewrite Eq in Hq. apply Forall_app in Hq as [_ Hq].
      apply Forall_cons_iff in Hq. tauto. }
    unfold degree at 1 2 3. unfold degree at 1 2. unfold len.
    rewrite Ep, Eq, !length_app. cbn [length].
    replace (Z.to_nat (Z.of_nat (length pf + 1) - 1
                       + (Z.of_nat (length qf + 1) - 1) + 1))
      with (S (length pf + length qf)) by lia.
    rewrite seq_S, map_app. cbn [map].
    assert (Etop : convZ (values p) (values q) (0 + (length pf + length qf))
                   = value a * value b).
    { rewrite Nat.add_0_l.
      rewrite <- (length_map value pf), <- (length_map value qf).
      apply convZ_top; unfold values; [rewrite Ep | rewrite Eq];
        rewrite map_app; reflexivity. }
    rewrite Etop.
    assert (Hnz : isZero (F m (value a * value b)) = false).
    { unfold isZero in *. cbn [F value].
      apply Z.eqb_neq. intros Hz. apply Z.eqb_neq in Lp, Lq.
      apply Z.mod_divide in Hz; [|lia].
      apply (Z.divide_prime_mul _ _ _ m_prime) in Hz.
      destruct Ha as [_ Ha], Hb as [_ Hb].
      destruct Hz as [Hz|Hz]; apply Z.divide_pos_le in Hz; lia. }
    unfold new_Polynomial. cbn [coefficients].
    rewrite rev_app_distr. cbn [rev app pop_zeros]. rewrite Hnz.
    cbn [rev]. rewrite rev_involutive, length_app, length_map, length_seq.
    cbn [length]. lia.
  - intros Hempty. cbn [coefficients].
    replace (new_Polynomial _) with (mkPoly []); [reflexivity|].
    symmetry. apply all_zero_is_empty. apply Forall_map, Forall_forall.
    intros i _. cbn [F value]. unfold values.
    destruct Hempty as [E|E]; rewrite E; cbn [map];
      [rewrite convZ_nil | rewrite convZ_nil_r]; apply Z.mod_0_l; lia.
Qed.

End ProductDegree.

(* ===================================================================== *)
(** * Further properties of the Merkle tree *)
(* ===================================================================== *)

Section MerkleShape.
Context {H : HashFunction}.
Import Merkle.

Lemma lookup_None_iff {A} (xs : list A) (i : Z) :
  lookup xs i = None <-> ~ (0 <= i < len xs).
Proof.
  unfold lookup, len. destruct (Z.ltb_spec i 0); [split; [lia | reflexivity]|].
  rewrite nth_error_None. lia.
Qed.

Lemma getRoot_nonempty (x : bytes) (leaves : list bytes) :
  exists r, getRoot (new_MerkleTree (x :: leaves)) = Some r.
Proof.
  destruct (path_to_root (x :: leaves) 0 x eq_refl) as (path & _ & Hroot).
  unfold getRoot, new_MerkleTree. cbn [tree]. eauto.
Qed.

(** X11: outside [0 .. leaves.length - 1], [getProof] throws and
    [getLeaf] is undefined, inside they return; [getRoot] is undefined for
    the tree without leaves only. *)
Theorem merkle_out_of_range (leaves : list bytes) (i : Z) :
  (~ (0 <= i < len leaves) <->
   getProof (new_MerkleTree leaves) i = Throw (Error "Invalid leaf index"))
  /\ (~ (0 <= i < len leaves) <-> getLeaf (new_MerkleTree leaves) i = None)
  /\ (leaves = [] <-> getRoot (new_MerkleTree leaves) = None).
Proof.
  split; [|split].
  - split.
    + intros Hout. unfold getProof. cbn [Merkle.leaves new_MerkleTree].
      replace ((i <? 0) || (i >=? len leaves)) with true; [reflexivity|].
      symmetry. apply orb_true_iff. lia.
    + intros E Hin. destruct (getProof_in_range leaves i Hin) as [p Hp].
      rewrite Hp in E. discriminate.
  - unfold getLeaf. cbn [Merkle.leaves new_MerkleTree].
    symmetry. apply lookup_None_iff.
  - split.
    + intros ->. apply getRoot_empty.
    + intros E. destruct leaves as [|x leaves]; [reflexivity|].
      destruct (getRoot_nonempty x leaves) as [r Hr]. congruence.
Qed.

Lemma collectSiblings_length : forall (levels : list (list bytes)) i path,
  collectSiblings levels i = Ok path ->
  length path = (length levels - 1)%nat.
Proof.
  induction levels as [|level [|next upper] IH]; intros i path E.
  - injection E as <-. reflexivity.
  - injection E as <-. reflexivity.
  - rewrite collectSiblings_step in E.
    destruct (elem level _); [|discriminate]. cbn [bind] in E.
    destruct (collectSiblings (next :: upper) (i / 2)) as [rest|] eqn:Er;
      [|discriminate].
    cbn [bind] in E. injection E as <-. cbn [length].
    rewrite (IH (i / 2) rest Er). cbn [length]. lia.
Qed.

(** The number of levels above the leaves is the binary logarithm of the
    number of leaves, rounded up. *)
Lemma buildTree_height (level : list bytes) :
  (length level <= 2 ^ length (buildTree level))%nat
  /\ ((2 <= length level)%nat ->
      (2 ^ (length (buildTree level) - 1) < length level)%nat).
Proof.
  induction level as [level IH] using (induction_ltof1 _ (@length bytes)).
  unfold ltof in IH.
  destruct (le_lt_dec (length level) 1) as [Hs|Hl].
  - rewrite (buildTree_short level Hs). cbn [length Nat.pow]. lia.
  - rewrite (buildTree_long level Hl). cbn [length].
    pose proof (nextLevel_length level) as Hn.
    destruct (IH (nextLevel level) ltac:(lia)) as [Hup Hlow].
    set (k := length (buildTree (nextLevel level))) in *.
    rewrite Nat.sub_succ, Nat.sub_0_r. cbn [Nat.pow]. split; [lia|].
    intros _. destruct (le_lt_dec 2 (length (nextLevel level))) as [H2|H1].
    + specialize (Hlow H2). destruct k as [|k].
      * cbn [Nat.pow] in *. lia.
      * cbn [Nat.pow] in *. rewrite Nat.sub_succ, Nat.sub_0_r in Hlow. lia.
    + assert (Ek : k = 0%nat).
      { unfold k. rewrite buildTree_short by lia. reflexivity. }
      rewrite Ek. cbn [Nat.pow]. lia.
Qed.

Lemma getProof_logarithmic (leaves : list bytes) (i : Z) (p : MerkleProof) :
  getProof (new_MerkleTree leaves) i = Ok p ->
  len leaves <= 2 ^ len (siblings p)
  /\ (2 <= len leaves -> 2 ^ (len (siblings p) - 1) < len leaves).
Proof.
  unfold getProof. cbn [Merkle.leaves Merkle.tree new_MerkleTree].
  destruct ((i <? 0) || (i >=? len leaves)); [discriminate|].
  destruct (collectSiblings _ i) as [path|] eqn:Ep; [|discriminate].
  cbn [bind]. destruct (elem leaves i); [|discriminate]. cbn [bind].
  destruct (getRoot _); [|discriminate]. cbn [bind].
  intros E. injection E as <-. cbn [siblings].
  apply collectSiblings_length in Ep. cbn [length] in Ep.
  rewrite Nat.sub_succ, Nat.sub_0_r in Ep.
  destruct (buildTree_height leaves) as [Hup Hlow].
  rewrite <- Ep in Hup, Hlow. unfold len.
  split.
  - apply Nat2Z.inj_le in Hup. rewrite Nat2Z.inj_pow in Hup. exact Hup.
  - intros H2. specialize (Hlow ltac:(lia)).
    apply Nat2Z.inj_lt in Hlow. rewrite Nat2Z.inj_pow in Hlow.
    destruct (length path) as [|k] eqn:Ek.
    + cbn in Hlow. change (2 ^ (0 - 1)) with 0. lia.
    + rewrite Nat.sub_succ, Nat.sub_0_r in Hlow.
      replace (Z.of_nat (S k) - 1) with (Z.of_nat k) by lia. exact Hlow.
Qed.

(** X12: the proof of a leaf in a tree of [n] leaves has the binary
    logarithm of [n], rounded up, as its number of siblings. *)
Theorem getProof_size (leaves : list bytes) (i : Z) (p : MerkleProof) :
  getProof (new_MerkleTree leaves) i = Ok p ->
  len leaves <= 2 ^ len (siblings p)
  /\ (2 <= len leaves -> 2 ^ (len (siblings p) - 1) < len leaves).
Proof. apply getProof_logarithmic. Qed.

Lemma nextLevel_duplicate_last (x : bytes) : forall l,
  Nat.even (length l) = true ->
  nextLevel (l ++ [x]) = nextLevel (l ++ [x; x]).
Proof.
  induction l as [|a|a b l IH] using list_pair_ind; intros He.
  - reflexivity.
  - discriminate.
  - cbn [app nextLevel]. f_equal. apply IH. exact He.
Qed.

(** X13: a tree whose last leaf stands alone at the end of an odd level
    has the root of the tree with that leaf written twice. *)
Theorem duplicate_last_leaf_same_root (leaves : list bytes) (x : bytes) :
  leaves <> [] -> Nat.even (length leaves) = true ->
  getRoot (new_MerkleTree (leaves ++ [x]))
  = getRoot (new_MerkleTree (leaves ++ [x; x])).
Proof.
  intros Hne He. unfold getRoot, new_MerkleTree. cbn [tree].
  assert (Hlen : (1 <= length leaves)%nat)
    by (destruct leaves; [congruence | cbn; lia]).
  rewrite (buildTree_long (leaves ++ [x])), (buildTree_long (leaves ++ [x; x]))
    by (rewrite length_app; cbn [length]; lia).
  rewrite (nextLevel_duplicate_last x leaves He). reflexivity.
Qed.

End MerkleShape.

Section MerkleTamper.
Context {H : HashFunction}.
Import Merkle.

Lemma combined_injective (i : Z) (h h' s : bytes) :
  (if Z.rem i 2 =? 0 then h ++ s else s ++ h)
  = (if Z.rem i 2 =? 0 then h' ++ s else s ++ h') ->
  h = h'.
Proof.
  destruct (Z.rem i 2 =? 0); intros E.
  - apply app_inv_tail in E. exact E.
  - apply app_inv_head in E. exact E.
Qed.

Lemma sibling_injective (i : Z) (h s s' : bytes) :
  (if Z.rem i 2 =? 0 then h ++ s else s ++ h)
  = (if Z.rem i 2 =? 0 then h ++ s' else s' ++ h) ->
  s = s'.
Proof.
  destruct (Z.rem i 2 =? 0); intros E.
  - apply app_inv_head in E. exact E.
  - apply app_inv_tail in E. exact E.
Qed.

Lemma bytes_eq_dec (a b : bytes) : {a = b} + {a <> b}.
Proof.
  destruct (bytes_eqb a b) eqn:E.
  - left. apply bytes_eqb_eq. exact E.
  - right. intros Eab. apply bytes_eqb_eq in Eab. congruence.
Qed.

(** Two hashes that the same siblings take to the same root are equal,
    or the two ways up meet in a collision. *)
Lemma recompute_injective (siblings : list bytes) : forall h h' i,
  recompute h i siblings = recompute h' i siblings ->
  h = h'
  \/ exists a b : bytes,
       In a (hashed h i siblings) /\ In b (hashed h' i siblings)
       /\ a <> b /\ sha256 a = sha256 b.
Proof.
  induction siblings as [|s rest IH]; intros h h' i E;
    cbn [recompute hashed] in *.
  - left. exact E.
  - destruct (IH _ _ _ E) as [Eh|(a & b & Ha & Hb & Hab & Hc)].
    + destruct (bytes_eq_dec h h') as [|Hne]; [left; assumption|right].
      exists (if Z.rem i 2 =? 0 then h ++ s else s ++ h),
             (if Z.rem i 2 =? 0 then h' ++ s else s ++ h').
      split; [left; reflexivity|]. split; [left; reflexivity|].
      split; [|exact Eh].
      intros Ec. apply Hne. apply (combined_injective i h h' s Ec).
    + right. exists a, b. repeat split; try assumption; right; assumption.
Qed.

Lemma recompute_app (pre post : list bytes) : forall h i,
  exists (h1 : bytes) (i1 : Z) (front : list bytes),
    forall s : bytes,
      let combined := if Z.rem i1 2 =? 0 then h1 ++ s else s ++ h1 in
      recompute h i (pre ++ s :: post)
      = recompute (sha256 combined) (i1 / 2) post
      /\ hashed h i (pre ++ s :: post)
         = front ++ combined :: hashed (sha256 combined) (i1 / 2) post.
Proof.
  induction pre as [|a pre IH]; intros h i.
  - exists h, i, []. intros s. split; reflexivity.
  - cbn [app recompute hashed].
    destruct (IH (sha256 (if Z.rem i 2 =? 0 then h ++ a else a ++ h))
                 (i / 2)) as (h1 & i1 & front & Hs).
    exists h1, i1, ((if Z.rem i 2 =? 0 then h ++ a else a ++ h) :: front).
    intros s. destruct (Hs s) as [Er Eh]. split; [exact Er|].
    exact (f_equal (cons _) Eh).
Qed.

(** X14: once a proof verifies, it stops verifying when its root is
    replaced by another byte string; and when its leaf or one of its
    siblings is replaced by another byte string it stops verifying unless
    the two verifications hash two different inputs to one digest. *)
Theorem verify_tamper_evidence
        (leaf : bytes) (siblings : list bytes) (index : Z) (root : bytes) :
  let p := mkProof leaf siblings index root in
  verify p = true ->
  (forall root', root' <> root ->
     verify (mkProof leaf siblings index root') = false)
  /\ (forall leaf', leaf' <> leaf ->
        let p' := mkProof leaf' siblings index root in
        verify p' = false \/ collision p p')
  /\ (forall pre s post s', siblings = pre ++ s :: post -> s' <> s ->
        let p' := mkProof leaf (pre ++ s' :: post) index root in
        verify p' = false \/ collision p p').
Proof.
  unfold verify, collision.
  cbn [Merkle.leaf Merkle.siblings Merkle.index Merkle.root].
  intros Hv. apply bytes_eqb_eq in Hv. split; [|split].
  - intros root' Hne. destruct (bytes_eqb _ root') eqn:E; [|reflexivity].
    apply bytes_eqb_eq in E. congruence.
  - intros leaf' Hne.
    destruct (bytes_eqb (recompute leaf' index siblings) root) eqn:E;
      [|left; reflexivity].
    apply bytes_eqb_eq in E. rewrite <- Hv in E. symmetry in E.
    destruct (recompute_injective _ _ _ _ E) as [|Hc];
      [congruence | right; exact Hc].
  - intros pre s post s' -> Hne.
    destruct (bytes_eqb (recompute leaf index (pre ++ s' :: post)) root)
      eqn:E; [|left; reflexivity].
    apply bytes_eqb_eq in E. rewrite <- Hv in E. symmetry in E. right.
    destruct (recompute_app pre post leaf index) as (h1 & i1 & front & Happ).
    destruct (Happ s) as [Rs Hs]. destruct (Happ s') as [Rs' Hs'].
    cbv zeta in Rs, Hs, Rs', Hs'. rewrite Rs, Rs' in E. rewrite Hs, Hs'.
    destruct (recompute_injective _ _ _ _ E) as [Eh|(a & b & Ha & Hb & Hab)].
    + exists (if Z.rem i1 2 =? 0 then h1 ++ s else s ++ h1),
             (if Z.rem i1 2 =? 0 then h1 ++ s' else s' ++ h1).
      split; [apply in_or_app; right; left; reflexivity|].
      split; [apply in_or_app; right; left; reflexivity|].
      split; [|exact Eh].
      intros Ec. apply Hne. symmetry.
      apply (sibling_injective i1 h1 s s' Ec).
    + exists a, b.
      split; [apply in_or_app; right; right; exact Ha|].
      split; [apply in_or_app; right; right; exact Hb|]. exact Hab.
Qed.

(** X15: [verify] does not fix where the leaf ends and its first sibling
    starts: at an even index, bytes moved from the end of the leaf to the
    front of the first sibling leave the verdict as it is, and likewise at
    an odd index from the front of the leaf to the end of the sibling. *)
Theorem verify_leaf_boundary
        (leaf moved s : bytes) (rest : list bytes) (index : Z) (root : bytes) :
  (Z.rem index 2 = 0 ->
   verify (mkProof (leaf ++ moved) (s :: rest) index root)
   = verify (mkProof leaf ((moved ++ s) :: rest) index root))
  /\ (Z.rem index 2 <> 0 ->
      verify (mkProof (moved ++ leaf) (s :: rest) index root)
      = verify (mkProof leaf ((s ++ moved) :: rest) index root)).
Proof.
  unfold verify. cbn [Merkle.leaf Merkle.siblings Merkle.index Merkle.root].
  cbn [recompute]. split; intros Hi.
  - rewrite Hi. cbn [Z.eqb]. rewrite app_assoc. reflexivity.
  - destruct (Z.eqb_spec (Z.rem index 2) 0); [contradiction|].
    rewrite app_assoc. reflexivity.
Qed.

End MerkleTamper.

(* ===================================================================== *)
(** * Further properties of the ledger *)
(* ===================================================================== *)

Section LedgerOperations.
Context {H : HashFunction}.
Import Field Merkle Validation X402.

Lemma timestampOf_fst (payment : PaymentRequest) (dateNow : clock) :
  fst (timestampOf payment dateNow)
  = match req_timestamp payment with
    | Some t => t
    | None => dateNow 0%nat
    end.
Proof. unfold timestampOf. destruct (req_timestamp payment); reflexivity. Qed.

Lemma batchLoop_Ok (payments : list PaymentRequest) :
  forall this dateNow created this' created',
    batchLoop this dateNow payments created = (this', Ok created') ->
    exists records,
      recordsOf dateNow payments = Ok records
      /\ this' = mkLedger (stealthPayments this ++ records) (merkleTree this)
      /\ created' = created ++ records.
Proof.
  induction payments as [|p rest IH];
    intros this dateNow created this' created' E; cbn [batchLoop] in E.
  - injection E as <- <-. exists []. rewrite !app_nil_r.
    destruct this. repeat split.
  - cbn [recordsOf]. unfold recordOf.
    destruct (makePayment _ _ _) as [sp|]; [|discriminate].
    destruct (IH _ _ _ _ _ E) as (records & Em & -> & ->).
    exists (sp :: records). rewrite Em. cbn [bind stealthPayments merkleTree].
    rewrite <- !app_assoc. repeat split.
Qed.

Lemma batchLoop_Throw (good : list PaymentRequest) :
  forall this dateNow created bad rest records e,
    recordsOf dateNow good = Ok records ->
    recordOf (clockAfter dateNow good) bad = Throw e ->
    batchLoop this dateNow (good ++ bad :: rest) created
    = (mkLedger (stealthPayments this ++ records) (merkleTree this), Throw e).
Proof.
  induction good as [|g good IH];
    intros this dateNow created bad rest records e Eg Eb.
  - injection Eg as <-. cbn [app batchLoop]. unfold recordOf in Eb.
    cbn [clockAfter fold_left] in Eb.
    rewrite Eb, app_nil_r. destruct this. reflexivity.
  - cbn [recordsOf] in Eg. cbn [app batchLoop].
    unfold recordOf at 1 in Eg.
    destruct (makePayment _ _ _) as [sp|]; [|discriminate].
    cbn [bind] in Eg.
    destruct (recordsOf (snd (timestampOf g dateNow)) good)
      as [records'|] eqn:Eg'; [|discriminate].
    cbn [bind] in Eg. injection Eg as <-.
    rewrite (IH _ (snd (timestampOf g dateNow)) _ bad rest records' e Eg' Eb).
    cbn [stealthPayments merkleTree]. rewrite <- app_assoc. reflexivity.
Qed.

Lemma payEach_records (payments : list PaymentRequest) :
  forall this dateNow records,
    recordsOf dateNow payments = Ok records ->
    payments <> [] ->
    payEach this dateNow payments
    = rebuildMerkleTree
        (mkLedger (stealthPayments this ++ records) (merkleTree this)).
Proof.
  induction payments as [|p rest IH]; intros this dateNow records E Hne;
    [congruence|].
  cbn [recordsOf] in E. unfold recordOf at 1 in E.
  cbn [payEach]. unfold createPayment at 1.
  rewrite timestampOf_fst in E.
  destruct (makePayment _ _ _) as [sp|]; [|discriminate].
  cbn [bind] in E.
  destruct (recordsOf (snd (timestampOf p dateNow)) rest)
    as [records'|] eqn:Er; [|discriminate].
  cbn [bind] in E. injection E as <-. cbn [fst].
  destruct rest as [|q rest].
  - injection Er as <-. reflexivity.
  - rewrite (IH _ _ records' Er) by discriminate.
    unfold rebuildMerkleTree. cbn [stealthPayments merkleTree].
    rewrite <- !app_assoc. reflexivity.
Qed.

(** X16: a batch that succeeds leaves the ledger that calling
    [createPayment] on each request in turn leaves, each request without a
    timestamp reading the clock where the batch reads it, and returns the
    records it has appended, one for each request. *)
Theorem batch_is_sequence
        (this this' : X402StealthPayment) (dateNow : clock)
        (payments : list PaymentRequest) (created : list StealthPayment) :
  createBatchPayments this dateNow payments = (this', Ok created) ->
  this' = payEach this dateNow payments
  /\ stealthPayments this' = stealthPayments this ++ created
  /\ recordsOf dateNow payments = Ok created.
Proof.
  unfold createBatchPayments.
  destruct (Z.eqb_spec (len payments) 0) as [|Hne]; [discriminate|].
  destruct (batchLoop this dateNow payments []) as [loop [c|e]] eqn:El;
    [|discriminate].
  intros E. injection E as <- <-.
  destruct (batchLoop_Ok payments _ _ _ _ _ El) as (records & Em & -> & ->).
  cbn [app]. split; [|split; [reflexivity | exact Em]].
  symmetry. apply payEach_records; [exact Em|].
  intros ->. apply Hne. reflexivity.
Qed.

(** X17: an empty batch throws and leaves the ledger as it was; a batch
    whose first invalid request comes after valid ones throws that
    request's exception, keeps the records of the valid ones before it,
    each stamped with its own reading of the clock, and does not rebuild
    the tree. *)
Theorem batch_is_not_atomic
        (this : X402StealthPayment) (dateNow : clock)
        (good : list PaymentRequest) (bad : PaymentRequest)
        (rest : list PaymentRequest) (records : list StealthPayment)
        (e : error) :
  createBatchPayments this dateNow []
  = (this, Throw (ValidationError "Payments array cannot be empty" None))
  /\ (recordsOf dateNow good = Ok records ->
      recordOf (clockAfter dateNow good) bad = Throw e ->
      createBatchPayments this dateNow (good ++ bad :: rest)
      = (mkLedger (stealthPayments this ++ records) (merkleTree this),
         Throw e)).
Proof.
  split; [reflexivity|]. intros Eg Eb. unfold createBatchPayments.
  destruct (Z.eqb_spec (len (good ++ bad :: rest)) 0) as [E0|_].
  - unfold len in E0. rewrite length_app in E0. cbn [length] in E0. lia.
  - rewrite (batchLoop_Throw good this dateNow [] bad rest records e Eg Eb).
    reflexivity.
Qed.

Lemma lookup_app_l {A} (xs ys : list A) (i : Z) :
  0 <= i < len xs -> lookup (xs ++ ys) i = lookup xs i.
Proof.
  unfold lookup, len. intros Hi. destruct (Z.ltb_spec i 0); [lia|].
  apply nth_error_app1. lia.
Qed.

Lemma lookup_app_last {A} (xs : list A) (x : A) :
  lookup (xs ++ [x]) (len xs) = Some x.
Proof.
  unfold lookup, len. destruct (Z.ltb_spec (Z.of_nat (length xs)) 0); [lia|].
  rewrite Nat2Z.id, nth_error_app2, Nat.sub_diag by lia. reflexivity.
Qed.

(** X18: the ledger is append-only: a successful [createPayment] raises
    [getPaymentCount] by one, [getPayment] returns the new record at the
    former count and the records before it as they were;
    [getPayment] is undefined outside [0 .. count - 1]. *)
Theorem createPayment_appends
        (this this' : X402StealthPayment) (now : Z) (stealthAddress : bytes)
        (amount : Z) (timestamp : option Z) (payment : StealthPayment) :
  createPayment this now stealthAddress amount timestamp
  = (this', Ok payment) ->
  getPaymentCount this' = getPaymentCount this + 1
  /\ getPayment this' (getPaymentCount this) = Some payment
  /\ (forall i, 0 <= i < getPaymentCount this ->
                getPayment this' i = getPayment this i)
  /\ (forall i, ~ (0 <= i < getPaymentCount this') ->
                getPayment this' i = None).
Proof.
  unfold createPayment. destruct (makePayment _ _ _) as [sp|]; [|discriminate].
  intros E. injection E as <- <-.
  unfold getPaymentCount, getPayment, rebuildMerkleTree.
  cbn [stealthPayments]. rewrite len_app. change (len [sp]) with 1.
  pose proof (len_nonneg (stealthPayments this)) as Hn.
  split; [reflexivity|]. split; [|split].
  - replace ((len (stealthPayments this) <? 0)
             || (len (stealthPayments this) >=? len (stealthPayments this) + 1))
      with false by (symmetry; apply orb_false_iff; lia).
    apply lookup_app_last.
  - intros i Hi.
    replace ((i <? 0) || (i >=? len (stealthPayments this) + 1))
      with false by (symmetry; apply orb_false_iff; lia).
    replace ((i <? 0) || (i >=? len (stealthPayments this)))
      with false by (symmetry; apply orb_false_iff; lia).
    apply lookup_app_l. exact Hi.
  - intros i Hi.
    replace ((i <? 0) || (i >=? len (stealthPayments this) + 1))
      with true by (symmetry; apply orb_true_iff; lia).
    reflexivity.
Qed.

Lemma timestampBytes_wraps (timestamp : Z) :
  timestampBytes (timestamp + 2 ^ 64) = timestampBytes timestamp.
Proof.
  unfold timestampBytes. f_equal.
  rewrite <- (Z.mul_1_l (2 ^ 64)) at 1. apply Z.mod_add. lia.
Qed.

(** X19: the record of a payment keeps the amount modulo [SHADOW_PRIME]
    and its commitment the timestamp modulo [2^64]: the amounts [a] and
    [a + SHADOW_PRIME] give one and the same ledger and record, and the
    timestamps [t] and [t + 2^64] records with one commitment. *)
Theorem commitment_aliasing
        (this : X402StealthPayment) (now : Z) (stealthAddress : bytes)
        (amount timestamp : Z) :
  1 <= amount -> 0 <= timestamp ->
  createPayment this now stealthAddress (amount + SHADOW_PRIME)
                (Some timestamp)
  = createPayment this now stealthAddress amount (Some timestamp)
  /\ (len stealthAddress = 32 ->
      exists p q,
        snd (createPayment this now stealthAddress amount (Some timestamp))
        = Ok p
        /\ snd (createPayment this now stealthAddress amount
                              (Some (timestamp + 2 ^ 64)))
           = Ok q
        /\ commitment p = commitment q
        /\ X402.amount p = X402.amount q
        /\ X402.timestamp p <> X402.timestamp q).
Proof.
  intros Ha Ht. pose proof SHADOW_PRIME_pos as Hp. split.
  - unfold createPayment, makePayment.
    destruct (validateStealthAddress stealthAddress "stealthAddress");
      [|reflexivity].
    cbn [bind]. unfold validateBigInt.
    destruct (Z.ltb_spec (amount + SHADOW_PRIME) 1); [lia|].
    destruct (Z.ltb_spec amount 1); [lia|].
    destruct (Z.ltb_spec timestamp 0); [lia|]. cbn [bind].
    rewrite !(new_FieldElement_F _ Hp).
    rewrite (F_eq SHADOW_PRIME (amount + SHADOW_PRIME) amount);
      [reflexivity|].
    rewrite <- (Z.mul_1_l SHADOW_PRIME) at 1. apply Z.mod_add. lia.
  - intros Hlen.
    rewrite (createPayment_valid this now stealthAddress amount
               (Some timestamp) Hlen Ha Ht).
    rewrite (createPayment_valid this now stealthAddress amount
               (Some (timestamp + 2 ^ 64)) Hlen Ha ltac:(lia)).
    cbn [snd]. eexists _, _. split; [reflexivity|]. split; [reflexivity|].
    unfold paymentOf.
    cbn [commitment X402.amount X402.timestamp].
    rewrite timestampBytes_wraps. repeat split. lia.
Qed.

Lemma every_eq_eq (a b : bytes) :
  len a = len b -> every_eq a b = true -> a = b.
Proof.
  revert b. induction a as [|x a IH]; intros [|y b] Hl E; cbn in *;
    try reflexivity; try discriminate; try (unfold len in Hl; cbn in Hl; lia).
  apply andb_true_iff in E as [Exy E]. apply Byte.byte_dec_bl in Exy.
  f_equal; [exact Exy|]. apply IH; [|exact E].
  unfold len in *. cbn [length] in Hl. lia.
Qed.

Lemma equals_eq (a b : FieldElement) : equals a b = true -> a = b.
Proof.
  unfold equals. intros E. apply andb_true_iff in E as [Ev Em].
  apply Z.eqb_eq in Ev, Em. destruct a, b. cbn in *. congruence.
Qed.

(** X20: [verifyProof] answers [true] only when the inclusion proof
    verifies, its root is the expected root byte for byte, every
    evaluation proof verifies and the challenge is the Fiat-Shamir hash of
    the polynomial commitment and the public inputs. *)
Theorem verifyProof_true_only_if (proof : StealthProof) (expectedRoot : bytes) :
  verifyProof proof expectedRoot = Ok true ->
  verify (merkleProof proof) = true
  /\ root (merkleProof proof) = expectedRoot
  /\ forallb verify (evaluationProofs (zkProof proof)) = true
  /\ fiatShamir (polynomialCommitment (zkProof proof)) (publicInput proof)
     = Ok (challenge (zkProof proof)).
Proof.
  unfold verifyProof, verifyZKProof.
  destruct (verify (merkleProof proof)); [|discriminate]. cbn [negb].
  destruct (Z.eqb_spec (len (root (merkleProof proof))) (len expectedRoot))
    as [Hl|]; [|discriminate].
  destruct (every_eq _ expectedRoot) eqn:Ee; [|discriminate].
  cbn [andb negb].
  destruct (forallb verify _); [|discriminate]. cbn [negb].
  destruct (fiatShamir _ _) as [c|]; [|discriminate]. cbn [bind].
  destruct (equals _ c) eqn:Ec; [|discriminate]. intros _.
  apply equals_eq in Ec. subst c.
  repeat split. apply every_eq_eq; assumption.
Qed.

(** X21: [verifyProof] accepts, for any expected root and any public
    inputs, a bundle made without the ledger: the root as the leaf of an
    inclusion proof without siblings, no evaluation proof, any polynomial
    commitment with its Fiat-Shamir challenge, any commitment and any
    responses. *)
Theorem verifyProof_accepts_forgery
        (expectedRoot anyCommitment anyPolynomialCommitment : bytes)
        (inputs anyResponse : list FieldElement) (c : FieldElement) :
  fiatShamir anyPolynomialCommitment inputs = Ok c ->
  verifyProof
    (mkStealthProof anyCommitment
       (mkProof expectedRoot [] 0 expectedRoot)
       (mkZKProof anyPolynomialCommitment [] c anyResponse)
       inputs)
    expectedRoot
  = Ok true.
Proof.
  intros Ec. unfold verifyProof, verifyZKProof, verify.
  cbn [merkleProof zkProof publicInput leaf siblings index root recompute
       evaluationProofs polynomialCommitment challenge forallb].
  rewrite bytes_eqb_refl, Z.eqb_refl, every_eq_refl. cbn [negb andb].
  rewrite Ec. cbn [bind]. rewrite equals_refl. reflexivity.
Qed.

End LedgerOperations.

Section ProofShape.
Context {H : HashFunction}.
Import Field Poly Merkle X402.

Lemma random_entropy (e e1 : entropy) (r : result FieldElement) :
  random SHADOW_PRIME e = (r, e1) -> forall k, e1 k = e (32 + k)%nat.
Proof.
  unfold random.
  assert (E : (hex_length (SHADOW_PRIME - 1) + 1) / 2 = 32)
    by (vm_compute; reflexivity).
  rewrite E. unfold getRandomValues. intros Er k.
  apply (f_equal snd) in Er. cbn [snd] in Er. rewrite <- Er. reflexivity.
Qed.

Lemma sampleEvaluations_S (poly : Polynomial) (n : nat) (e : entropy) :
  sampleEvaluations (S n) poly e
  = match random SHADOW_PRIME e with
    | (Throw err, e') => (Throw err, e')
    | (Ok x, e') =>
        match evaluate poly x with
        | Throw err => (Throw err, e')
        | Ok evaluation =>
            match sampleEvaluations n poly e' with
            | (Throw err, e'') => (Throw err, e'')
            | (Ok rest, e'') => (Ok (evaluation :: rest), e'')
            end
        end
    end.
Proof. reflexivity. Qed.

Lemma sampleEvaluations_entropy (poly : Polynomial) : forall n e evaluations e',
  sampleEvaluations n poly e = (Ok evaluations, e') ->
  length evaluations = n /\ forall k, e' k = e (32 * n + k)%nat.
Proof.
  induction n as [|n IH]; intros e evaluations e' E.
  - cbn [sampleEvaluations] in E. injection E as <- <-.
    split; [reflexivity|]. intros k. reflexivity.
  - rewrite sampleEvaluations_S in E.
    destruct (random SHADOW_PRIME e) as [[x|] e1] eqn:Er; [|discriminate].
    pose proof (random_entropy e e1 _ Er) as Hr.
    destruct (evaluate poly x); [|discriminate].
    destruct (sampleEvaluations n poly e1) as [[rest|] e2] eqn:Es;
      [|discriminate].
    injection E as <- <-. destruct (IH _ _ _ Es) as [Hl He].
    split; [cbn [length]; rewrite Hl; reflexivity|].
    intros k. rewrite He, Hr. f_equal. lia.
Qed.

Lemma lookup_map {A B} (f : A -> B) (xs : list A) (i : Z) :
  lookup (map f xs) i = option_map f (lookup xs i).
Proof.
  unfold lookup. destruct (i <? 0); [reflexivity|]. apply nth_error_map.
Qed.

Lemma siblings_of_eight (leaves : list bytes) (i : Z) (p : MerkleProof) :
  length leaves = 8%nat ->
  getProof (new_MerkleTree leaves) i = Ok p ->
  index p = i /\ len (siblings p) = 3.
Proof.
  intros Hl Hp. split; [apply (getProof_sound leaves i p Hp)|].
  destruct (getProof_logarithmic leaves i p Hp) as [Hup Hlow].
  unfold len in *. rewrite Hl in Hup, Hlow. specialize (Hlow ltac:(lia)).
  set (k := length (siblings p)) in *.
  destruct k as [|[|[|[|k]]]]; try reflexivity;
    try (exfalso; cbn in Hup; lia).
  exfalso. revert Hlow.
  replace (Z.of_nat (S (S (S (S k)))) - 1) with (3 + Z.of_nat k) by lia.
  rewrite Z.pow_add_r by lia.
  pose proof (Z.pow_pos_nonneg 2 (Z.of_nat k) ltac:(lia) ltac:(lia)).
  change (2 ^ 3) with 8. change (Z.of_nat 8) with 8. nia.
Qed.

Lemma evaluationProofs_shape (leaves : list bytes) :
  length leaves = 8%nat ->
  forall indices proofs,
    mapM (getProof (new_MerkleTree leaves)) indices = Ok proofs ->
    map index proofs = indices
    /\ Forall (fun p => len (siblings p) = 3) proofs.
Proof.
  intros Hl. induction indices as [|i indices IH]; intros proofs E;
    cbn [mapM] in E.
  - injection E as <-. split; [reflexivity | constructor].
  - destruct (getProof _ i) as [p|] eqn:Hp; [|discriminate].
    cbn [bind] in E.
    destruct (mapM _ indices) as [ps|]; [|discriminate].
    cbn [bind] in E. injection E as <-.
    destruct (IH ps eq_refl) as [Hi Hs].
    destruct (siblings_of_eight leaves i p Hl Hp) as [Ei Es].
    cbn [map]. rewrite Ei, Hi. split; [reflexivity|].
    constructor; assumption.
Qed.

(** X22: a bundle from [generateProof] on a ledger whose tree is in step
    carries the commitment of the payment asked for, as its commitment and
    as the leaf of its inclusion proof, the public inputs as given, the
    evaluation proofs of the leaves 0, 2, 4 and 6 of a tree of eight, each
    of three siblings, and four responses; making it takes 256 bytes from
    the random stream. *)
Theorem generateProof_shape
        (this : X402StealthPayment) (paymentIndex : Z)
        (inputs : list FieldElement) (e e' : entropy) (proof : StealthProof) :
  in_sync this ->
  generateProof this paymentIndex inputs e = (Ok proof, e') ->
  (exists payment,
      getPayment this paymentIndex = Some payment
      /\ proofCommitment proof = commitment payment
      /\ leaf (merkleProof proof) = commitment payment)
  /\ index (merkleProof proof) = paymentIndex
  /\ publicInput proof = inputs
  /\ map index (evaluationProofs (zkProof proof)) = [0; 2; 4; 6]
  /\ Forall (fun p => len (siblings p) = 3) (evaluationProofs (zkProof proof))
  /\ len (response (zkProof proof)) = 4
  /\ (forall k, e' k = e (256 + k)%nat).
Proof.
  intros Hsync. unfold generateProof, getPayment.
  destruct ((paymentIndex <? 0) || _); [discriminate|].
  destruct (lookup _ paymentIndex) as [payment|] eqn:Hpay; [|discriminate].
  destruct Hsync as [Ht|[_ Ht]]; rewrite Ht; [|discriminate].
  destruct (getProof _ paymentIndex) as [mp|] eqn:Hmp; [|discriminate].
  destruct (generateZKProof payment inputs e) as [[zk|] e1] eqn:Hzk;
    [|discriminate].
  intros E. injection E as <- <-.
  cbn [proofCommitment merkleProof publicInput zkProof].
  destruct (getProof_sound _ _ _ Hmp) as (_ & _ & Hleaf & Hidx).
  rewrite lookup_map, Hpay in Hleaf. cbn [option_map] in Hleaf.
  injection Hleaf as Hleaf.
  split; [exists payment; auto|]. split; [exact Hidx|].
  split; [reflexivity|].
  unfold generateZKProof in Hzk.
  destruct (new_FieldElement _ _); [|discriminate].
  destruct (mapM _ (indexed _)); [|discriminate].
  destruct (interpolate _) as [poly|]; [|discriminate].
  destruct (sampleEvaluations 8 poly e) as [[evaluations|] e2] eqn:Hs;
    [|discriminate].
  destruct (Merkle.getRoot _) as [pc|]; cbn [bind] in Hzk; [|discriminate].
  destruct (fiatShamir pc inputs) as [c|]; cbn [bind] in Hzk; [|discriminate].
  destruct (mapM (getProof _) queryIndices) as [proofs|] eqn:Hp;
    cbn [bind] in Hzk; [|discriminate].
  destruct (mapM (elem evaluations) queryIndices) as [resp|] eqn:Hr;
    cbn [bind] in Hzk; [|discriminate].
  injection Hzk as <- <-.
  cbn [evaluationProofs response].
  destruct (sampleEvaluations_entropy poly 8 e evaluations e2 Hs) as [Hl He].
  destruct (evaluationProofs_shape (map toBytes evaluations)
              ltac:(rewrite length_map; exact Hl) _ _ Hp) as [Hi Hsib].
  split; [exact Hi|]. split; [exact Hsib|]. split.
  - unfold len. rewrite (mapM_length _ _ _ Hr). reflexivity.
  - intros k. rewrite He. reflexivity.
Qed.

End ProofShape.

(* ===================================================================== *)
(** * Input validation *)
(* ===================================================================== *)

Section ValidationFacts.
Import Validation.

(** X23: [validateBytes] accepts the arrays of at least [minLength] bytes,
    [validateBigInt] the integers within the bounds that are given, and
    [validateStealthAddress] the arrays of 32 bytes, no more and no fewer;
    what they refuse gets a [ValidationError] that names the field. *)
Theorem validators_accept_exactly
        (bs : bytes) (v : Z) (name : string) (minLength : Z)
        (min max : option Z) :
  (validateBytes bs name minLength = Ok tt <-> minLength <= len bs)
  /\ (validateBigInt v name min max = Ok tt
      <-> (forall lo, min = Some lo -> lo <= v)
          /\ (forall hi, max = Some hi -> v <= hi))
  /\ (validateStealthAddress bs name = Ok tt <-> len bs = 32)
  /\ (forall e,
        validateBytes bs name minLength = Throw e
        \/ validateBigInt v name min max = Throw e
        \/ validateStealthAddress bs name = Throw e ->
        exists message, e = ValidationError message (Some name)).
Proof.
  split; [|split; [|split]].
  - unfold validateBytes. destruct (Z.ltb_spec (len bs) minLength);
      split; (reflexivity || discriminate || lia).
  - unfold validateBigInt. destruct min as [lo|], max as [hi|].
    + destruct (Z.ltb_spec v lo); [split; [discriminate|];
        intros [Hlo _]; specialize (Hlo lo eq_refl); lia|].
      destruct (Z.gtb_spec v hi); [split; [discriminate|];
        intros [_ Hhi]; specialize (Hhi hi eq_refl); lia|].
      split; [|reflexivity]. intros _.
      split; intros x Ex; injection Ex as <-; lia.
    + destruct (Z.ltb_spec v lo); [split; [discriminate|];
        intros [Hlo _]; specialize (Hlo lo eq_refl); lia|].
      split; [|reflexivity]. intros _.
      split; intros x Ex; [injection Ex as <-; lia | discriminate].
    + destruct (Z.gtb_spec v hi); [split; [discriminate|];
        intros [_ Hhi]; specialize (Hhi hi eq_refl); lia|].
      split; [|reflexivity]. intros _.
      split; intros x Ex; [discriminate | injection Ex as <-; lia].
    + split; [|reflexivity]. intros _. split; intros x Ex; discriminate.
  - unfold validateStealthAddress, validateBytes.
    destruct (Z.ltb_spec (len bs) 32); cbn [bind];
      [split; [discriminate | lia]|].
    destruct (Z.eqb_spec (len bs) 32); cbn [negb];
      split; (reflexivity || discriminate || lia || contradiction).
  - intros e [E|[E|E]].
    + unfold validateBytes in E. destruct (len bs <? minLength);
        [|discriminate]. injection E as <-. eauto.
    + unfold validateBigInt in E.
      destruct (match min with Some lo => v <? lo | None => false end);
        [injection E as <-; eauto|].
      destruct (match max with Some hi => v >? hi | None => false end);
        [injection E as <-; eauto | discriminate].
    + unfold validateStealthAddress, validateBytes in E.
      destruct (len bs <? 32); cbn [bind] in E; [injection E as <-; eauto|].
      destruct (negb (len bs =? 32)); [injection E as <-; eauto|discriminate].
Qed.

End ValidationFacts.

(* ===================================================================== *)
(** * Statements over the reference field and concrete runs *)
(* ===================================================================== *)

Ltac wf_closed :=
  split; [reflexivity | vm_compute; split; [discriminate | reflexivity]].

Ltac wfP_closed :=
  unfold wfP; cbn [Poly.coefficients];
  repeat (apply Forall_cons; [wf_closed|]); apply Forall_nil.

Section ReferenceFieldPolynomials.
Import Field Poly.

Lemma add_sub_evaluate_witness :
  exists s d vp vq,
    Poly.add (mkPoly [mkFE 1 SHADOW_PRIME; mkFE 2 SHADOW_PRIME])
             (mkPoly [mkFE 3 SHADOW_PRIME]) = Ok s
    /\ Poly.sub (mkPoly [mkFE 1 SHADOW_PRIME; mkFE 2 SHADOW_PRIME])
                (mkPoly [mkFE 3 SHADOW_PRIME]) = Ok d
    /\ evaluate (mkPoly [mkFE 1 SHADOW_PRIME; mkFE 2 SHADOW_PRIME])
                (mkFE 5 SHADOW_PRIME) = Ok vp
    /\ evaluate (mkPoly [mkFE 3 SHADOW_PRIME]) (mkFE 5 SHADOW_PRIME) = Ok vq
    /\ evaluate s (mkFE 5 SHADOW_PRIME) = Field.add vp vq
    /\ evaluate d (mkFE 5 SHADOW_PRIME) = Field.sub vp vq.
Proof. apply add_sub_evaluate; [wfP_closed | wfP_closed | wf_closed]. Defined.

Lemma mul_evaluate_witness :
  exists r vp vq,
    Poly.mul (mkPoly [mkFE 1 SHADOW_PRIME; mkFE 2 SHADOW_PRIME])
             (mkPoly [mkFE 3 SHADOW_PRIME]) = Ok r
    /\ evaluate (mkPoly [mkFE 1 SHADOW_PRIME; mkFE 2 SHADOW_PRIME])
                (mkFE 5 SHADOW_PRIME) = Ok vp
    /\ evaluate (mkPoly [mkFE 3 SHADOW_PRIME]) (mkFE 5 SHADOW_PRIME) = Ok vq
    /\ evaluate r (mkFE 5 SHADOW_PRIME) = Field.mul vp vq.
Proof. apply mul_evaluate; [wfP_closed | wfP_closed | wf_closed]. Defined.

Lemma sub_self_is_empty_witness :
  exists d,
    Poly.sub (mkPoly [mkFE 1 SHADOW_PRIME; mkFE 2 SHADOW_PRIME])
             (mkPoly [mkFE 1 SHADOW_PRIME; mkFE 2 SHADOW_PRIME]) = Ok d
    /\ coefficients d = [] /\ degree d = -1.
Proof. apply sub_self_is_empty. wfP_closed. Defined.

(** X24: over the reference field the product of two polynomials that
    have coefficients has the sum of their degrees as its degree, no
    leading coefficient vanishing; a product with the polynomial without
    coefficients has none. *)
Theorem mul_degree (cs ds : list FieldElement) :
  Forall (wf SHADOW_PRIME) cs -> Forall (wf SHADOW_PRIME) ds ->
  exists r,
    Poly.mul (new_Polynomial cs) (new_Polynomial ds) = Ok r
    /\ (coefficients (new_Polynomial cs) <> [] ->
        coefficients (new_Polynomial ds) <> [] ->
        degree r = degree (new_Polynomial cs) + degree (new_Polynomial ds))
    /\ (coefficients (new_Polynomial cs) = []
        \/ coefficients (new_Polynomial ds) = [] ->
        coefficients r = []).
Proof. apply (mul_degree_spec SHADOW_PRIME SHADOW_PRIME_prime eq_refl). Qed.

Lemma mul_degree_witness :
  exists r,
    Poly.mul (new_Polynomial [mkFE 1 SHADOW_PRIME; mkFE 2 SHADOW_PRIME])
             (new_Polynomial [mkFE 0 SHADOW_PRIME; mkFE 3 SHADOW_PRIME])
    = Ok r
    /\ degree r = 2.
Proof.
  destruct (mul_degree [mkFE 1 SHADOW_PRIME; mkFE 2 SHADOW_PRIME]
                       [mkFE 0 SHADOW_PRIME; mkFE 3 SHADOW_PRIME])
    as (r & Er & Hd & _).
  - repeat (apply Forall_cons; [wf_closed|]). apply Forall_nil.
  - repeat (apply Forall_cons; [wf_closed|]). apply Forall_nil.
  - exists r. split; [exact Er|]. rewrite Hd; [reflexivity | |];
      vm_compute; discriminate.
Defined.

(** X25: [interpolate] throws on an empty array of points; over the
    reference field, through points of which two share their
    x-coordinate it throws the exception of [inverse]. *)
Theorem interpolate_rejects_repeated_abscissa :
  interpolate [] = Throw (Error "Cannot interpolate empty set of points")
  /\ forall points,
      (forall x y, In (x, y) points ->
                   wf SHADOW_PRIME x /\ wf SHADOW_PRIME y) ->
      ~ NoDup (map fst points) ->
      interpolate points = Throw (Error "Field element is not invertible").
Proof.
  split; [reflexivity|]. intros points Hwf Hdup.
  assert (Hne : points <> []) by (intros ->; apply Hdup; constructor).
  destruct (interpolate_outcome SHADOW_PRIME SHADOW_PRIME_pos eq_refl
              points Hne Hwf) as [(p & Ep & _)|E]; [|exact E].
  exfalso. apply Hdup.
  assert (Hbig : 1 < SHADOW_PRIME)
    by (pose proof (Z.prime_ge_2 _ SHADOW_PRIME_prime); lia).
  apply (interpolate_Ok_NoDup SHADOW_PRIME Hbig points p); [|exact Ep].
  intros x y Hin. apply (Hwf x y Hin).
Qed.

End ReferenceFieldPolynomials.

Section ReferenceFieldInterpolation.
Import Field Poly.

Lemma interpolate_rejects_repeated_abscissa_witness :
  interpolate [(mkFE 1 SHADOW_PRIME, mkFE 2 SHADOW_PRIME);
               (mkFE 1 SHADOW_PRIME, mkFE 3 SHADOW_PRIME)]
  = Throw (Error "Field element is not invertible").
Proof.
  apply (proj2 interpolate_rejects_repeated_abscissa).
  - intros x y [E|[E|[]]]; injection E as <- <-; split; wf_closed.
  - intros Hn. apply NoDup_cons_iff in Hn as [Hn _]. apply Hn.
    left. reflexivity.
Defined.

(** X26: the polynomial [interpolate] returns has fewer coefficients
    than, or as many as, there are points: its degree is below their
    number. *)
Theorem interpolate_degree_bound
        (points : list (FieldElement * FieldElement)) (p : Polynomial) :
  interpolate points = Ok p -> degree p < len points.
Proof.
  intros E. apply interpolate_length in E. unfold degree, len. lia.
Qed.

Lemma interpolate_degree_bound_witness :
  exists p,
    interpolate [(mkFE 0 SHADOW_PRIME, mkFE 1 SHADOW_PRIME);
                 (mkFE 1 SHADOW_PRIME, mkFE 2 SHADOW_PRIME);
                 (mkFE 2 SHADOW_PRIME, mkFE 3 SHADOW_PRIME)] = Ok p
    /\ degree p < 3.
Proof.
  exists (mkPoly [mkFE 1 SHADOW_PRIME; mkFE 1 SHADOW_PRIME]).
  assert (E : interpolate [(mkFE 0 SHADOW_PRIME, mkFE 1 SHADOW_PRIME);
                           (mkFE 1 SHADOW_PRIME, mkFE 2 SHADOW_PRIME);
                           (mkFE 2 SHADOW_PRIME, mkFE 3 SHADOW_PRIME)]
              = Ok (mkPoly [mkFE 1 SHADOW_PRIME; mkFE 1 SHADOW_PRIME]))
    by (vm_compute; reflexivity).
  split; [exact E|]. apply (interpolate_degree_bound _ _ E).
Defined.

End ReferenceFieldInterpolation.

Section MerkleRuns.
Import Merkle.

Lemma getProof_size_witness :
  let H : HashFunction := SHA256.instance in
  exists p,
    getProof (new_MerkleTree [[x01]; [x02]; [x03]]) 2 = Ok p
    /\ 3 <= 2 ^ len (siblings p)
    /\ 2 ^ (len (siblings p) - 1) < 3.
Proof.
  intros H.
  destruct (getProof_in_range [[x01]; [x02]; [x03]] 2) as [p Hp];
    [vm_compute; split; [discriminate | reflexivity]|].
  exists p. split; [exact Hp|].
  destruct (getProof_size [[x01]; [x02]; [x03]] 2 p Hp) as [Hup Hlow].
  split; [exact Hup|]. apply Hlow. vm_compute. discriminate.
Defined.

Lemma duplicate_last_leaf_same_root_witness :
  let H : HashFunction := SHA256.instance in
  getRoot (new_MerkleTree ([[x01]; [x02]] ++ [[x03]]))
  = getRoot (new_MerkleTree ([[x01]; [x02]] ++ [[x03]; [x03]])).
Proof.
  intros H. apply duplicate_last_leaf_same_root;
    [discriminate | reflexivity].
Defined.

Lemma verify_tamper_evidence_witness :
  let H : HashFunction := SHA256.instance in
  verify (mkProof [x01] [[x02]] 0 (sha256 [x01; x02])) = true
  /\ verify (mkProof [x01] [[x02]] 0 [x00]) = false.
Proof.
  intros H.
  assert (Hv : verify (mkProof [x01] [[x02]] 0 (sha256 [x01; x02])) = true)
    by (vm_compute; reflexivity).
  split; [exact Hv|].
  apply (proj1 (verify_tamper_evidence [x01] [[x02]] 0 (sha256 [x01; x02])
                  Hv)).
  vm_compute. discriminate.
Defined.

End MerkleRuns.

Section LedgerRuns.
Import Field Poly Merkle X402.

Lemma run_in_sync : in_sync (H := Run.hash) Run.ledger.
Proof.
  unfold Run.ledger. apply createPayment_in_sync. right. split; reflexivity.
Qed.

Lemma run_ledger :
  @createPayment Run.hash new_X402StealthPayment 0 Run.address 5 (Some 7)
  = (Run.ledger, Ok Run.payment).
Proof.
  unfold Run.ledger, Run.payment.
  rewrite (createPayment_valid (H := Run.hash)
             new_X402StealthPayment 0 Run.address 5 (Some 7))
    by (reflexivity || lia).
  reflexivity.
Qed.

Lemma run_records :
  @recordsOf Run.hash Run.ticking Run.untimed
  = Ok [paymentOf (H := Run.hash) Run.address 5 100;
        paymentOf (H := Run.hash) Run.address 6 101].
Proof.
  unfold Run.untimed. cbn [recordsOf]. unfold recordOf.
  cbn [timestampOf req_stealthAddress req_amount req_timestamp fst snd].
  change (Run.ticking 0%nat) with 100. change (Run.ticking 1%nat) with 101.
  rewrite (makePayment_valid (H := Run.hash) Run.address 5 100)
    by (reflexivity || lia).
  rewrite (makePayment_valid (H := Run.hash) Run.address 6 101)
    by (reflexivity || lia).
  reflexivity.
Qed.

Lemma run_batch :
  @createBatchPayments Run.hash new_X402StealthPayment Run.ticking Run.untimed
  = (mkLedger [paymentOf (H := Run.hash) Run.address 5 100;
               paymentOf (H := Run.hash) Run.address 6 101]
       (Some (new_MerkleTree (H := Run.hash)
                (map commitment
                     [paymentOf (H := Run.hash) Run.address 5 100;
                      paymentOf (H := Run.hash) Run.address 6 101]))),
     Ok [paymentOf (H := Run.hash) Run.address 5 100;
         paymentOf (H := Run.hash) Run.address 6 101]).
Proof.
  unfold createBatchPayments, Run.untimed.
  change (len [mkRequest Run.address 5 None; mkRequest Run.address 6 None]
          =? 0) with false.
  cbn [batchLoop timestampOf req_stealthAddress req_amount req_timestamp
       fst snd].
  change (Run.ticking 0%nat) with 100.
  rewrite (makePayment_valid (H := Run.hash) Run.address 5 100)
    by (reflexivity || lia).
  change (Run.ticking 1%nat) with 101.
  rewrite (makePayment_valid (H := Run.hash) Run.address 6 101)
    by (reflexivity || lia).
  reflexivity.
Qed.

Lemma run_generates :
  exists proof e',
    @generateProof Run.hash Run.ledger 0 Run.inputs Run.stream
    = (Ok proof, e').
Proof.
  apply (generateProof_ok (H := Run.hash) sha256_digest_nonempty).
  - exact run_in_sync.
  - unfold Run.ledger.
    rewrite (createPayment_valid (H := Run.hash)
               new_X402StealthPayment 0 Run.address 5 (Some 7))
      by (reflexivity || lia).
    cbv zeta. unfold new_X402StealthPayment, rebuildMerkleTree.
    cbn [fst stealthPayments app]. apply Forall_cons; [|apply Forall_nil].
    apply (wf_F SHADOW_PRIME SHADOW_PRIME_pos).
  - unfold Run.ledger.
    rewrite (createPayment_valid (H := Run.hash)
               new_X402StealthPayment 0 Run.address 5 (Some 7))
      by (reflexivity || lia).
    cbv zeta. unfold new_X402StealthPayment, rebuildMerkleTree.
    cbn [fst stealthPayments app]. unfold len. cbn [length]. lia.
  - repeat (apply Forall_cons; [wf_closed|]). apply Forall_nil.
  - vm_compute. discriminate.
Qed.

Lemma batch_is_sequence_witness :
  fst (@createBatchPayments Run.hash new_X402StealthPayment Run.ticking
         Run.untimed)
  = @payEach Run.hash new_X402StealthPayment Run.ticking Run.untimed
  /\ @recordsOf Run.hash Run.ticking Run.untimed
     = Ok [paymentOf (H := Run.hash) Run.address 5 100;
           paymentOf (H := Run.hash) Run.address 6 101].
Proof.
  destruct (@batch_is_sequence Run.hash new_X402StealthPayment _ Run.ticking
              Run.untimed _ run_batch) as (Hs & _ & Hr).
  split; [rewrite run_batch; exact Hs | exact Hr].
Defined.

Lemma batch_is_not_atomic_witness :
  @createBatchPayments Run.hash new_X402StealthPayment Run.ticking
     (Run.untimed ++ [mkRequest (repeat x00 31) 7 None])
  = (mkLedger
       (stealthPayments new_X402StealthPayment
        ++ [paymentOf (H := Run.hash) Run.address 5 100;
            paymentOf (H := Run.hash) Run.address 6 101])
       (merkleTree new_X402StealthPayment),
     Throw (ValidationError "must be at least minLength bytes"
                            (Some "stealthAddress"%string))).
Proof.
  apply (proj2 (@batch_is_not_atomic Run.hash new_X402StealthPayment
                  Run.ticking Run.untimed
                  (mkRequest (repeat x00 31) 7 None) [] _ _)).
  - exact run_records.
  - reflexivity.
Defined.

Lemma createPayment_appends_witness :
  getPaymentCount Run.ledger = getPaymentCount new_X402StealthPayment + 1
  /\ getPayment Run.ledger (getPaymentCount new_X402StealthPayment)
     = Some Run.payment.
Proof.
  destruct (@createPayment_appends Run.hash new_X402StealthPayment Run.ledger
              0 Run.address 5 (Some 7) Run.payment run_ledger)
    as (Hc & Hg & _).
  split; assumption.
Defined.

Lemma commitment_aliasing_witness :
  @createPayment Run.hash new_X402StealthPayment 0 Run.address
     (5 + SHADOW_PRIME) (Some 7)
  = @createPayment Run.hash new_X402StealthPayment 0 Run.address 5 (Some 7).
Proof.
  apply (proj1 (@commitment_aliasing Run.hash new_X402StealthPayment 0
                  Run.address 5 7 ltac:(lia) ltac:(lia))).
Defined.

Lemma verifyProof_accepts_forgery_witness :
  exists c,
    @fiatShamir Run.hash [] Run.inputs = Ok c
    /\ @verifyProof Run.hash
         (mkStealthProof [] (mkProof [x01] [] 0 [x01])
            (mkZKProof [] [] c []) Run.inputs)
         [x01]
       = Ok true.
Proof.
  destruct (@fiatShamir_ok Run.hash sha256_digest_nonempty [] Run.inputs)
    as [c Ec].
  exists c. split; [exact Ec|].
  apply (@verifyProof_accepts_forgery Run.hash [x01] [] [] Run.inputs [] c Ec).
Defined.

Lemma verifyProof_true_only_if_witness :
  exists proof e' expectedRoot,
    @generateProof Run.hash Run.ledger 0 Run.inputs Run.stream
    = (Ok proof, e')
    /\ X402.getRoot Run.ledger = Some expectedRoot
    /\ root (merkleProof proof) = expectedRoot.
Proof.
  destruct run_generates as (proof & e' & Hgen).
  destruct (@verifyProof_generated Run.hash _ _ _ _ _ _ run_in_sync Hgen)
    as (expectedRoot & Hroot & Hver).
  exists proof, e', expectedRoot. split; [exact Hgen|].
  split; [exact Hroot|].
  specialize (Hver (proofCommitment proof) (response (zkProof proof))).
  rewrite <- (proof_eta proof) in Hver.
  apply (@verifyProof_true_only_if Run.hash proof expectedRoot Hver).
Defined.

Lemma generateProof_shape_witness :
  exists proof e',
    @generateProof Run.hash Run.ledger 0 Run.inputs Run.stream
    = (Ok proof, e')
    /\ publicInput proof = Run.inputs
    /\ map index (evaluationProofs (zkProof proof)) = [0; 2; 4; 6]
    /\ len (response (zkProof proof)) = 4.
Proof.
  destruct run_generates as (proof & e' & Hgen).
  exists proof, e'. split; [exact Hgen|].
  destruct (@generateProof_shape Run.hash _ _ _ _ _ _ run_in_sync Hgen)
    as (_ & _ & Hin & Hidx & _ & Hresp & _).
  auto.
Defined.

End LedgerRuns.

(* ===================================================================== *)
(** * Laws of polynomial addition and multiplication *)
(* ===================================================================== *)

Section PolynomialLaws.
Import Field Poly.

Variable m : Z.
Hypothesis m_prime : Z.prime m.
Hypothesis m_default : m = SHADOW_PRIME.

Lemma add_explicit (p q : Polynomial) :
  wfP m p -> wfP m q ->
  Poly.add p q
  = Ok (new_Polynomial
          (map (fun i => F m (nth i (values p) 0 + nth i (values q) 0))
               (seq 0 (Nat.max (length (coefficients p))
                               (length (coefficients q)))))).
Proof.
  intros Hp Hq. pose proof (prime_modulus_pos m m_prime) as Hm.
  unfold Poly.add. rewrite (modulus_of_wfP m Hm m_default p Hp).
  set (n := Nat.max (length (coefficients p)) (length (coefficients q))).
  replace (Z.max (len (coefficients p)) (len (coefficients q)))
    with (Z.of_nat n) by (unfold n, len; lia).
  rewrite range_of_nat, mapM_map.
  rewrite (mapM_pure _ (fun i => F m (nth i (values p) 0 + nth i (values q) 0))).
  2:{ intros i _. rewrite !(coeff_or_zero_spec m Hm) by assumption.
      cbn [bind]. apply add_F. exact Hm. }
  reflexivity.
Qed.

Lemma add_commutes (p q : Polynomial) :
  wfP m p -> wfP m q -> Poly.add p q = Poly.add q p.
Proof.
  intros Hp Hq. rewrite (add_explicit p q Hp Hq), (add_explicit q p Hq Hp).
  rewrite Nat.max_comm. do 2 f_equal. apply map_ext. intros i.
  rewrite Z.add_comm. reflexivity.
Qed.

Lemma bigsum_reverse (f : nat -> Z) : forall n,
  bigsum (fun j => f (n - j)%nat) (S n) = bigsum f (S n).
Proof.
  induction n as [|n IH]; [reflexivity|].
  rewrite bigsum_S_l, (bigsum_S_r f). rewrite Nat.sub_0_r.
  rewrite (bigsum_ext _ (fun j => f (n - j)%nat)) by (intros j _; reflexivity).
  rewrite IH. ring.
Qed.

Lemma convZ_commutes (pv qv : list Z) (i : nat) :
  convZ pv qv i = convZ qv pv i.
Proof.
  unfold convZ.
  rewrite <- (bigsum_reverse (fun j => nth j pv 0 * nth (i - j) qv 0) i).
  apply bigsum_ext. intros j Hj.
  replace (i - (i - j))%nat with j by lia. ring.
Qed.

Lemma mul_commutes (p q : Polynomial) :
  wfP m p -> wfP m q -> Poly.mul p q = Poly.mul q p.
Proof.
  intros Hp Hq.
  rewrite (mul_explicit m m_prime m_default p q Hp Hq),
          (mul_explicit m m_prime m_default q p Hq Hp).
  rewrite (Z.add_comm (degree q)). do 2 f_equal. apply map_ext. intros i.
  rewrite convZ_commutes. reflexivity.
Qed.

Lemma pop_zeros_idempotent (l : list FieldElement) :
  pop_zeros (pop_zeros l) = pop_zeros l.
Proof.
  pose proof (pop_zeros_head l) as Hh.
  destruct (pop_zeros l) as [|c rest]; [reflexivity|].
  cbn [pop_zeros]. rewrite Hh. reflexivity.
Qed.

Lemma new_Polynomial_idempotent (cs : list FieldElement) :
  new_Polynomial (coefficients (new_Polynomial cs)) = new_Polynomial cs.
Proof.
  unfold new_Polynomial. cbn [coefficients].
  rewrite rev_involutive, pop_zeros_idempotent. reflexivity.
Qed.

Lemma coefficients_of_values (l : list FieldElement) :
  Forall (wf m) l ->
  map (fun i => F m (nth i (map value l) 0)) (seq 0 (length l)) = l.
Proof.
  induction l as [|c l IH]; intros Hl; [reflexivity|].
  apply Forall_cons_iff in Hl as [Hc Hl].
  cbn [length seq map nth]. rewrite <- (wf_is_F m c Hc). f_equal.
  rewrite <- seq_shift, map_map. cbn [nth]. apply IH. exact Hl.
Qed.

Lemma add_zero_r (cs : list FieldElement) :
  Forall (wf m) cs ->
  Poly.add (new_Polynomial cs) (mkPoly []) = Ok (new_Polynomial cs).
Proof.
  intros Hcs. pose proof (wfP_new m cs Hcs) as Hp.
  rewrite (add_explicit _ (mkPoly []) Hp) by constructor.
  cbn [coefficients length]. rewrite Nat.max_0_r. f_equal.
  rewrite <- (new_Polynomial_idempotent cs) at 2. f_equal.
  rewrite <- (coefficients_of_values _ Hp) at 2.
  apply map_ext. intros i. unfold values. cbn [coefficients map].
  replace (nth i [] 0) with 0 by (destruct i; reflexivity).
  rewrite Z.add_0_r. reflexivity.
Qed.

Lemma convZ_one (pv : list Z) (i : nat) : convZ pv [1] i = nth i pv 0.
Proof.
  unfold convZ. rewrite (bigsum_single _ i) by
      (try lia; intros j Hj Hne;
       destruct (i - j)%nat as [|[|k]] eqn:E; cbn [nth]; try ring; lia).
  rewrite Nat.sub_diag. cbn [nth]. ring.
Qed.

Lemma mul_one_r (cs : list FieldElement) :
  Forall (wf m) cs ->
  Poly.mul (new_Polynomial cs) (mkPoly [F m 1]) = Ok (new_Polynomial cs).
Proof.
  intros Hcs. pose proof (wfP_new m cs Hcs) as Hp.
  pose proof (prime_modulus_pos m m_prime) as Hm.
  assert (H1 : 1 < m) by (destruct m_prime; lia).
  rewrite (mul_explicit m m_prime m_default _ (mkPoly [F m 1]) Hp)
    by (repeat constructor; cbn; try apply Z.mod_pos_bound; lia).
  unfold degree, len. cbn [coefficients length].
  replace (Z.to_nat (Z.of_nat (length (coefficients (new_Polynomial cs))) - 1
                     + (Z.of_nat 1 - 1) + 1))
    with (length (coefficients (new_Polynomial cs))) by lia.
  f_equal. rewrite <- (new_Polynomial_idempotent cs) at 2. f_equal.
  rewrite <- (coefficients_of_values _ Hp) at 2.
  apply map_ext. intros i. unfold values at 2. cbn [coefficients map F value].
  rewrite (Z.mod_small 1) by lia. rewrite convZ_one. reflexivity.
Qed.

End PolynomialLaws.

Section ReferenceFieldLaws.
Import Field Poly.

(** X27: over the reference field [add] is commutative, and adding the
    polynomial [Polynomial.zero()] returns, on either side, leaves a
    polynomial built by the constructor as it is. *)
Theorem add_laws (cs ds : list FieldElement) :
  Forall (wf SHADOW_PRIME) cs -> Forall (wf SHADOW_PRIME) ds ->
  let p := new_Polynomial cs in
  let q := new_Polynomial ds in
  Poly.add p q = Poly.add q p
  /\ exists z, Poly.zero SHADOW_PRIME = Ok z
               /\ Poly.add p z = Ok p /\ Poly.add z p = Ok p.
Proof.
  intros Hcs Hds p q.
  pose proof (wfP_new SHADOW_PRIME cs Hcs) as Hp.
  pose proof (wfP_new SHADOW_PRIME ds Hds) as Hq.
  split; [apply (add_commutes _ SHADOW_PRIME_prime eq_refl p q Hp Hq)|].
  exists (mkPoly []). split; [reflexivity|].
  assert (E : Poly.add p (mkPoly []) = Ok p)
    by (apply (add_zero_r _ SHADOW_PRIME_prime eq_refl cs Hcs)).
  split; [exact E|].
  rewrite <- (add_commutes _ SHADOW_PRIME_prime eq_refl p (mkPoly []) Hp)
    by constructor.
  exact E.
Qed.

Lemma add_laws_witness :
  Poly.add (new_Polynomial [mkFE 1 SHADOW_PRIME; mkFE 2 SHADOW_PRIME])
           (new_Polynomial [mkFE 3 SHADOW_PRIME])
  = Poly.add (new_Polynomial [mkFE 3 SHADOW_PRIME])
             (new_Polynomial [mkFE 1 SHADOW_PRIME; mkFE 2 SHADOW_PRIME]).
Proof.
  apply (add_laws [mkFE 1 SHADOW_PRIME; mkFE 2 SHADOW_PRIME]
                  [mkFE 3 SHADOW_PRIME]);
    repeat (apply Forall_cons; [wf_closed|]); apply Forall_nil.
Defined.

(** X28: over the reference field [mul] is commutative, and multiplying
    by the polynomial [Polynomial.one()] returns, on either side, leaves a
    polynomial built by the constructor as it is. *)
Theorem mul_laws (cs ds : list FieldElement) :
  Forall (wf SHADOW_PRIME) cs -> Forall (wf SHADOW_PRIME) ds ->
  let p := new_Polynomial cs in
  let q := new_Polynomial ds in
  Poly.mul p q = Poly.mul q p
  /\ exists o, Poly.one SHADOW_PRIME = Ok o
               /\ Poly.mul p o = Ok p /\ Poly.mul o p = Ok p.
Proof.
  intros Hcs Hds p q.
  pose proof (wfP_new SHADOW_PRIME cs Hcs) as Hp.
  pose proof (wfP_new SHADOW_PRIME ds Hds) as Hq.
  split; [apply (mul_commutes _ SHADOW_PRIME_prime eq_refl p q Hp Hq)|].
  exists (mkPoly [F SHADOW_PRIME 1]). split; [reflexivity|].
  assert (E : Poly.mul p (mkPoly [F SHADOW_PRIME 1]) = Ok p)
    by (apply (mul_one_r _ SHADOW_PRIME_prime eq_refl cs Hcs)).
  split; [exact E|].
  rewrite <- (mul_commutes _ SHADOW_PRIME_prime eq_refl p
                (mkPoly [F SHADOW_PRIME 1]) Hp);
    [exact E|].
  apply Forall_cons; [apply (wf_F _ SHADOW_PRIME_pos) | apply Forall_nil].
Qed.

Lemma mul_laws_witness :
  Poly.mul (new_Polynomial [mkFE 1 SHADOW_PRIME; mkFE 2 SHADOW_PRIME])
           (new_Polynomial [mkFE 3 SHADOW_PRIME])
  = Poly.mul (new_Polynomial [mkFE 3 SHADOW_PRIME])
             (new_Polynomial [mkFE 1 SHADOW_PRIME; mkFE 2 SHADOW_PRIME]).
Proof.
  apply (mul_laws [mkFE 1 SHADOW_PRIME; mkFE 2 SHADOW_PRIME]
                  [mkFE 3 SHADOW_PRIME]);
    repeat (apply Forall_cons; [wf_closed|]); apply Forall_nil.
Defined.

End ReferenceFieldLaws.
